(** * Caspers Kitchens support console: case aggregation and credential cache

    A shallow embedding of the pure helpers of
    [server/support-plugin.ts] (report parsing and normalisation, draft
    redaction, case status and next action, the case timeline) and of the
    password callback of [server/lib/lakebase.ts] (the single-flight token
    cache), together with the properties the design document states about
    them; and of the code around them: the text of a model response and
    of a support request, the case state of the list, the four routes
    that write and the operator tables, the callback over time, and the
    labels and pages of the console ([client/src/App.tsx]), with the
    properties the code shows. *)

From Stdlib Require Import ZArith QArith Qcanon Qround Lia Bool List Ascii String.
From Stdlib Require Import Sorting.Permutation Sorting.Sorted.
From stdpp Require Import gmap strings list fin_maps pretty.

Set Warnings "-register-all".
Local Open Scope Z_scope.
Local Open Scope string_scope.

(** ** The JavaScript values the server code handles

    A string is a sequence of code units; the model covers the code units
    0 to 255.  A number is NaN, an infinity, or a finite value kept as the
    exact rational it denotes (always in lowest terms); rounding to
    binary64 and the sign of zero are not modelled. *)

Module JS.

Inductive number :=
| NaN
| Inf (negative : bool)
| Fin (q : Q).

Inductive value :=
| VUndefined
| VNull
| VBool (b : bool)
| VNum (n : number)
| VStr (s : string)
| VArr (elements : list value)
| VObj (props : gmap string value).

Definition num_of_Z (z : Z) : number := Fin (inject_Z z).

Definition typeof (v : value) : string :=
  match v with
  | VUndefined => "undefined"
  | VNull => "object"
  | VBool _ => "boolean"
  | VNum _ => "number"
  | VStr _ => "string"
  | VArr _ => "object"
  | VObj _ => "object"
  end.

Definition is_zero (n : number) : bool :=
  match n with
  | Fin q => (Qnum q =? 0)%Z
  | _ => false
  end.

(** ToBoolean. *)
Definition truthy (v : value) : bool :=
  match v with
  | VUndefined | VNull => false
  | VBool b => b
  | VNum NaN => false
  | VNum n => negb (is_zero n)
  | VStr s => negb (String.eqb s "")
  | VArr _ | VObj _ => true
  end.

(** [a ?? b]. *)
Definition nullish (v : value) : bool :=
  match v with
  | VUndefined | VNull => true
  | _ => false
  end.

Definition coalesce (a b : value) : value := if nullish a then b else a.

(** [v === true]. *)
Definition is_true (v : value) : bool :=
  match v with
  | VBool true => true
  | _ => false
  end.

(** *** Characters *)

Definition code (c : ascii) : N := N_of_ascii c.

Definition in_range (lo hi : N) (c : ascii) : bool :=
  ((lo <=? code c) && (code c <=? hi))%N.

Definition is_digit : ascii -> bool := in_range 48 57.
Definition is_upper : ascii -> bool := in_range 65 90.
Definition is_lower : ascii -> bool := in_range 97 122.

(** [\w]: letters, digits and the underscore. *)
Definition is_word (c : ascii) : bool :=
  is_digit c || is_upper c || is_lower c || (code c =? 95)%N.

(** [\s], which is also what [trim] and numeric conversion strip: TAB, LF,
    VT, FF, CR, SPACE and NBSP among the code units below 256. *)
Definition is_space (c : ascii) : bool :=
  in_range 9 13 c || (code c =? 32)%N || (code c =? 160)%N.

(** [[0-9a-f]] under the [i] flag. *)
Definition is_hex (c : ascii) : bool :=
  is_digit c || in_range 97 102 c || in_range 65 70 c.

Definition to_lower (c : ascii) : ascii :=
  if is_upper c then ascii_of_N (code c + 32) else c.

(** A literal character under the [i] flag. *)
Definition ichar (c x : ascii) : bool := Ascii.eqb (to_lower x) (to_lower c).

(** A literal character. *)
Definition lit (c x : ascii) : bool := Ascii.eqb x c.

(** *** Strings as character lists *)

Abbreviation chars := list_ascii_of_string.
Abbreviation str := string_of_list_ascii.

Fixpoint drop_space (s : list ascii) : list ascii :=
  match s with
  | c :: s' => if is_space c then drop_space s' else s
  | [] => []
  end.

(** [String.prototype.trim]. *)
Definition trim_chars (s : list ascii) : list ascii :=
  rev (drop_space (rev (drop_space s))).

Definition trim (s : string) : string := str (trim_chars (chars s)).

(** [typeof r === "string" && r.trim().length > 0]. *)
Definition is_nonblank_string (v : value) : bool :=
  match v with
  | VStr s => negb (String.eqb (trim s) "")
  | _ => false
  end.

(** *** Numbers *)

Definition is_finite (n : number) : bool :=
  match n with
  | Fin _ => true
  | _ => false
  end.

(** The least magnitude that rounds to an infinity: 2^1024 - 2^970. *)
Definition overflow_bound : Z := 2 ^ 1024 - 2 ^ 970.

Definition round_number (q : Q) : number :=
  if (overflow_bound * Z.pos (Qden q) <=? Z.abs (Qnum q))%Z
  then Inf (Qnum q <? 0)%Z
  else Fin (Qred q).

Definition neg_number (n : number) : number :=
  match n with
  | NaN => NaN
  | Inf b => Inf (negb b)
  | Fin q => Fin (Qred (- q))
  end.

(** [a + b] on numbers. *)
Definition add (a b : number) : number :=
  match a, b with
  | NaN, _ | _, NaN => NaN
  | Inf x, Inf y => if Bool.eqb x y then Inf x else NaN
  | Inf x, Fin _ | Fin _, Inf x => Inf x
  | Fin p, Fin q => round_number (p + q)
  end.

(** [a > 0]. *)
Definition gt_zero (a : number) : bool :=
  match a with
  | NaN => false
  | Inf neg => negb neg
  | Fin q => (0 <? Qnum q)%Z
  end.

Definition digit_val (base : Z) (c : ascii) : option Z :=
  let d :=
    if is_digit c then Some (Z.of_N (code c) - 48)
    else if in_range 97 102 c then Some (Z.of_N (code c) - 87)
    else if in_range 65 70 c then Some (Z.of_N (code c) - 55)
    else None in
  match d with
  | Some v => if (v <? base)%Z then Some v else None
  | None => None
  end.

(** Reads a maximal run of digits of the base: the value read so far, how
    many digits were read, and the rest. *)
Fixpoint read_digits (base : Z) (acc : Z) (count : nat) (s : list ascii)
  : Z * nat * list ascii :=
  match s with
  | c :: s' =>
      match digit_val base c with
      | Some d => read_digits base (acc * base + d) (S count) s'
      | None => (acc, count, s)
      end
  | [] => (acc, count, [])
  end.

(** [0x], [0o] and [0b] literals: no sign, at least one digit, nothing
    after the digits. *)
Definition nondecimal (s : list ascii) : option Q :=
  match s with
  | "0"%char :: p :: rest =>
      let base :=
        if ichar "x" p then Some 16
        else if ichar "o" p then Some 8
        else if ichar "b" p then Some 2
        else None in
      match base with
      | Some b =>
          match read_digits b 0 0 rest with
          | (v, S _, []) => Some (inject_Z v)
          | _ => None
          end
      | None => None
      end
  | _ => None
  end.

Definition read_sign (s : list ascii) : bool * list ascii :=
  match s with
  | "-"%char :: s' => (true, s')
  | "+"%char :: s' => (false, s')
  | _ => (false, s)
  end.

(** The exponent part, when one is there: [e] or [E], an optional sign,
    at least one digit. *)
Definition read_exponent (s : list ascii) : option (Z * list ascii) :=
  match s with
  | e :: s1 =>
      if ichar "e" e then
        let '(neg, s2) := read_sign s1 in
        match read_digits 10 0 0 s2 with
        | (v, S _, rest) => Some ((if neg then - v else v), rest)
        | _ => None
        end
      else None
  | [] => None
  end.

Definition pow10 (e : Z) : Q :=
  if (0 <=? e)%Z then inject_Z (10 ^ e)
  else Qmake 1 (Z.to_pos (10 ^ (- e))).

(** An unsigned decimal literal: digits, an optional fraction, an optional
    exponent; at least one digit before or after the point. *)
Definition unsigned_decimal (s : list ascii) : option Q :=
  let '(ip, n1, s1) := read_digits 10 0 0 s in
  let '(mant, n2, s2) :=
    match s1 with
    | "."%char :: s1' =>
        let '(m, n, r) := read_digits 10 ip 0 s1' in (m, n, r)
    | _ => (ip, 0%nat, s1)
    end in
  match (n1 + n2)%nat with
  | O => None
  | S _ =>
      let scale := - Z.of_nat n2 in
      match s2 with
      | [] => Some (inject_Z mant * pow10 scale)%Q
      | _ =>
          match read_exponent s2 with
          | Some (e, []) => Some (inject_Z mant * pow10 (scale + e))%Q
          | _ => None
          end
      end
  end.

(** [Number(s)] for a string: white space is stripped; the empty string is
    0; anything that is not a numeric literal is NaN. *)
Definition string_to_number (s : string) : number :=
  let t := trim_chars (chars s) in
  match t with
  | [] => Fin 0
  | _ =>
      match nondecimal t with
      | Some q => round_number q
      | None =>
          let '(neg, u) := read_sign t in
          if String.eqb (str u) "Infinity" then Inf neg
          else
            match unsigned_decimal u with
            | Some q => if neg then neg_number (round_number q) else round_number q
            | None => NaN
            end
      end
  end.

(** [Number(v)].  An array converts through its string form: the empty
    array as the empty string, a one-element array as that element's
    string form, a longer one as a text with commas, which is not a
    number.  A plain data object converts to NaN. *)
Fixpoint to_number (v : value) : number :=
  match v with
  | VUndefined => NaN
  | VNull => Fin 0
  | VBool b => if b then Fin 1 else Fin 0
  | VNum n => n
  | VStr s => string_to_number s
  | VArr [] => Fin 0
  | VArr [x] =>
      match x with
      | VUndefined | VNull => Fin 0
      | VBool _ => NaN
      | _ => to_number x
      end
  | VArr _ => NaN
  | VObj _ => NaN
  end.

(** *** Objects *)

Fixpoint index_props_from (i : nat) (l : list value) : gmap string value :=
  match l with
  | [] => ∅
  | x :: l' => <[pretty i := x]> (index_props_from (S i) l')
  end.

(** The own enumerable properties that [{...v}] copies. *)
Definition own_props (v : value) : gmap string value :=
  match v with
  | VObj m => m
  | VArr l => index_props_from 0 l
  | VStr s => index_props_from 0 (map (fun c => VStr (String c "")) (chars s))
  | _ => ∅
  end.

(** [raw.k] on a record of properties. *)
Definition get (m : gmap string value) (k : string) : value :=
  default VUndefined (m !! k).

End JS.

Import JS.

(** ** Regular expressions

    The patterns of the redaction chain are sequences of word-boundary
    assertions and character classes under a greedy quantifier.  Matching
    backtracks as the language prescribes: a quantified class first takes
    as many characters as it may, and gives them back one at a time when
    what follows does not match. *)

Module Regex.

Inductive atom :=
| WordBoundary
| Class (cls : ascii -> bool) (min : nat) (max : option nat).

Definition regex := list atom.

(** One character of a class. *)
Definition one (cls : ascii -> bool) : atom := Class cls 1 (Some 1%nat).
(** [cls{n}]. *)
Definition exactly (n : nat) (cls : ascii -> bool) : atom := Class cls n (Some n).
(** [cls{n,}]; [cls+] is [at_least 1 cls]. *)
Definition at_least (n : nat) (cls : ascii -> bool) : atom := Class cls n None.

Definition is_word_opt (c : option ascii) : bool :=
  match c with
  | Some x => is_word x
  | None => false
  end.

(** [\b] holds between [prev] and the head of [s] when exactly one of the
    two is a word character; the ends of the text count as non-word. *)
Definition at_boundary (prev : option ascii) (s : list ascii) : bool :=
  xorb (is_word_opt prev) (is_word_opt (head s)).

Definition may_take (max : option nat) : bool :=
  match max with
  | Some O => false
  | _ => true
  end.

Definition one_less (max : option nat) : option nat :=
  match max with
  | Some n => Some (Nat.pred n)
  | None => None
  end.

(** A quantified class followed by the continuation [k]; the result is the
    number of characters the whole match takes. *)
Fixpoint match_class (cls : ascii -> bool)
    (k : option ascii -> list ascii -> option nat)
    (min : nat) (max : option nat) (prev : option ascii) (s : list ascii)
  : option nat :=
  let stop := match min with O => k prev s | S _ => None end in
  match s with
  | c :: s' =>
      if cls c && may_take max then
        match match_class cls k (Nat.pred min) (one_less max) (Some c) s' with
        | Some n => Some (S n)
        | None => stop
        end
      else stop
  | [] => stop
  end.

(** The length of the match of [re] that starts at the head of [s], with
    [prev] the character before it. *)
Fixpoint match_at (re : regex) (prev : option ascii) (s : list ascii)
  : option nat :=
  match re with
  | [] => Some O
  | WordBoundary :: re' =>
      if at_boundary prev s then match_at re' prev s else None
  | Class cls min max :: re' =>
      match_class cls (match_at re') min max prev s
  end.

(** [s.replace(re, by)] for a pattern with the [g] flag and a replacement
    without [$]: the text is scanned from the left; a match is replaced
    and the scan resumes after it; [skip] counts the characters of the
    current match still to be passed over. *)
Fixpoint replace_from (re : regex) (by_ : list ascii) (skip : nat)
    (prev : option ascii) (s : list ascii) : list ascii :=
  match s with
  | [] =>
      match skip, match_at re prev [] with
      | O, Some _ => by_
      | _, _ => []
      end
  | c :: s' =>
      match skip with
      | S n => replace_from re by_ n (Some c) s'
      | O =>
          match match_at re prev s with
          | Some (S n) => by_ ++ replace_from re by_ n (Some c) s'
          | Some O => by_ ++ c :: replace_from re by_ O (Some c) s'
          | None => c :: replace_from re by_ O (Some c) s'
          end
      end
  end.

Definition replace_all (re : regex) (by_ : list ascii) (s : list ascii)
  : list ascii :=
  replace_from re by_ O None s.

End Regex.

Import Regex.

(** ** server/support-plugin.ts *)

Inductive CaseStatus := pending | in_progress | done | blocked.

Definition DEFAULT_REPORT : gmap string value :=
  <["credit_recommendation" := VNull]>
  (<["refund_recommendation" := VNull]>
  (<["draft_response" := VStr ""]>
  (<["past_interactions_summary" := VStr ""]>
  (<["order_details_summary" := VStr ""]>
  (<["decision_confidence" := VStr "medium"]>
  (<["escalation_flag" := VBool false]> ∅)))))).

Definition FIRST_NAMES : list string :=
  ["Alex"; "Sam"; "Jordan"; "Taylor"; "Morgan";
   "Casey"; "Riley"; "Avery"; "Cameron"; "Quinn"].

Definition LAST_NAMES : list string :=
  ["Parker"; "Hayes"; "Brooks"; "Reed"; "Foster";
   "Bailey"; "Carter"; "Gray"; "Miller"; "Price"].

(** [hash = (hash * 31 + userId.charCodeAt(i)) >>> 0] over the characters. *)
Definition name_hash (userId : string) : Z :=
  fold_left (fun hash c => (hash * 31 + Z.of_N (code c)) mod 2 ^ 32)
            (chars userId) 0.

(** A user id is a string, or [None] for null and undefined. *)
Definition fakeDisplayName (userId : option string) : option string :=
  match userId with
  | None => None
  | Some u =>
      if String.eqb u "" then None
      else
        let hash := name_hash u in
        let first := nth (Z.to_nat (hash mod 10)) FIRST_NAMES "" in
        let last := nth (Z.to_nat ((hash / 10) mod 10)) LAST_NAMES "" in
        Some (first +:+ " " +:+ last)
  end.

(** What a block of code does: return, throw, or run to its end. *)
Inductive completion (A : Type) :=
| Return (a : A)
| Throw
| Normal.
Arguments Return {A} a.
Arguments Throw {A}.
Arguments Normal {A}.

Section Parsing.

(** [JSON.parse]: the value a text denotes, or [None] when it throws. *)
Variable JSON_parse : string -> option value.

(** The body of the [try] block. *)
Definition parseAgentReport_try (v : value) : completion (gmap string value) :=
  match v with
  | VStr s =>
      match JSON_parse s with
      | Some parsed => Return (own_props parsed ∪ DEFAULT_REPORT)
      | None => Throw
      end
  | _ =>
      if truthy v && String.eqb (typeof v) "object"
      then Return (own_props v ∪ DEFAULT_REPORT)
      else Normal
  end.

(** [try { ... } catch { }] followed by [return { ...DEFAULT_REPORT }]. *)
Definition parseAgentReport (v : value) : completion (gmap string value) :=
  match parseAgentReport_try v with
  | Return r => Return r
  | Throw | Normal => Return DEFAULT_REPORT
  end.

End Parsing.

(** [/\buser-\d+\b/gi] *)
Definition RE_USER_ID : regex :=
  [WordBoundary; one (ichar "u"); one (ichar "s"); one (ichar "e");
   one (ichar "r"); one (lit "-"); at_least 1 is_digit; WordBoundary].

(** [/\b[0-9a-f]{8}-[0-9a-f]{4}-[1-5][0-9a-f]{3}-[89ab][0-9a-f]{3}-[0-9a-f]{12}\b/gi] *)
Definition RE_UUID : regex :=
  [WordBoundary; exactly 8 is_hex; one (lit "-"); exactly 4 is_hex;
   one (lit "-"); one (in_range 49 53); exactly 3 is_hex; one (lit "-");
   one (fun c => in_range 56 57 c || in_range 97 98 c || in_range 65 66 c);
   exactly 3 is_hex; one (lit "-"); exactly 12 is_hex; WordBoundary].

(** [/\b[0-9a-f]{32}\b/gi] *)
Definition RE_HEX32 : regex :=
  [WordBoundary; exactly 32 is_hex; WordBoundary].

(** [/\border\s+[0-9a-f]{8,}\b/gi] *)
Definition RE_ORDER_HEX : regex :=
  [WordBoundary; one (ichar "o"); one (ichar "r"); one (ichar "d");
   one (ichar "e"); one (ichar "r"); at_least 1 is_space;
   at_least 8 is_hex; WordBoundary].

(** [/\s{2,}/g] *)
Definition RE_SPACES : regex := [at_least 2 is_space].

Definition sanitize_chars (displayName : list ascii) (base : list ascii)
  : list ascii :=
  trim_chars
    (replace_all RE_SPACES (chars " ")
    (replace_all RE_ORDER_HEX (chars "order")
    (replace_all RE_HEX32 (chars "your order")
    (replace_all RE_UUID (chars "your order")
    (replace_all RE_USER_ID displayName base))))).

Definition sanitizeDraftResponse (draft : value) (userId : option string)
  : string :=
  let base := match draft with VStr s => s | _ => "" end in
  let displayName := default "there" (fakeDisplayName userId) in
  str (sanitize_chars (chars displayName) (chars base)).

(** The result is a number, or [None] for null. *)
Definition toNullableNumber (v : value) : option number :=
  match v with
  | VNum n => if is_finite n then Some n else None
  | VStr s =>
      let parsed := string_to_number s in
      if is_finite parsed then Some parsed else None
  | _ => None
  end.

(** [a ?? b] on the results of [toNullableNumber]. *)
Definition or_else {A : Type} (a b : option A) : option A :=
  match a with
  | Some _ => a
  | None => b
  end.

Definition nullable (n : option number) : value :=
  match n with
  | Some x => VNum x
  | None => VNull
  end.

Definition normalizeRecommendation (v : value) : value :=
  if negb (truthy v) || negb (String.eqb (typeof v) "object") then VNull
  else
    let raw := own_props v in
    let amount :=
      or_else (toNullableNumber (get raw "amount_usd"))
     (or_else (toNullableNumber (get raw "amount"))
     (or_else (toNullableNumber (get raw "credit_amount"))
              (toNullableNumber (get raw "refund_amount")))) in
    let reasonCandidates :=
      [get raw "reason"; get raw "credit_reason"; get raw "refund_reason"] in
    let reason :=
      default VUndefined (List.find is_nonblank_string reasonCandidates) in
    VObj (<["reason" := coalesce reason (coalesce (get raw "reason") (VStr ""))]>
         (<["amount_usd" := nullable amount]> raw)).

Definition normalizeReportForUi (rawReport : gmap string value)
    (userId : option string) : gmap string value :=
  <["draft_response" :=
      VStr (sanitizeDraftResponse (get rawReport "draft_response") userId)]>
  (<["refund_recommendation" :=
      normalizeRecommendation (get rawReport "refund_recommendation")]>
  (<["credit_recommendation" :=
      normalizeRecommendation (get rawReport "credit_recommendation")]>
   rawReport)).

Record StatusParams := {
  p_status : value;
  p_hasRefund : value;
  p_hasCredit : value;
  p_actionCount : value;
  p_replyCount : value;
  p_regenCount : value
}.

Definition deriveCaseStatus (params : StatusParams) : CaseStatus :=
  let status :=
    match p_status params with
    | VStr s => Some s
    | _ => None
    end in
  let status_is (name : string) :=
    match status with
    | Some s => String.eqb s name
    | None => false
    end in
  if status_is "blocked" then blocked
  else if is_true (p_hasRefund params) || is_true (p_hasCredit params)
          || status_is "done" then done
  else
    let activityCount :=
      add (add (to_number (coalesce (p_actionCount params) (VNum (Fin 0))))
               (to_number (coalesce (p_replyCount params) (VNum (Fin 0)))))
          (to_number (coalesce (p_regenCount params) (VNum (Fin 0)))) in
    if gt_zero activityCount || status_is "in_progress"
    then in_progress else pending.

Record ActionParams := {
  caseStatus : CaseStatus;
  hasReply : bool;
  hasRefund : bool;
  hasCredit : bool
}.

Definition status_eqb (a b : CaseStatus) : bool :=
  match a, b with
  | pending, pending | in_progress, in_progress
  | done, done | blocked, blocked => true
  | _, _ => false
  end.

Definition deriveNextAction (params : ActionParams) : string :=
  if status_eqb (caseStatus params) pending then "review_report"
  else if status_eqb (caseStatus params) blocked then "investigate_blocker"
  else if status_eqb (caseStatus params) done then
    (if hasReply params then "monitor" else "send_customer_reply")
  else if hasReply params && negb (hasRefund params) && negb (hasCredit params)
  then "apply_resolution_or_regenerate"
  else if negb (hasReply params) && (hasRefund params || hasCredit params)
  then "send_customer_reply"
  else "continue_investigation".

(** ** The text of a model response and of a support request *)

(** What a function call does: it returns a value, or throws an [Error]
    with a message. *)
Inductive result (A : Type) :=
| Returns (a : A)
| Throws (message : string).
Arguments Returns {A} a.
Arguments Throws {A} message.

(** [v && typeof v === "object"]. *)
Definition is_object (v : value) : bool :=
  truthy v && String.eqb (typeof v) "object".

(** [v.k] for a property name [k] that is no index, not [length] and not
    the name of a property of a prototype. *)
Definition member (v : value) (k : string) : value :=
  match v with
  | VObj m => get m k
  | _ => VUndefined
  end.

(** A [for ... of] loop whose body returns from the function, with
    [Some] result, or goes on to the next element. *)
Fixpoint for_of {A B : Type} (body : A -> option B) (l : list A) : option B :=
  match l with
  | [] => None
  | x :: l' =>
      match body x with
      | Some b => Some b
      | None => for_of body l'
      end
  end.

(** The body of the inner loop of [extractResponseText]. *)
Definition item_text (item : value) : option string :=
  if negb (is_object item) then None
  else
    match member item "text" with
    | VStr text => if negb (String.eqb (trim text) "") then Some text else None
    | _ => None
    end.

(** The body of the outer loop. *)
Definition message_text (message : value) : option string :=
  if negb (is_object message) then None
  else
    match member message "content" with
    | VArr content => for_of item_text content
    | _ => None
    end.

Definition extractResponseText (response : value) : result string :=
  if negb (truthy response) || negb (String.eqb (typeof response) "object")
  then Throws "Invalid serving response"
  else
    match member response "output" with
    | VArr output =>
        match for_of message_text output with
        | Some text => Returns text
        | None => Throws "Serving response text not found"
        end
    | _ => Throws "Serving response missing output"
    end.

(** [String.prototype.toLowerCase] on code units below 256: the letters A
    to Z, and the capital letters of Latin-1 other than the multiplication
    sign, are 32 below their small letters. *)
Definition toLowerCase_char (c : ascii) : ascii :=
  if is_upper c || in_range 192 214 c || in_range 216 222 c
  then ascii_of_N (code c + 32)
  else c.

Definition toLowerCase (s : string) : string :=
  str (map toLowerCase_char (chars s)).

Fixpoint starts_with (needle s : list ascii) : bool :=
  match needle, s with
  | [], _ => true
  | a :: needle', b :: s' => Ascii.eqb a b && starts_with needle' s'
  | _ :: _, [] => false
  end.

Fixpoint includes_chars (s needle : list ascii) : bool :=
  starts_with needle s
  || match s with
     | [] => false
     | _ :: s' => includes_chars s' needle
     end.

(** [s.includes(needle)]. *)
Definition includes (s needle : string) : bool :=
  includes_chars (chars s) (chars needle).

(** [isPermissionDeniedError] of an [Error] with the given message. *)
Definition isPermissionDeniedError (error : string) : bool :=
  let message := toLowerCase error in
  includes message "permission denied" || includes message "must be owner".

Definition tableCandidates : list string :=
  ["support.support_agent_reports_sync";
   "support.raw_support_requests_sync";
   "support.raw_support_requests"].

Section RequestText.

(** The query for the newest request text of the request in one table:
    [result.rows[0]?.request_text], or the [Error] the query fails with. *)
Variable query : string -> result value.

(** The loop over the tables that remain. *)
Fixpoint fetch_from (tables : list string) : result (option string) :=
  match tables with
  | [] => Returns None
  | tableName :: rest =>
      match query tableName with
      | Returns (VStr value) =>
          if negb (String.eqb (trim value) "") then Returns (Some value)
          else fetch_from rest
      | Returns _ => fetch_from rest
      | Throws error =>
          let message := toLowerCase error in
          if includes message "does not exist"
             || includes message "undefined table"
             || includes message "undefined column"
             || includes message "permission denied"
          then fetch_from rest
          else Throws error
      end
  end.

Definition fetchSupportRequestText : result (option string) :=
  fetch_from tableCandidates.

End RequestText.

(** ** The case detail route: case state and timeline *)

Section CaseDetail.

(** The stored timestamps, and [new Date(String(t)).getTime()], the
    instant the timeline comparator reads from one, in milliseconds. *)
Variable timestamp : Type.
Variable getTime : timestamp -> Z.

Record ReportRow := {
  ts : timestamp;
  report_source : value
}.

Record RegenerationRow := {
  rr_created_at : timestamp;
  rr_actor : value;
  rr_operator_context : value
}.

Record ReplyRow := {
  rp_created_at : timestamp;
  rp_sent_by : value;
  rp_message_text : value
}.

Record ActionRow := {
  ac_action_type : value;
  ac_created_at : timestamp;
  ac_actor : value;
  ac_amount_usd : value;
  ac_status : value
}.

Record RatingRow := {
  rt_created_at : timestamp;
  rt_actor : value;
  rt_rating : value;
  rt_reason_code : value
}.

Record StatusRow := {
  sr_status : value;
  sr_last_action : value;
  sr_updated_at : timestamp
}.

Record CaseEvent := {
  event_type : value;
  event_at : timestamp;
  actor : value;
  details : gmap string value
}.

(** [a.action_type === name]. *)
Definition action_is (name : string) (a : ActionRow) : bool :=
  match ac_action_type a with
  | VStr s => String.eqb s name
  | _ => false
  end.

Record CaseState := {
  case_status : CaseStatus;
  next_action : string;
  has_reply : bool;
  has_refund : bool;
  has_credit : bool;
  action_count : nat;
  reply_count : nat;
  regen_count : nat
}.

(** The [case_state] of the response to [GET /requests/:id]. *)
Definition caseState (actions : list ActionRow) (replies : list ReplyRow)
    (regenerations : list RegenerationRow) (statusRow : option StatusRow)
  : CaseState :=
  let hasRefund := existsb (action_is "apply_refund") actions in
  let hasCredit := existsb (action_is "apply_credit") actions in
  let hasReply :=
    (0 <? length replies)%nat || existsb (action_is "send_reply") actions in
  let status :=
    match statusRow with
    | Some r => sr_status r
    | None => VUndefined
    end in
  let caseStatus :=
    deriveCaseStatus
      {| p_status := status;
         p_hasRefund := VBool hasRefund;
         p_hasCredit := VBool hasCredit;
         p_actionCount := VNum (num_of_Z (Z.of_nat (length actions)));
         p_replyCount := VNum (num_of_Z (Z.of_nat (length replies)));
         p_regenCount := VNum (num_of_Z (Z.of_nat (length regenerations))) |} in
  {| case_status := caseStatus;
     next_action :=
       deriveNextAction
         {| caseStatus := caseStatus; hasReply := hasReply;
            hasRefund := hasRefund; hasCredit := hasCredit |};
     has_reply := hasReply;
     has_refund := hasRefund;
     has_credit := hasCredit;
     action_count := length actions;
     reply_count := length replies;
     regen_count := length regenerations |}.

(** The events before sorting: the report, then the regenerations, the
    replies, the operator actions and the ratings, each in row order. *)
Definition timeline_events (row : ReportRow)
    (regenerations : list RegenerationRow) (replies : list ReplyRow)
    (actions : list ActionRow) (ratingsRows : list RatingRow)
  : list CaseEvent :=
  {| event_type := VStr "report_generated";
     event_at := ts row;
     actor := VNull;
     details := <["source" := report_source row]> ∅ |}
  :: map (fun rr =>
       {| event_type := VStr "report_regenerated";
          event_at := rr_created_at rr;
          actor := coalesce (rr_actor rr) VNull;
          details :=
            <["operator_context" := coalesce (rr_operator_context rr) VNull]> ∅ |})
       regenerations
  ++ map (fun rp =>
       {| event_type := VStr "reply_sent";
          event_at := rp_created_at rp;
          actor := coalesce (rp_sent_by rp) VNull;
          details :=
            <["message_text" := coalesce (rp_message_text rp) (VStr "")]> ∅ |})
       replies
  ++ map (fun ac =>
       {| event_type := ac_action_type ac;
          event_at := ac_created_at ac;
          actor := coalesce (ac_actor ac) VNull;
          details :=
            <["amount_usd" := coalesce (ac_amount_usd ac) VNull]>
            (<["status" := coalesce (ac_status ac) VNull]> ∅) |})
       actions
  ++ map (fun rt =>
       {| event_type := VStr "response_rated";
          event_at := rt_created_at rt;
          actor := coalesce (rt_actor rt) VNull;
          details :=
            <["rating" := rt_rating rt]>
            (<["reason_code" := coalesce (rt_reason_code rt) VNull]> ∅) |})
       ratingsRows.

(** [(a, b) => new Date(String(b.event_at)).getTime()
               - new Date(String(a.event_at)).getTime()] *)
Definition compare_events (a b : CaseEvent) : Z :=
  getTime (event_at b) - getTime (event_at a).

(** [Array.prototype.sort] with a comparator: a stable sort; [x] goes
    before the first element it does not compare greater than. *)
Fixpoint sort_insert {A : Type} (cmp : A -> A -> Z) (x : A) (l : list A)
  : list A :=
  match l with
  | [] => [x]
  | y :: l' => if (cmp x y <=? 0)%Z then x :: l else y :: sort_insert cmp x l'
  end.

Definition array_sort {A : Type} (cmp : A -> A -> Z) (l : list A) : list A :=
  fold_right (sort_insert cmp) [] l.

Definition timeline (row : ReportRow)
    (regenerations : list RegenerationRow) (replies : list ReplyRow)
    (actions : list ActionRow) (ratingsRows : list RatingRow)
  : list CaseEvent :=
  array_sort compare_events
    (timeline_events row regenerations replies actions ratingsRows).

End CaseDetail.

Arguments ts {timestamp}.
Arguments event_at {timestamp}.
Arguments event_type {timestamp}.
Arguments caseState {timestamp}.

(** *** Timestamps as the database driver gives them

    The timestamps are TIMESTAMPTZ columns (the queries order by them and
    take their maximum), which node-postgres gives as [Date] values.  A
    [Date] is modelled by its time value, the milliseconds since the
    epoch.  [String(d)] prints a date to the second, so
    [new Date(String(d)).getTime()] is the time value of [d] without its
    milliseconds. *)
Definition Date : Type := Z.

Definition getTime_of_String (d : Date) : Z := 1000 * (d / 1000).

(** ** The routes and the operator tables

    The tables the routes write hold, for every support request, the
    operator actions, the replies, the regenerated reports, one status
    row at most ([support_request_id] is the primary key of
    [request_status]) and one rating at most ([response_ratings] is
    unique on it).  A table with several rows for a request is a list of
    rows with the id of their request, newest first, which is the order
    [ORDER BY created_at DESC] returns them in.  The handlers are given
    the time of each statement they run; they are modelled with the pool
    ready and the statements succeeding, but for the one failure a
    handler catches itself.  A request body is a record of the fields of
    its interface, each a string or missing. *)

Section Routes.

Variable timestamp : Type.
Variable JSON_parse : string -> option value.

(** [statusRow.rows[0]?.last_action ?? actions.rows[0]?.action_type ?? null] *)
Definition last_action_type (actions : list (ActionRow timestamp))
    (statusRow : option (StatusRow timestamp)) : value :=
  coalesce
    match statusRow with
    | Some r => sr_last_action timestamp r
    | None => VUndefined
    end
    (coalesce
       match actions with
       | a :: _ => ac_action_type timestamp a
       | [] => VUndefined
       end
       VNull).

(** [timeline[0]?.event_at ?? statusRow.rows[0]?.updated_at ?? row.ts] *)
Definition last_event_at (tl : list (CaseEvent timestamp))
    (statusRow : option (StatusRow timestamp)) (row : ReportRow timestamp)
  : timestamp :=
  match tl with
  | e :: _ => event_at e
  | [] =>
      match statusRow with
      | Some r => sr_updated_at timestamp r
      | None => ts row
      end
  end.

(** [ratingsRows[0] ?? null] *)
Definition latest_rating (ratingsRows : list (RatingRow timestamp))
  : option (RatingRow timestamp) :=
  head ratingsRows.

(** A row of the query of [GET /requests]: the columns the case state of
    an item is made from. *)
Record RequestRow := {
  r_ts : timestamp;
  r_report_source : value;
  r_action_count : value;
  r_reply_count : value;
  r_regen_count : value;
  r_has_refund : value;
  r_has_credit : value;
  r_has_reply : value;
  r_last_action_type : value;
  r_status : value;
  r_last_action : value;
  r_last_event_at : option timestamp
}.

Record ItemCaseState := {
  item_case_status : CaseStatus;
  item_next_action : string;
  item_has_reply : bool;
  item_has_refund : bool;
  item_has_credit : bool;
  item_action_count : number;
  item_reply_count : number;
  item_regen_count : number;
  item_last_action_type : value;
  item_last_event_at : timestamp;
  item_latest_report_source : value
}.

(** The [case_state] of an item of the response to [GET /requests]. *)
Definition itemCaseState (r : RequestRow) : ItemCaseState :=
  let caseStatus :=
    deriveCaseStatus
      {| p_status := r_status r;
         p_hasRefund := r_has_refund r;
         p_hasCredit := r_has_credit r;
         p_actionCount := r_action_count r;
         p_replyCount := r_reply_count r;
         p_regenCount := r_regen_count r |} in
  let hasReply := is_true (r_has_reply r) in
  let hasRefund := is_true (r_has_refund r) in
  let hasCredit := is_true (r_has_credit r) in
  {| item_case_status := caseStatus;
     item_next_action :=
       deriveNextAction
         {| caseStatus := caseStatus; hasReply := hasReply;
            hasRefund := hasRefund; hasCredit := hasCredit |};
     item_has_reply := hasReply;
     item_has_refund := hasRefund;
     item_has_credit := hasCredit;
     item_action_count := to_number (coalesce (r_action_count r) (VNum (Fin 0)));
     item_reply_count := to_number (coalesce (r_reply_count r) (VNum (Fin 0)));
     item_regen_count := to_number (coalesce (r_regen_count r) (VNum (Fin 0)));
     item_last_action_type :=
       coalesce (r_last_action_type r) (coalesce (r_last_action r) VNull);
     item_last_event_at := default (r_ts r) (r_last_event_at r);
     item_latest_report_source := coalesce (r_report_source r) (VStr "sync") |}.

(** A regenerated report: the columns the timeline reads, and the report
    stored with them. *)
Record RegeneratedReport := {
  rg_row : RegenerationRow timestamp;
  rg_agent_response : gmap string value
}.

Record Database := {
  operator_actions : list (string * ActionRow timestamp);
  support_replies : list (string * ReplyRow timestamp);
  operator_regenerated_reports : list (string * RegeneratedReport);
  request_status : gmap string (StatusRow timestamp);
  response_ratings : gmap string (RatingRow timestamp)
}.

(** [WHERE support_request_id = $1 ORDER BY created_at DESC] *)
Definition rows_of {A : Type} (sid : string) (table : list (string * A))
  : list A :=
  map snd (List.filter (fun r => String.eqb (fst r) sid) table).

(** The [case_state] of the response to [GET /requests/:id], read from
    the tables. *)
Definition caseStateOf (sid : string) (db : Database) : CaseState :=
  caseState (rows_of sid (operator_actions db))
            (rows_of sid (support_replies db))
            (map rg_row (rows_of sid (operator_regenerated_reports db)))
            (request_status db !! sid).

Record ActionBody := {
  ab_support_request_id : option string;
  ab_order_id : option string;
  ab_user_id : option string;
  ab_action_type : option string;
  ab_amount_usd : value;
  ab_actor : option string
}.

Record ReplyBody := {
  rb_support_request_id : option string;
  rb_order_id : option string;
  rb_user_id : option string;
  rb_message_text : option string;
  rb_sent_by : option string
}.

Record RegenerateBody := {
  gb_support_request_id : option string;
  gb_user_id : option string;
  gb_order_id : option string;
  gb_operator_context : option string;
  gb_actor : option string
}.

Record RatingBody := {
  tb_support_request_id : option string;
  tb_order_id : option string;
  tb_user_id : option string;
  tb_rating : option string;
  tb_reason_code : option string;
  tb_actor : option string
}.

(** [!body?.field] for a field that is a string or missing. *)
Definition missing {B : Type} (body : option B) (field : B -> option string)
  : bool :=
  match body with
  | Some b =>
      match field b with
      | Some s => String.eqb s ""
      | None => true
      end
  | None => true
  end.

(** [field ?? null] *)
Definition or_null (field : option string) : value :=
  match field with
  | Some s => VStr s
  | None => VNull
  end.

(** [INSERT INTO support.request_status ... ON CONFLICT
    (support_request_id) DO UPDATE SET status, updated_at, last_action] *)
Definition upsert_status (sid status last_action : string) (now : timestamp)
    (db : Database) : Database :=
  {| operator_actions := operator_actions db;
     support_replies := support_replies db;
     operator_regenerated_reports := operator_regenerated_reports db;
     request_status :=
       <[sid := {| sr_status := VStr status;
                   sr_last_action := VStr last_action;
                   sr_updated_at := now |}]> (request_status db);
     response_ratings := response_ratings db |}.

Definition insert_action (sid : string) (a : ActionRow timestamp)
    (db : Database) : Database :=
  {| operator_actions := (sid, a) :: operator_actions db;
     support_replies := support_replies db;
     operator_regenerated_reports := operator_regenerated_reports db;
     request_status := request_status db;
     response_ratings := response_ratings db |}.

Definition insert_reply (sid : string) (rp : ReplyRow timestamp)
    (db : Database) : Database :=
  {| operator_actions := operator_actions db;
     support_replies := (sid, rp) :: support_replies db;
     operator_regenerated_reports := operator_regenerated_reports db;
     request_status := request_status db;
     response_ratings := response_ratings db |}.

Definition insert_regenerated (sid : string) (rg : RegeneratedReport)
    (db : Database) : Database :=
  {| operator_actions := operator_actions db;
     support_replies := support_replies db;
     operator_regenerated_reports := (sid, rg) :: operator_regenerated_reports db;
     request_status := request_status db;
     response_ratings := response_ratings db |}.

(** [INSERT INTO support.response_ratings ... ON CONFLICT
    (support_request_id) DO UPDATE ...] *)
Definition upsert_rating (sid : string) (rt : RatingRow timestamp)
    (db : Database) : Database :=
  {| operator_actions := operator_actions db;
     support_replies := support_replies db;
     operator_regenerated_reports := operator_regenerated_reports db;
     request_status := request_status db;
     response_ratings := <[sid := rt]> (response_ratings db) |}.

(** [POST /actions]: the status of the response and the tables after
    it. *)
Definition postAction (t_action t_status : timestamp)
    (body : option ActionBody) (db : Database) : Z * Database :=
  if missing body ab_support_request_id
     || missing body ab_order_id
     || missing body ab_action_type
     || negb (String.eqb
                (typeof match body with
                        | Some b => ab_amount_usd b
                        | None => VUndefined
                        end) "number")
  then (400, db)
  else
    match body with
    | None => (400, db)
    | Some b =>
        let sid := default "" (ab_support_request_id b) in
        let action_type := default "" (ab_action_type b) in
        let db1 :=
          insert_action sid
            {| ac_action_type := VStr action_type;
               ac_created_at := t_action;
               ac_actor := or_null (ab_actor b);
               ac_amount_usd := ab_amount_usd b;
               ac_status := VStr "recorded" |} db in
        let nextStatus :=
          if String.eqb action_type "apply_refund"
             || String.eqb action_type "apply_credit"
          then "done" else "in_progress" in
        (201, upsert_status sid nextStatus action_type t_status db1)
    end.

(** [POST /replies] *)
Definition postReply (t_reply t_action t_status : timestamp)
    (body : option ReplyBody) (db : Database) : Z * Database :=
  if missing body rb_support_request_id
     || missing body rb_order_id
     || missing body rb_message_text
  then (400, db)
  else
    match body with
    | None => (400, db)
    | Some b =>
        let sid := default "" (rb_support_request_id b) in
        let db1 :=
          insert_reply sid
            {| rp_created_at := t_reply;
               rp_sent_by := or_null (rb_sent_by b);
               rp_message_text := or_null (rb_message_text b) |} db in
        let db2 :=
          insert_action sid
            {| ac_action_type := VStr "send_reply";
               ac_created_at := t_action;
               ac_actor := or_null (rb_sent_by b);
               ac_amount_usd := VNull;
               ac_status := VStr "recorded" |} db1 in
        (201, upsert_status sid "in_progress" "send_reply" t_status db2)
    end.

(** [POST /ratings]; [failure] is the error the insertion fails with, if
    it does. *)
Definition postRating (t_rating : timestamp) (failure : option string)
    (body : option RatingBody) (db : Database) : Z * Database :=
  if missing body tb_support_request_id
     || missing body tb_order_id
     || missing body tb_rating
  then (400, db)
  else
    match body with
    | None => (400, db)
    | Some b =>
        let rating := default "" (tb_rating b) in
        if negb (String.eqb rating "thumbs_up")
           && negb (String.eqb rating "thumbs_down")
        then (400, db)
        else
          match failure with
          | Some error =>
              if isPermissionDeniedError error then (403, db) else (500, db)
          | None =>
              (201,
               upsert_rating (default "" (tb_support_request_id b))
                 {| rt_created_at := t_rating;
                    rt_actor := or_null (tb_actor b);
                    rt_rating := VStr rating;
                    rt_reason_code := or_null (tb_reason_code b) |} db)
          end
    end.

(** [POST /regenerate]; [serving] is what the request to the serving
    endpoint does. *)
Definition postRegenerate (t_report t_status : timestamp)
    (serving : result value) (body : option RegenerateBody) (db : Database)
  : Z * Database :=
  if missing body gb_support_request_id || missing body gb_order_id
  then (400, db)
  else
    match body with
    | None => (400, db)
    | Some b =>
        match serving with
        | Throws message =>
            if includes (toLowerCase message) "do not have permission"
            then (403, db) else (500, db)
        | Returns servingResponse =>
            match extractResponseText servingResponse with
            | Throws _ => (500, db)
            | Returns responseText =>
                match parseAgentReport JSON_parse (VStr responseText) with
                | Return parsed =>
                    let normalized :=
                      normalizeReportForUi parsed (gb_user_id b) in
                    let sid := default "" (gb_support_request_id b) in
                    let db1 :=
                      insert_regenerated sid
                        {| rg_row :=
                             {| rr_created_at := t_report;
                                rr_actor := or_null (gb_actor b);
                                rr_operator_context :=
                                  or_null (gb_operator_context b) |};
                           rg_agent_response := normalized |} db in
                    (201,
                     upsert_status sid "in_progress" "regenerate_report"
                                   t_status db1)
                | Throw | Normal => (500, db)
                end
            end
        end
    end.

(** A request to one of the four routes that write. *)
Inductive request :=
| PostAction (t_action t_status : timestamp) (body : option ActionBody)
| PostReply (t_reply t_action t_status : timestamp) (body : option ReplyBody)
| PostRating (t_rating : timestamp) (failure : option string)
             (body : option RatingBody)
| PostRegenerate (t_report t_status : timestamp) (serving : result value)
                 (body : option RegenerateBody).

Definition serve (req : request) (db : Database) : Z * Database :=
  match req with
  | PostAction t1 t2 body => postAction t1 t2 body db
  | PostReply t1 t2 t3 body => postReply t1 t2 t3 body db
  | PostRating t failure body => postRating t failure body db
  | PostRegenerate t1 t2 serving body => postRegenerate t1 t2 serving body db
  end.

(** The tables after a sequence of requests. *)
Definition serve_all (requests : list request) (db : Database) : Database :=
  fold_left (fun db req => snd (serve req db)) requests db.

(** The operator tables with no row. *)
Definition no_rows : Database :=
  {| operator_actions := [];
     support_replies := [];
     operator_regenerated_reports := [];
     request_status := ∅;
     response_ratings := ∅ |}.

End Routes.

Arguments last_action_type {timestamp}.
Arguments last_event_at {timestamp}.
Arguments latest_rating {timestamp}.
Arguments itemCaseState {timestamp}.
Arguments caseStateOf {timestamp}.
Arguments r_ts {timestamp}.
Arguments r_report_source {timestamp}.
Arguments r_action_count {timestamp}.
Arguments r_reply_count {timestamp}.
Arguments r_regen_count {timestamp}.
Arguments r_has_refund {timestamp}.
Arguments r_has_credit {timestamp}.
Arguments r_has_reply {timestamp}.
Arguments r_last_action_type {timestamp}.
Arguments r_status {timestamp}.
Arguments r_last_action {timestamp}.
Arguments r_last_event_at {timestamp}.
Arguments item_case_status {timestamp}.
Arguments item_next_action {timestamp}.
Arguments item_has_reply {timestamp}.
Arguments item_has_refund {timestamp}.
Arguments item_has_credit {timestamp}.
Arguments item_action_count {timestamp}.
Arguments item_reply_count {timestamp}.
Arguments item_regen_count {timestamp}.
Arguments item_last_action_type {timestamp}.
Arguments item_last_event_at {timestamp}.
Arguments item_latest_report_source {timestamp}.
Arguments rg_row {timestamp}.
Arguments rg_agent_response {timestamp}.
Arguments operator_actions {timestamp}.
Arguments support_replies {timestamp}.
Arguments operator_regenerated_reports {timestamp}.
Arguments request_status {timestamp}.
Arguments response_ratings {timestamp}.
Arguments upsert_status {timestamp}.
Arguments insert_action {timestamp}.
Arguments insert_reply {timestamp}.
Arguments insert_regenerated {timestamp}.
Arguments upsert_rating {timestamp}.
Arguments postAction {timestamp}.
Arguments postReply {timestamp}.
Arguments postRating {timestamp}.
Arguments postRegenerate {timestamp}.
Arguments serve {timestamp}.
Arguments serve_all {timestamp}.
Arguments no_rows {timestamp}.
Arguments PostAction {timestamp}.
Arguments PostReply {timestamp}.
Arguments PostRating {timestamp}.
Arguments PostRegenerate {timestamp}.

(** ** server/lib/lakebase.ts: the password callback

    The callback runs on one event loop: a call runs without interruption
    up to the point where it returns its promise, and the continuation of
    the refresh runs when the credential request settles.  The state is
    the two variables the closure captures, the number of credential
    requests issued so far, and the refresh promises settled so far; a
    refresh promise is named by the ordinal of its credential request. *)

Module TokenCacheModel.

Definition CACHE_BUFFER_MS : Z := 2 * 60 * 1000.

Record TokenCache := {
  token : string;
  expiresAt : Z
}.

Inductive settlement :=
| Fulfilled (tok : string)
| Rejected (reason : string).

Record state := {
  cached : option TokenCache;
  refreshPromise : option nat;
  fetchCalls : nat;
  settled : gmap nat settlement
}.

Definition initial : state :=
  {| cached := None; refreshPromise := None; fetchCalls := 0;
     settled := ∅ |}.

(** What a call returns: the cached token, or the refresh promise. *)
Inductive answer :=
| Ready (tok : string)
| Awaits (promise : nat).

Definition fresh (now : Z) (st : state) : option string :=
  match cached st with
  | Some c =>
      if (now <? expiresAt c - CACHE_BUFFER_MS)%Z then Some (token c) else None
  | None => None
  end.

(** One call of the callback at time [now]. *)
Definition getToken (now : Z) (st : state) : answer * state :=
  match fresh now st with
  | Some tok => (Ready tok, st)
  | None =>
      match refreshPromise st with
      | Some p => (Awaits p, st)
      | None =>
          let p := fetchCalls st in
          (Awaits p,
           {| cached := cached st;
              refreshPromise := Some p;
              fetchCalls := S (fetchCalls st);
              settled := settled st |})
      end
  end.

(** The credential request of the refresh in flight settles, with a cache
    entry or with an error: the continuation stores the entry, clears
    [refreshPromise] and settles the refresh promise. *)
Definition settle (result : TokenCache + string) (st : state) : state :=
  match refreshPromise st with
  | None => st
  | Some p =>
      {| cached :=
           match result with
           | inl entry => Some entry
           | inr _ => cached st
           end;
         refreshPromise := None;
         fetchCalls := fetchCalls st;
         settled :=
           <[p := match result with
                  | inl entry => Fulfilled (token entry)
                  | inr e => Rejected e
                  end]> (settled st) |}
  end.

(** Calls made one after the other with no settlement in between. *)
Fixpoint getToken_all (nows : list Z) (st : state) : list answer * state :=
  match nows with
  | [] => ([], st)
  | now :: rest =>
      let '(a, st1) := getToken now st in
      let '(answers, st2) := getToken_all rest st1 in
      (a :: answers, st2)
  end.

(** What the caller holding [a] observes in state [st]; [None] while the
    promise is pending. *)
Definition outcome (st : state) (a : answer) : option settlement :=
  match a with
  | Ready tok => Some (Fulfilled tok)
  | Awaits p => settled st !! p
  end.

End TokenCacheModel.

(** *** The callback over time

    What happens to one callback: the pool asks it for the password at
    some time, or the credential request in flight settles.  A run
    applies the events in order and collects the answer of each call with
    the time of the call. *)

Module TokenCacheRuns.
Import TokenCacheModel.

Inductive event :=
| Call (now : Z)
| Settle (result : TokenCache + string).

Fixpoint run (events : list event) (st : state)
  : list (Z * answer) * state :=
  match events with
  | [] => ([], st)
  | Call now :: rest =>
      let '(a, st1) := getToken now st in
      let '(answers, st2) := run rest st1 in
      ((now, a) :: answers, st2)
  | Settle result :: rest => run rest (settle result st)
  end.

End TokenCacheRuns.

(** ** client/src/App.tsx: labels and pages

    The console shows the case state the server sends: the status and the
    next action as labels, and the list of requests in pages. *)

(** The string that stands for a case status. *)
Definition CaseStatus_string (status : CaseStatus) : string :=
  match status with
  | pending => "pending"
  | in_progress => "in_progress"
  | done => "done"
  | blocked => "blocked"
  end.

Module Client.

Definition PAGE_SIZE : Z := 50.

(** [status === name], for a status that may be undefined. *)
Definition status_is (status : option string) (name : string) : bool :=
  match status with
  | Some s => String.eqb s name
  | None => false
  end.

Definition statusLabel (status : option string) : string :=
  if status_is status "done" then "Done"
  else if status_is status "in_progress" then "In Progress"
  else if status_is status "blocked" then "Blocked"
  else "Pending".

Definition statusVariant (status : option string) : string :=
  if status_is status "done" then "default"
  else if status_is status "in_progress" then "secondary"
  else "outline".

Definition mapping : gmap string string :=
  <["review_report" := "Review report"]>
  (<["apply_resolution_or_regenerate" := "Apply resolution or re-gen"]>
  (<["send_customer_reply" := "Send customer reply"]>
  (<["monitor" := "Monitor case"]>
  (<["investigate_blocker" := "Investigate blocker"]>
  (<["continue_investigation" := "Continue investigation"]> ∅))))).

(** [mapping[nextAction ?? ""] ?? "Review report"], for an action whose
    name is not that of a property of [Object.prototype]. *)
Definition nextActionLabel (nextAction : option string) : string :=
  default "Review report" (mapping !! default "" nextAction).

(** [Math.max(1, Math.ceil(totalRequests / PAGE_SIZE))], for a count of
    requests. *)
Definition totalPages (totalRequests : Z) : Z :=
  Z.max 1 (Qceiling (inject_Z totalRequests / inject_Z PAGE_SIZE)).

(** The offset [refresh] asks the server for. *)
Definition offset (currentPage : Z) : Z := (currentPage - 1) * PAGE_SIZE.

(** The handlers of the buttons Previous and Next. *)
Definition previousPage (p : Z) : Z := Z.max 1 (p - 1).

Definition nextPage (totalRequests p : Z) : Z :=
  Z.min (totalPages totalRequests) (p + 1).

End Client.

(** * The vocabulary of the properties *)

Local Open Scope list_scope.

(** ** Case status and next action *)

(** The stored status is the given name. *)
Definition stored_status_is (name : string) (status : value) : bool :=
  match status with
  | VStr s => String.eqb s name
  | _ => false
  end.

(** The decision table of the design document, row by row. *)
Definition next_action_table (status : CaseStatus)
    (has_reply has_refund_or_credit : bool) : string :=
  match status, has_reply, has_refund_or_credit with
  | pending, _, _ => "review_report"
  | blocked, _, _ => "investigate_blocker"
  | done, true, _ => "monitor"
  | done, false, _ => "send_customer_reply"
  | in_progress, true, false => "apply_resolution_or_regenerate"
  | in_progress, false, true => "send_customer_reply"
  | in_progress, _, _ => "continue_investigation"
  end.

(** ** Recommendations and reports *)

(** [b] is what [f] gives at the first element of [l] where it gives
    anything. *)
Definition first_with {A B : Type} (f : A -> option B) (l : list A) (b : B)
  : Prop :=
  exists pre x post,
    l = (pre ++ x :: post)%list /\ Forall (fun y => f y = None) pre /\ f x = Some b.

(** What [f] gives at the first element where it gives anything. *)
Fixpoint first_some {A B : Type} (f : A -> option B) (l : list A) : option B :=
  match l with
  | [] => None
  | x :: l' => or_else (f x) (first_some f l')
  end.

(** [x] when it passes the test [p]. *)
Definition keep_if {A : Type} (p : A -> bool) (x : A) : option A :=
  if p x then Some x else None.

(** The candidate fields, in the order the code reads them. *)
Definition amount_candidates (raw : gmap string value) : list value :=
  [get raw "amount_usd"; get raw "amount";
   get raw "credit_amount"; get raw "refund_amount"].

Definition reason_candidates (raw : gmap string value) : list value :=
  [get raw "reason"; get raw "credit_reason"; get raw "refund_reason"].

(** The reason the design document describes: the first candidate that is
    a string other than the empty string. *)
Definition first_nonempty_string (l : list value) : option value :=
  List.find (fun v => match v with
                      | VStr s => negb (String.eqb s "")
                      | _ => false
                      end) l.

(** The fields of a report. *)
Definition recognized_fields : list string :=
  ["credit_recommendation"; "refund_recommendation"; "draft_response";
   "past_interactions_summary"; "order_details_summary";
   "decision_confidence"; "escalation_flag"].

(** ** Sorting *)

(** A comparator that orders by descending key. *)
Definition by_key_desc {A : Type} (key : A -> Z) (a b : A) : Z := key b - key a.

(** Every element has a key at least that of every later element. *)
Definition descending {A : Type} (key : A -> Z) (l : list A) : Prop :=
  StronglySorted (fun a b => key b <= key a) l.

(** ** Matches of a pattern *)

(** The character before the position that follows [pre], when [prev] is
    the character before [pre]. *)
Definition ctx_last (prev : option ascii) (pre : list ascii) : option ascii :=
  match last pre with
  | Some c => Some c
  | None => prev
  end.

(** [n] repetitions are allowed by the quantifier [{min,max}]. *)
Definition within (n min : nat) (max : option nat) : Prop :=
  (min <= n)%nat /\ match max with
                    | Some mx => (n <= mx)%nat
                    | None => True
                    end.

(** [Matches re prev m rest]: the pattern [re] can match the text [m] when
    [prev] is the character before it and [rest] the text after it. *)
Inductive Matches : regex -> option ascii -> list ascii -> list ascii -> Prop :=
| M_end prev rest : Matches [] prev [] rest
| M_boundary re prev m rest :
    at_boundary prev (m ++ rest) = true ->
    Matches re prev m rest ->
    Matches (WordBoundary :: re) prev m rest
| M_class cls min max re prev m1 m2 rest :
    forallb cls m1 = true ->
    within (length m1) min max ->
    Matches re (ctx_last prev m1) m2 rest ->
    Matches (Class cls min max :: re) prev (m1 ++ m2) rest.

(** A pattern with a class that must take a character matches no empty
    text. *)
Definition takes_a_char (re : regex) : bool :=
  existsb (fun a => match a with
                    | Class _ (S _) _ => true
                    | _ => false
                    end) re.

(** A pattern without assertions. *)
Definition all_classes (body : regex) : bool :=
  forallb (fun a => match a with
                    | Class _ _ _ => true
                    | WordBoundary => false
                    end) body.

(** The text [w] is what the classes of [body] match, one after the
    other. *)
Definition fits (body : regex) (w : list ascii) : Prop :=
  Matches body None w [].

(** A character that some class of the pattern accepts. *)
Definition accepted (re : regex) (c : ascii) : bool :=
  existsb (fun a => match a with
                    | Class cls _ _ => cls c
                    | WordBoundary => false
                    end) re.

(** The pattern matches somewhere in the text. *)
Definition matches_in (re : regex) (s : list ascii) : Prop :=
  exists pre suf, s = pre ++ suf /\ match_at re (last pre) suf <> None.

(** The same, as a test: [prev] is the character before [s]. *)
Fixpoint any_match (re : regex) (prev : option ascii) (s : list ascii) : bool :=
  match match_at re prev s with
  | Some _ => true
  | None =>
      match s with
      | [] => false
      | c :: s' => any_match re (Some c) s'
      end
  end.

(** [Rw re by_ prev s o]: scanning [s] from the left, with [prev] before it,
    keeps the characters at which no match starts and puts [by_] in the
    place of each match; [o] is the result. *)
Inductive Rw (re : regex) (by_ : list ascii)
  : option ascii -> list ascii -> list ascii -> Prop :=
| Rw_nil prev : Rw re by_ prev [] []
| Rw_keep prev c s o :
    match_at re prev (c :: s) = None ->
    Rw re by_ (Some c) s o ->
    Rw re by_ prev (c :: s) (c :: o)
| Rw_repl prev m rest o :
    m <> [] ->
    match_at re prev (m ++ rest) = Some (length m) ->
    Rw re by_ (ctx_last prev m) rest o ->
    Rw re by_ prev (m ++ rest) (by_ ++ o).

(** The text [s], with [prev] before it, holds a word that satisfies [P]
    and has no word character right before it or right after it. *)
Definition delimited (P : list ascii -> Prop) (prev : option ascii)
    (s : list ascii) : Prop :=
  exists pre w rest,
    s = pre ++ w ++ rest /\ P w
    /\ is_word_opt (ctx_last prev pre) = false
    /\ is_word_opt (head rest) = false.

(** A text with no delimited word of the body. *)
Definition free_of (body : regex) (s : list ascii) : Prop :=
  ~ delimited (fits body) None s.

(** [sub] is a stretch of [s]. *)
Definition contains (sub s : list ascii) : Prop :=
  exists l r, s = l ++ sub ++ r.

(** ** The patterns of the redaction chain *)

(** What stands between the two word boundaries of each pattern. *)
Definition USER_ID_body : regex :=
  [one (ichar "u"); one (ichar "s"); one (ichar "e"); one (ichar "r");
   one (lit "-"); at_least 1 is_digit].

Definition UUID_body : regex :=
  [exactly 8 is_hex; one (lit "-"); exactly 4 is_hex;
   one (lit "-"); one (in_range 49 53); exactly 3 is_hex; one (lit "-");
   one (fun c => in_range 56 57 c || in_range 97 98 c || in_range 65 66 c);
   exactly 3 is_hex; one (lit "-"); exactly 12 is_hex].

Definition HEX32_body : regex := [exactly 32 is_hex].

Definition ORDER_HEX_body : regex :=
  [one (ichar "o"); one (ichar "r"); one (ichar "d"); one (ichar "e");
   one (ichar "r"); at_least 1 is_space; at_least 8 is_hex].

(** The shape of a UUID: groups of 8, 4, 4, 4 and 12 hex digits with
    hyphens between them. *)
Definition uuid_shaped (s : list ascii) : bool :=
  match match_at [exactly 8 is_hex; one (lit "-"); exactly 4 is_hex;
                  one (lit "-"); exactly 4 is_hex; one (lit "-");
                  exactly 4 is_hex; one (lit "-"); exactly 12 is_hex]
                 None s with
  | Some n => (n =? length s)%nat
  | None => false
  end.

(** No character of [by_] that follows a character other than a word
    character can start a word. *)
Fixpoint inner_starts_ok (start : ascii -> bool) (by_ : list ascii) : bool :=
  match by_ with
  | a :: (b :: _) as tl =>
      (is_word a || negb (start b)) && inner_starts_ok start tl
  | _ => true
  end.

(** What the first pass needs of a display name. *)
Definition name_ok (by_ : list ascii) : bool :=
  is_word_opt (head by_) && is_word_opt (last by_)
  && existsb (fun c => negb (accepted USER_ID_body c)) by_
  && forallb (fun c => negb (is_digit c)) by_
  && inner_starts_ok (ichar "u") by_.

(** The character is there and is white space. *)
Definition is_space_opt (c : option ascii) : bool :=
  match c with
  | Some x => is_space x
  | None => false
  end.

(** No two white-space characters stand side by side. *)
Fixpoint no_space_pair (s : list ascii) : bool :=
  match s with
  | a :: (b :: _) as tl => negb (is_space a && is_space b) && no_space_pair tl
  | _ => true
  end.

(** The length of the longest prefix of characters of the class. *)
Fixpoint run_length (cls : ascii -> bool) (s : list ascii) : nat :=
  match s with
  | c :: s' => if cls c then S (run_length cls s') else O
  | [] => O
  end.

(** The replacements of the second to fifth pass. *)
Abbreviation YOUR_ORDER := (chars "your order").
Abbreviation ORDER := (chars "order").
Abbreviation SPACE := (chars " ").

(** ** The case state in the list and in the detail *)

(** The next action, from the status and whether the customer has a
    reply. *)
Definition next_action_of (status : CaseStatus) (reply : bool) : string :=
  match status with
  | pending => "review_report"
  | blocked => "investigate_blocker"
  | done => if reply then "monitor" else "send_customer_reply"
  | in_progress =>
      if reply then "apply_resolution_or_regenerate"
      else "continue_investigation"
  end.

(** The row [r] of the query of [GET /requests] holds what the query
    computes from the rows of one request, newest first: the counts
    ([COUNT( * )::int], 0 when there is no row), the flags ([BOOL_OR] of
    the comparison of the action type, false when there is no row), the
    type of the newest action, and the status row joined to it, null when
    there is none. *)
Definition aggregates {timestamp : Type} (r : RequestRow timestamp)
    (actions : list (ActionRow timestamp))
    (replies : list (ReplyRow timestamp))
    (regenerations : list (RegenerationRow timestamp))
    (statusRow : option (StatusRow timestamp)) : Prop :=
  r_action_count r = VNum (num_of_Z (Z.of_nat (length actions)))
  /\ r_reply_count r = VNum (num_of_Z (Z.of_nat (length replies)))
  /\ r_regen_count r = VNum (num_of_Z (Z.of_nat (length regenerations)))
  /\ r_has_refund r = VBool (existsb (action_is timestamp "apply_refund") actions)
  /\ r_has_credit r = VBool (existsb (action_is timestamp "apply_credit") actions)
  /\ r_has_reply r
     = VBool ((0 <? length replies)%nat
              || existsb (action_is timestamp "send_reply") actions)
  /\ r_status r = match statusRow with
                  | Some s => sr_status timestamp s
                  | None => VNull
                  end
  /\ r_last_action r = match statusRow with
                       | Some s => sr_last_action timestamp s
                       | None => VNull
                       end
  /\ r_last_action_type r = match actions with
                            | a :: _ => ac_action_type timestamp a
                            | [] => VNull
                            end.

(** ** The tables the routes write *)




(** What holds of tables that only the routes have written: a request has
    an action for every reply; it has a status row exactly when it has an
    action or a regenerated report; the status is in_progress or done, and
    done only with a refund or a credit among the actions. *)
Definition written_by_routes {timestamp : Type} (db : Database timestamp)
  : Prop :=
  forall sid : string,
    let actions := rows_of sid (operator_actions db) in
    let replies := rows_of sid (support_replies db) in
    let regenerations := rows_of sid (operator_regenerated_reports db) in
    (length replies <= length actions)%nat
    /\ match request_status db !! sid with
       | None => actions = [] /\ replies = [] /\ regenerations = []
       | Some r =>
           (actions <> [] \/ regenerations <> [])
           /\ (sr_status timestamp r = VStr "in_progress"
               \/ (sr_status timestamp r = VStr "done"
                   /\ existsb (action_is timestamp "apply_refund") actions
                      || existsb (action_is timestamp "apply_credit") actions
                      = true))
       end.

(** The rows of every support request in the second state are those of
    the first with rows added before them. *)
Definition grown {timestamp : Type} (db1 db2 : Database timestamp) : Prop :=
  forall sid : string,
    (exists l, rows_of sid (operator_actions db2)
               = l ++ rows_of sid (operator_actions db1))
    /\ (exists l, rows_of sid (support_replies db2)
                  = l ++ rows_of sid (support_replies db1))
    /\ (exists l, rows_of sid (operator_regenerated_reports db2)
                  = l ++ rows_of sid (operator_regenerated_reports db1)).

(** ** The report the console is given *)

(** A draft with no user id, no UUID of versions 1 to 5 and no identifier
    of 32 hex digits between word boundaries, no two white-space
    characters side by side and none at either end. *)
Definition redacted (draft : string) : Prop :=
  ~ matches_in RE_USER_ID (chars draft)
  /\ ~ matches_in RE_UUID (chars draft)
  /\ ~ matches_in RE_HEX32 (chars draft)
  /\ no_space_pair (chars draft) = true
  /\ is_space_opt (head (chars draft)) = false
  /\ is_space_opt (last (chars draft)) = false.

(** Null, or an object whose amount is null or a finite number and whose
    reason is neither null nor undefined. *)
Definition ui_recommendation (v : value) : Prop :=
  v = VNull
  \/ exists m,
       v = VObj m
       /\ (get m "amount_usd" = VNull
           \/ exists n, get m "amount_usd" = VNum n /\ is_finite n = true)
       /\ nullish (get m "reason") = false.

Definition ui_report (report : gmap string value) : Prop :=
  (forall k, In k recognized_fields -> is_Some (report !! k))
  /\ (exists draft,
        report !! "draft_response" = Some (VStr draft) /\ redacted draft)
  /\ (exists v, report !! "refund_recommendation" = Some v
                /\ ui_recommendation v)
  /\ (exists v, report !! "credit_recommendation" = Some v
                /\ ui_recommendation v).

Definition reports_normalized {timestamp : Type} (db : Database timestamp)
  : Prop :=
  Forall (fun row => ui_report (rg_agent_response (snd row)))
         (operator_regenerated_reports db).

(** ** Texts *)

(** The [text] of every item of the content of a message, in order. *)
Definition texts_of_message (message : value) : list value :=
  if is_object message then
    match member message "content" with
    | VArr content =>
        map (fun item => member item "text") (List.filter is_object content)
    | _ => []
    end
  else [].

(** The same for the messages of an output, in order. *)
Definition response_texts (output : list value) : list value :=
  flat_map texts_of_message output.

(** The first value that is a string with a character other than white
    space. *)
Definition first_nonblank (l : list value) : option string :=
  match List.find is_nonblank_string l with
  | Some (VStr text) => Some text
  | _ => None
  end.

(** The errors of a query that [fetchSupportRequestText] passes over. *)
Definition tolerated (error : string) : bool :=
  let message := toLowerCase error in
  includes message "does not exist"
  || includes message "undefined table"
  || includes message "undefined column"
  || includes message "permission denied".

(** The table gives no text: its newest row has none, or the query fails
    with an error that is passed over. *)
Definition skipped (query : string -> result value) (tableName : string)
  : Prop :=
  match query tableName with
  | Returns v => is_nonblank_string v = false
  | Throws error => tolerated error = true
  end.

(** ** The credential requests of the password callback *)

(** Every credential request issued has settled, but for the one in
    flight, which is the last one issued. *)
Definition requests_in_order (st : TokenCacheModel.state) : Prop :=
  (forall p : nat,
     is_Some (TokenCacheModel.settled st !! p)
     <-> (p < TokenCacheModel.fetchCalls st)%nat
         /\ TokenCacheModel.refreshPromise st <> Some p)
  /\ (forall p : nat,
        TokenCacheModel.refreshPromise st = Some p ->
        TokenCacheModel.fetchCalls st = S p).

(** * Properties *)

(** ** Numbers and coercions *)

Lemma Qred_inject_Z (z : Z) : Qred (inject_Z z) = inject_Z z.
Proof.
  apply Qred_identity. simpl. apply Z.gcd_1_r.
Qed.

(** Adding two counts: the sum, or an overflow to the positive infinity. *)
Lemma add_counts (x y : Z) :
  0 <= x -> 0 <= y ->
  add (num_of_Z x) (num_of_Z y) = num_of_Z (x + y)
  \/ (add (num_of_Z x) (num_of_Z y) = Inf false /\ 0 < x + y).
Proof.
  intros Hx Hy. unfold add, num_of_Z, round_number.
  assert (Hn : Qnum (inject_Z x + inject_Z y) = x + y) by (simpl; lia).
  assert (Hd : Qden (inject_Z x + inject_Z y) = 1%positive) by reflexivity.
  rewrite Hn, Hd, Z.mul_1_r.
  destruct (Z.leb_spec overflow_bound (Z.abs (x + y))) as [Hov | Hok].
  - right. assert (0 < overflow_bound) by reflexivity. split; [| lia].
    f_equal. apply Z.ltb_ge. lia.
  - left. f_equal.
    rewrite <- (Qred_inject_Z (x + y)). apply Qred_complete.
    unfold Qeq. rewrite Hn, Hd. simpl. lia.
Qed.

Lemma gt_zero_sum3 (a r g : nat) :
  gt_zero (add (add (num_of_Z (Z.of_nat a)) (num_of_Z (Z.of_nat r)))
               (num_of_Z (Z.of_nat g)))
  = (0 <? a + r + g)%nat.
Proof.
  assert (Hpos : forall n : nat, (0 <? n)%nat = (0 <? Z.of_nat n)%Z).
  { intros n. destruct (Nat.ltb_spec 0 n), (Z.ltb_spec 0 (Z.of_nat n)); lia. }
  rewrite Hpos, !Nat2Z.inj_add.
  destruct (add_counts (Z.of_nat a) (Z.of_nat r)) as [-> | [-> H]]; try lia.
  - destruct (add_counts (Z.of_nat a + Z.of_nat r) (Z.of_nat g))
      as [-> | [-> H]]; try lia.
    + reflexivity.
    + simpl. symmetry. apply Z.ltb_lt. lia.
  - simpl. symmetry. apply Z.ltb_lt. lia.
Qed.

(** ** Case status and next action *)

(** C1.  [deriveCaseStatus] applies its rules in priority order: a stored
    status of blocked gives blocked; otherwise a refund action, a credit
    action or a stored status of done gives done; otherwise a positive sum
    of the action, reply and regeneration counts or a stored status of
    in_progress gives in_progress; otherwise the case is pending.  And a
    stored status of blocked gives blocked whatever the other fields
    hold. *)
Theorem deriveCaseStatus_priority :
  (forall (status : value) (refund credit : bool) (a r g : nat),
     deriveCaseStatus
       {| p_status := status;
          p_hasRefund := VBool refund;
          p_hasCredit := VBool credit;
          p_actionCount := VNum (num_of_Z (Z.of_nat a));
          p_replyCount := VNum (num_of_Z (Z.of_nat r));
          p_regenCount := VNum (num_of_Z (Z.of_nat g)) |}
     = if stored_status_is "blocked" status then blocked
       else if refund || credit || stored_status_is "done" status then done
       else if (0 <? a + r + g)%nat || stored_status_is "in_progress" status
       then in_progress
       else pending)
  /\ (forall hr hc ac rc gc : value,
        deriveCaseStatus
          {| p_status := VStr "blocked"; p_hasRefund := hr; p_hasCredit := hc;
             p_actionCount := ac; p_replyCount := rc; p_regenCount := gc |}
        = blocked).
Proof.
  split.
  - intros status refund credit a r g. unfold deriveCaseStatus. cbn [p_status
      p_hasRefund p_hasCredit p_actionCount p_replyCount p_regenCount].
    unfold coalesce. cbn [nullish to_number]. rewrite gt_zero_sum3.
    destruct status; cbn [stored_status_is];
      destruct refund, credit; reflexivity.
  - reflexivity.
Qed.

(** C2.  For every status and every combination of has-reply, has-refund
    and has-credit, [deriveNextAction] returns the label of the decision
    table. *)
Theorem deriveNextAction_table (status : CaseStatus) (reply refund credit : bool) :
  deriveNextAction
    {| caseStatus := status; hasReply := reply;
       hasRefund := refund; hasCredit := credit |}
  = next_action_table status reply (refund || credit).
Proof.
  destruct status, reply, refund, credit; reflexivity.
Qed.

(** C3, as the code has it.  With no operator action, one reply, no
    regeneration and no stored status, the case is in_progress, has a
    reply and no refund, and the next action is
    apply_resolution_or_regenerate. *)
Theorem one_reply_case_state (timestamp : Type) (rp : ReplyRow timestamp) :
  let cs := caseState [] [rp] [] None in
  case_status cs = in_progress
  /\ has_reply cs = true
  /\ has_refund cs = false
  /\ next_action cs = "apply_resolution_or_regenerate".
Proof.
  cbv zeta. repeat split; reflexivity.
Qed.

(** C3, as stated: the next action is not continue_investigation. *)
Lemma one_reply_not_continue_investigation :
  let rp := {| rp_created_at := 0%Z; rp_sent_by := VStr "agent";
               rp_message_text := VStr "On it." |} in
  let cs := caseState [] [rp] [] None in
  ~ (case_status cs = in_progress
     /\ has_reply cs = true
     /\ has_refund cs = false
     /\ next_action cs = "continue_investigation").
Proof.
  cbv zeta. intros (_ & _ & _ & H). vm_compute in H. discriminate H.
Qed.

(** ** Recommendations *)

Lemma first_with_first_some {A B : Type} (f : A -> option B) l b :
  first_with f l b -> first_some f l = Some b.
Proof.
  intros (pre & x & post & -> & Hpre & Hx).
  induction Hpre as [| y pre Hy _ IH]; simpl.
  - rewrite Hx. reflexivity.
  - rewrite Hy. exact IH.
Qed.

Lemma first_some_none {A B : Type} (f : A -> option B) l :
  Forall (fun y => f y = None) l -> first_some f l = None.
Proof.
  induction 1 as [| y l Hy _ IH]; simpl; [reflexivity |].
  rewrite Hy. exact IH.
Qed.

Lemma first_with_find {A : Type} (p : A -> bool) l v :
  first_with (keep_if p) l v -> List.find p l = Some v.
Proof.
  intros (pre & x & post & -> & Hpre & Hx). unfold keep_if in *.
  induction Hpre as [| y pre Hy _ IH]; simpl.
  - destruct (p x); congruence.
  - destruct (p y); [discriminate | exact IH].
Qed.

Lemma find_none_all {A : Type} (p : A -> bool) l :
  Forall (fun y => p y = false) l -> List.find p l = None.
Proof.
  induction 1 as [| y l Hy _ IH]; simpl; [reflexivity |].
  rewrite Hy. exact IH.
Qed.

(** The fields of a normalised recommendation. *)
Lemma normalizeRecommendation_obj (raw : gmap string value) :
  normalizeRecommendation (VObj raw)
  = VObj (<["reason" :=
              coalesce (default VUndefined
                          (List.find is_nonblank_string (reason_candidates raw)))
                       (coalesce (get raw "reason") (VStr ""))]>
          (<["amount_usd" :=
              nullable (first_some toNullableNumber (amount_candidates raw))]>
           raw)).
Proof.
  assert (H : forall o : option number, or_else o None = o) by (intros []; reflexivity).
  unfold amount_candidates. cbn [first_some]. rewrite H. reflexivity.
Qed.

Lemma toNullableNumber_spec (v : value) (n : number) :
  toNullableNumber v = Some n
  <-> is_finite n = true
      /\ (v = VNum n \/ exists s, v = VStr s /\ string_to_number s = n).
Proof.
  split.
  - destruct v; simpl; try discriminate.
    + destruct (is_finite n0) eqn:E; intros [= <-]. auto.
    + destruct (is_finite (string_to_number s)) eqn:E; intros [= <-].
      split; [exact E | right; eauto].
  - intros [Hfin [-> | (s & -> & <-)]]; simpl; rewrite Hfin; reflexivity.
Qed.

(** C6, as the code has it.  For every recommendation object the amount is
    what the first of amount_usd, amount, credit_amount, refund_amount
    that coerces to a finite number coerces to, and null when none does;
    the reason is the first of reason, credit_reason, refund_reason that
    is a string with a character other than white space, and when there
    is none the raw reason unless that is null or undefined, else the
    empty string; the other fields are kept.  The payload with
    credit_amount "12.50" and credit_reason "goodwill" gets the amount
    12.5 and the reason "goodwill". *)
Theorem normalizeRecommendation_fields (raw : gmap string value) :
  exists out,
    normalizeRecommendation (VObj raw) = VObj out
    /\ (forall n, first_with toNullableNumber (amount_candidates raw) n ->
                  out !! "amount_usd" = Some (VNum n) /\ is_finite n = true)
    /\ (Forall (fun v => toNullableNumber v = None) (amount_candidates raw) ->
        out !! "amount_usd" = Some VNull)
    /\ (forall v, first_with (keep_if is_nonblank_string)
                             (reason_candidates raw) v ->
                  out !! "reason" = Some v)
    /\ (Forall (fun v => is_nonblank_string v = false) (reason_candidates raw) ->
        out !! "reason" = Some (coalesce (get raw "reason") (VStr "")))
    /\ (forall k, k <> "amount_usd" -> k <> "reason" -> out !! k = raw !! k)
    /\ (let payload := <["credit_amount" := VStr "12.50"]>
                       (<["credit_reason" := VStr "goodwill"]> ∅) in
        exists out', normalizeRecommendation (VObj payload) = VObj out'
          /\ out' !! "amount_usd" = Some (VNum (Fin (25 # 2)))
          /\ out' !! "reason" = Some (VStr "goodwill")).
Proof.
  eexists. split; [apply normalizeRecommendation_obj |].
  repeat split.
  - rewrite lookup_insert_ne by discriminate. rewrite lookup_insert_eq.
    rewrite (first_with_first_some _ _ _ H). reflexivity.
  - destruct H as (pre & x & post & _ & _ & Hx).
    apply toNullableNumber_spec in Hx. tauto.
  - intros H. rewrite lookup_insert_ne by discriminate.
    rewrite lookup_insert_eq, (first_some_none _ _ H). reflexivity.
  - intros v H. rewrite lookup_insert_eq, (first_with_find _ _ _ H).
    destruct H as (pre & x & post & _ & _ & Hx). unfold keep_if in Hx.
    destruct (is_nonblank_string x) eqn:E; [| discriminate].
    injection Hx as ->. destruct v; try discriminate E. reflexivity.
  - intros H. rewrite lookup_insert_eq, (find_none_all _ _ H). reflexivity.
  - intros k H1 H2. rewrite !lookup_insert_ne by congruence. reflexivity.
  - eexists. split; [apply normalizeRecommendation_obj |].
    split; vm_compute; reflexivity.
Qed.

(** C6, as stated: when the reason field is a string of white space, the
    first non-empty string among the candidates is not the reason of the
    result. *)
Lemma blank_reason_is_skipped :
  let raw := <["reason" := VStr "   "]>
             (<["credit_reason" := VStr "goodwill"]> ∅) in
  first_nonempty_string (reason_candidates raw) = Some (VStr "   ")
  /\ own_props (normalizeRecommendation (VObj raw)) !! "reason"
     = Some (VStr "goodwill")
  /\ own_props (normalizeRecommendation (VObj raw)) !! "reason"
     <> first_nonempty_string (reason_candidates raw).
Proof.
  cbv zeta. split; [vm_compute; reflexivity |].
  split; [vm_compute; reflexivity |].
  vm_compute. discriminate.
Qed.

(** C10.  When the amount_usd field is the empty string the normalised
    amount is the number 0, not null: the empty string converts to the
    finite number 0, and amount_usd is the first candidate. *)
Theorem empty_amount_is_zero (raw : gmap string value) :
  string_to_number "" = Fin 0
  /\ toNullableNumber (VStr "") = Some (Fin 0)
  /\ own_props (normalizeRecommendation
                  (VObj (<["amount_usd" := VStr ""]> raw))) !! "amount_usd"
     = Some (VNum (Fin 0)).
Proof.
  split; [reflexivity |]. split; [reflexivity |].
  rewrite normalizeRecommendation_obj. cbn [own_props].
  rewrite lookup_insert_ne by discriminate. rewrite lookup_insert_eq.
  unfold amount_candidates, get. rewrite lookup_insert_eq. reflexivity.
Qed.

(** ** Parsing a report *)

Lemma DEFAULT_REPORT_fields :
  DEFAULT_REPORT !! "credit_recommendation" = Some VNull
  /\ DEFAULT_REPORT !! "refund_recommendation" = Some VNull
  /\ DEFAULT_REPORT !! "draft_response" = Some (VStr "")
  /\ DEFAULT_REPORT !! "past_interactions_summary" = Some (VStr "")
  /\ DEFAULT_REPORT !! "order_details_summary" = Some (VStr "")
  /\ DEFAULT_REPORT !! "decision_confidence" = Some (VStr "medium")
  /\ DEFAULT_REPORT !! "escalation_flag" = Some (VBool false).
Proof. repeat split; vm_compute; reflexivity. Qed.

Lemma DEFAULT_REPORT_recognized (k : string) :
  In k recognized_fields -> is_Some (DEFAULT_REPORT !! k).
Proof.
  unfold recognized_fields. simpl.
  intros H. repeat (destruct H as [<- | H]; [vm_compute; eauto |]).
  destruct H.
Qed.

Lemma spread_over_defaults (props : gmap string value) (k : string) :
  In k recognized_fields -> is_Some ((props ∪ DEFAULT_REPORT) !! k).
Proof.
  intros H. apply lookup_union_is_Some. right.
  apply DEFAULT_REPORT_recognized, H.
Qed.

(** C5.  [parseAgentReport] never throws: for every raw value, and
    whatever [JSON.parse] does, it returns a report in which every
    recognized field is present; the report is the all-defaults report
    when the value is a string that does not parse, and when it is
    undefined, null, a boolean or a number; the defaults are the empty
    string for the text fields, "medium" for the confidence, false for the
    escalation flag and null for the two recommendations. *)
Theorem parseAgentReport_never_throws
    (JSON_parse : string -> option value) (v : value) :
  exists report,
    parseAgentReport JSON_parse v = Return report
    /\ (forall k, In k recognized_fields -> is_Some (report !! k))
    /\ ((exists s, v = VStr s /\ JSON_parse s = None) ->
        report = DEFAULT_REPORT)
    /\ (v = VUndefined \/ v = VNull \/ (exists b, v = VBool b)
        \/ (exists n, v = VNum n) ->
        report = DEFAULT_REPORT)
    /\ DEFAULT_REPORT !! "draft_response" = Some (VStr "")
    /\ DEFAULT_REPORT !! "past_interactions_summary" = Some (VStr "")
    /\ DEFAULT_REPORT !! "order_details_summary" = Some (VStr "")
    /\ DEFAULT_REPORT !! "decision_confidence" = Some (VStr "medium")
    /\ DEFAULT_REPORT !! "escalation_flag" = Some (VBool false)
    /\ DEFAULT_REPORT !! "refund_recommendation" = Some VNull
    /\ DEFAULT_REPORT !! "credit_recommendation" = Some VNull.
Proof.
  pose proof DEFAULT_REPORT_fields as (D1 & D2 & D3 & D4 & D5 & D6 & D7).
  assert (Hdef : forall r,
            r = DEFAULT_REPORT ->
            forall k, In k recognized_fields -> is_Some (r !! k)).
  { intros r ->. apply DEFAULT_REPORT_recognized. }
  unfold parseAgentReport, parseAgentReport_try.
  destruct v as [| | b | n | s | l | m].
  1-4: (exists DEFAULT_REPORT; cbn; rewrite ?andb_false_r;
        repeat split; auto using DEFAULT_REPORT_recognized).
  - destruct (JSON_parse s) as [parsed |] eqn:E.
    + eexists. split; [reflexivity |].
      split; [intros k; apply spread_over_defaults |].
      split; [intros (s' & [= <-] & E'); congruence |].
      split; [intros [H | [H | [[? H] | [? H]]]]; discriminate H |].
      repeat split; assumption.
    + exists DEFAULT_REPORT. repeat split;
        auto using DEFAULT_REPORT_recognized.
  - eexists. split; [reflexivity |].
    split; [intros k; apply spread_over_defaults |].
    split; [intros (s' & [=] & _) |].
    split; [intros [H | [H | [[? H] | [? H]]]]; discriminate H |].
    repeat split; assumption.
  - eexists. split; [reflexivity |].
    split; [intros k; apply spread_over_defaults |].
    split; [intros (s' & [=] & _) |].
    split; [intros [H | [H | [[? H] | [? H]]]]; discriminate H |].
    repeat split; assumption.
Qed.

(** ** The timeline *)

Section SortFacts.

Context {A : Type}.
Variable key : A -> Z.

Lemma sort_insert_perm (cmp : A -> A -> Z) (x : A) (l : list A) :
  Permutation (sort_insert cmp x l) (x :: l).
Proof.
  induction l as [| y l IH]; simpl; [reflexivity |].
  destruct (cmp x y <=? 0)%Z; [reflexivity |].
  rewrite IH. apply perm_swap.
Qed.

Lemma array_sort_perm (cmp : A -> A -> Z) (l : list A) :
  Permutation (array_sort cmp l) l.
Proof.
  induction l as [| x l IH]; simpl; [reflexivity |].
  rewrite sort_insert_perm. apply perm_skip, IH.
Qed.

Lemma sort_insert_descending (x : A) (l : list A) :
  descending key l -> descending key (sort_insert (by_key_desc key) x l).
Proof.
  unfold descending.
  induction 1 as [| y l Hl IH Hy]; simpl.
  - constructor; constructor.
  - unfold by_key_desc at 1.
    destruct (Z.leb_spec (key y - key x) 0) as [Hle | Hgt].
    + constructor; [constructor; assumption |].
      constructor; [lia |].
      eapply Forall_impl; [exact Hy |]. simpl. intros; lia.
    + constructor; [exact IH |].
      eapply Permutation_Forall;
        [symmetry; apply sort_insert_perm |].
      constructor; [lia | exact Hy].
Qed.

Lemma array_sort_descending (l : list A) :
  descending key (array_sort (by_key_desc key) l).
Proof.
  induction l as [| x l IH]; simpl.
  - constructor.
  - apply sort_insert_descending, IH.
Qed.

Lemma descending_lookup (l : list A) (i j : nat) (a b : A) :
  descending key l -> (i < j)%nat ->
  l !! i = Some a -> l !! j = Some b -> key b <= key a.
Proof.
  intros Hl. revert i j.
  induction Hl as [| y l Hl IH Hy]; intros i j Hij Hi Hj.
  - discriminate Hi.
  - destruct j as [| j]; [lia |]. simpl in Hj.
    destruct i as [| i]; simpl in Hi.
    + injection Hi as ->. rewrite Forall_forall in Hy.
      apply Hy. eapply list_elem_of_lookup_2, Hj.
    + apply (IH i j); [lia | assumption | assumption].
Qed.

(** Stability: the elements of one key keep their order. *)
Lemma sort_insert_filter (t : Z) (x : A) (l : list A) :
  descending key l ->
  List.filter (fun e => (key e =? t)%Z) (sort_insert (by_key_desc key) x l)
  = List.filter (fun e => (key e =? t)%Z) (x :: l).
Proof.
  unfold descending.
  induction 1 as [| y l Hl IH Hy]; [reflexivity |].
  cbn [sort_insert]. unfold by_key_desc at 1.
  destruct (Z.leb_spec (key y - key x) 0) as [Hle | Hgt]; [reflexivity |].
  cbn [List.filter] in *. rewrite IH.
  destruct (Z.eqb_spec (key y) t), (Z.eqb_spec (key x) t);
    try reflexivity; lia.
Qed.

Lemma array_sort_filter (t : Z) (l : list A) :
  List.filter (fun e => (key e =? t)%Z) (array_sort (by_key_desc key) l)
  = List.filter (fun e => (key e =? t)%Z) l.
Proof.
  induction l as [| x l IH]; [reflexivity |].
  cbn [array_sort fold_right].
  rewrite sort_insert_filter by apply array_sort_descending.
  cbn [List.filter]. fold (array_sort (by_key_desc key) l). rewrite IH.
  reflexivity.
Qed.

End SortFacts.

(** X1.  The timeline of a case is sorted by descending time as the
    comparator reads it: each event is read as at or after every event
    that follows it; it holds the events made from the report, the
    regenerations, the replies, the actions and the ratings, nothing less
    and nothing more; events the comparator reads as of one instant keep
    the order of that list, so that the result is determined by the input
    rows. *)
Theorem timeline_sorted_by_comparator (timestamp : Type) (getTime : timestamp -> Z)
    (row : ReportRow timestamp)
    (regenerations : list (RegenerationRow timestamp))
    (replies : list (ReplyRow timestamp))
    (actions : list (ActionRow timestamp))
    (ratingsRows : list (RatingRow timestamp)) :
  let events := timeline_events timestamp row regenerations replies actions
                                ratingsRows in
  let tl := timeline timestamp getTime row regenerations replies actions
                     ratingsRows in
  (forall (i j : nat) (a b : CaseEvent timestamp),
     (i < j)%nat -> tl !! i = Some a -> tl !! j = Some b ->
     getTime (event_at b) <= getTime (event_at a))
  /\ Permutation tl events
  /\ (forall t : Z,
        List.filter (fun e => (getTime (event_at e) =? t)%Z) tl
        = List.filter (fun e => (getTime (event_at e) =? t)%Z) events).
Proof.
  cbv zeta. unfold timeline.
  change (compare_events timestamp getTime)
    with (by_key_desc (fun e : CaseEvent timestamp => getTime (event_at e))).
  split; [| split].
  - intros i j a b Hij Hi Hj.
    exact (descending_lookup _ _ i j a b (array_sort_descending _ _) Hij Hi Hj).
  - apply array_sort_perm.
  - intros t. apply (array_sort_filter (fun e => getTime (event_at e))).
Qed.

(** C4, at a reply and the operator action recorded with it.  The route
    that stores a reply inserts the reply and, right after it, an action
    of type send_reply; here they are 100 ms apart within one second, five
    seconds after the report.  The comparator reads both as of the same
    second and the sort keeps the order of the list it is given, replies
    before actions: the timeline shows the reply first and the action,
    which is the more recent of the two, after it. *)
Theorem timeline_within_one_second :
  let row := {| ts := 1767261600000; report_source := VStr "sync" |} in
  let reply := {| rp_created_at := 1767261605100;
                  rp_sent_by := VStr "agent";
                  rp_message_text := VStr "On it." |} in
  let action := {| ac_action_type := VStr "send_reply";
                   ac_created_at := 1767261605200;
                   ac_actor := VStr "agent";
                   ac_amount_usd := VNull;
                   ac_status := VStr "recorded" |} in
  let tl := timeline Date getTime_of_String row [] [reply] [action] [] in
  map (fun e => (event_type e, event_at e)) tl
  = [(VStr "reply_sent", 1767261605100);
     (VStr "send_reply", 1767261605200);
     (VStr "report_generated", 1767261600000)]
  /\ ~ (forall (i j : nat) (a b : CaseEvent Date),
          (i < j)%nat -> tl !! i = Some a -> tl !! j = Some b ->
          event_at b <= event_at a).
Proof.
  cbv zeta. split; [vm_compute; reflexivity |].
  intros H.
  specialize (H 0%nat 1%nat _ _ ltac:(lia) eq_refl eq_refl).
  vm_compute in H. apply H. reflexivity.
Qed.

(** ** The token cache *)

Module TokenCacheFacts.
Import TokenCacheModel.

(** While a refresh is in flight and nothing is cached, a call returns the
    promise of that refresh and changes nothing: no credential request is
    issued. *)
Lemma getToken_in_flight (now : Z) (st : state) (p : nat) :
  cached st = None -> refreshPromise st = Some p ->
  getToken now st = (Awaits p, st).
Proof.
  intros Hc Hp. unfold getToken, fresh. rewrite Hc, Hp. reflexivity.
Qed.

Lemma getToken_all_in_flight (nows : list Z) (st : state) (p : nat) :
  cached st = None -> refreshPromise st = Some p ->
  getToken_all nows st = (map (fun _ => Awaits p) nows, st).
Proof.
  intros Hc Hp. induction nows as [| now rest IH]; [reflexivity |].
  cbn [getToken_all]. rewrite (getToken_in_flight now st p Hc Hp), IH.
  reflexivity.
Qed.

(** The first call on an empty cache issues the credential request. *)
Lemma getToken_first (now : Z) (st : state) :
  cached st = None -> refreshPromise st = None ->
  getToken now st
  = (Awaits (fetchCalls st),
     {| cached := None; refreshPromise := Some (fetchCalls st);
        fetchCalls := S (fetchCalls st); settled := settled st |}).
Proof.
  intros Hc Hp. unfold getToken, fresh. rewrite Hc, Hp. reflexivity.
Qed.

(** C9.  Any number of calls made while the cache is empty and before the
    credential request settles issue that request exactly once; every
    caller, the first and those that arrive while the refresh is in
    flight, holds the promise of that one refresh; when the request
    settles no further request has been issued and every caller observes
    the same outcome: the token fetched, or the error. *)
Theorem getToken_single_flight (st0 : state) (nows : list Z) :
  cached st0 = None -> refreshPromise st0 = None -> nows <> [] ->
  let answers := fst (getToken_all nows st0) in
  let st := snd (getToken_all nows st0) in
  let p := fetchCalls st0 in
  fetchCalls st = S (fetchCalls st0)
  /\ refreshPromise st = Some p
  /\ answers = map (fun _ => Awaits p) nows
  /\ (forall (now : Z), getToken now st = (Awaits p, st))
  /\ (forall result : TokenCache + string,
        let st' := settle result st in
        fetchCalls st' = S (fetchCalls st0)
        /\ refreshPromise st' = None
        /\ Forall (fun a =>
                     outcome st' a
                     = Some match result with
                            | inl entry => Fulfilled (token entry)
                            | inr e => Rejected e
                            end) answers).
Proof.
  intros Hc Hp Hne. destruct nows as [| now rest]; [congruence |].
  cbn [getToken_all]. rewrite (getToken_first now st0 Hc Hp).
  rewrite (getToken_all_in_flight rest _ (fetchCalls st0)) by reflexivity.
  cbn [fst snd].
  split; [reflexivity |]. split; [reflexivity |]. split; [reflexivity |].
  split; [intros now'; reflexivity |].
  intros result. cbv zeta.
  split; [reflexivity |]. split; [reflexivity |].
  apply Forall_forall. intros a Ha.
  change (a ∈ map (fun _ : Z => Awaits (fetchCalls st0)) (now :: rest)) in Ha.
  apply list_elem_of_fmap in Ha as (z & -> & _).
  unfold settle, outcome. cbn. apply lookup_insert_eq.
Qed.

(** Three concurrent callers on a new cache, and the token they get. *)
Lemma getToken_single_flight_witness :
  (cached initial = None /\ refreshPromise initial = None
   /\ [100; 101; 102] <> [])
  /\ fetchCalls (snd (getToken_all [100; 101; 102] initial)) = 1%nat
  /\ fst (getToken_all [100; 101; 102] initial)
     = [Awaits 0; Awaits 0; Awaits 0]
  /\ Forall (fun a =>
               outcome (settle (inl {| token := "t0"; expiresAt := 900000 |})
                               (snd (getToken_all [100; 101; 102] initial))) a
               = Some (Fulfilled "t0"))
            (fst (getToken_all [100; 101; 102] initial)).
Proof.
  assert (H : [100; 101; 102] <> []) by discriminate.
  split; [split; [reflexivity | split; [reflexivity | exact H]] |].
  pose proof (getToken_single_flight initial [100; 101; 102] eq_refl eq_refl H)
    as (H1 & _ & H3 & _ & H5).
  split; [exact H1 |]. split; [exact H3 |].
  exact (proj2 (proj2 (H5 (inl {| token := "t0"; expiresAt := 900000 |})))).
Defined.

End TokenCacheFacts.

(** ** Normalising twice *)

Lemma get_insert_eq (m : gmap string value) (k : string) (v : value) :
  get (<[k := v]> m) k = v.
Proof. unfold get. rewrite lookup_insert_eq. reflexivity. Qed.

Lemma get_insert_ne (m : gmap string value) (k k' : string) (v : value) :
  k' <> k -> get (<[k' := v]> m) k = get m k.
Proof. intros H. unfold get. rewrite lookup_insert_ne by exact H. reflexivity. Qed.

Lemma first_some_finite (l : list value) (n : number) :
  first_some toNullableNumber l = Some n -> is_finite n = true.
Proof.
  induction l as [| v l IH]; simpl; [discriminate |].
  destruct (toNullableNumber v) as [x |] eqn:E; simpl.
  - intros [= <-]. apply toNullableNumber_spec in E. tauto.
  - exact IH.
Qed.

Lemma find_some_nonblank (l : list value) (v : value) :
  List.find is_nonblank_string l = Some v -> is_nonblank_string v = true.
Proof. intros H. apply List.find_some in H. tauto. Qed.

Lemma nonblank_not_nullish (v : value) :
  is_nonblank_string v = true -> nullish v = false.
Proof. destruct v; simpl; congruence. Qed.

Lemma nullish_not_nonblank (v : value) :
  nullish v = true -> is_nonblank_string v = false.
Proof. destruct v; simpl; congruence. Qed.

(** Normalising a recommendation a second time changes nothing. *)
Lemma normalizeRecommendation_idempotent (v : value) :
  normalizeRecommendation (normalizeRecommendation v)
  = normalizeRecommendation v.
Proof.
  assert (Hobj : forall raw,
            normalizeRecommendation (normalizeRecommendation (VObj raw))
            = normalizeRecommendation (VObj raw)).
  { intros raw. rewrite (normalizeRecommendation_obj raw).
    rewrite normalizeRecommendation_obj. f_equal.
    set (amount := first_some toNullableNumber (amount_candidates raw)).
    set (found := List.find is_nonblank_string (reason_candidates raw)).
    set (reason := coalesce (default VUndefined found)
                            (coalesce (get raw "reason") (VStr ""))).
    set (out := <["reason" := reason]> (<["amount_usd" := nullable amount]> raw)).
    assert (Ha : first_some toNullableNumber (amount_candidates out) = amount).
    { unfold amount_candidates, out.
      rewrite !(get_insert_ne _ _ "reason") by discriminate.
      rewrite get_insert_eq, !(get_insert_ne _ _ "amount_usd") by discriminate.
      subst amount. unfold amount_candidates. cbn [first_some].
      destruct (toNullableNumber (get raw "amount_usd")) as [n |] eqn:E.
      - cbn [or_else nullable toNullableNumber].
        apply toNullableNumber_spec in E as [-> _]. reflexivity.
      - cbn [or_else].
        destruct (or_else (toNullableNumber (get raw "amount")) _)
          as [n |] eqn:E2.
        + cbn [nullable toNullableNumber].
          assert (Hfin : is_finite n = true).
          { apply (first_some_finite
                     [get raw "amount"; get raw "credit_amount";
                      get raw "refund_amount"]). exact E2. }
          rewrite Hfin. reflexivity.
        + reflexivity. }
    assert (Hc : forall a b, nullish a = false -> coalesce a b = a).
    { intros a b H. unfold coalesce. rewrite H. reflexivity. }
    assert (Hreason :
              (found = Some reason /\ is_nonblank_string reason = true)
              \/ (is_nonblank_string reason = false
                  /\ nullish reason = false
                  /\ is_nonblank_string (get raw "credit_reason") = false
                  /\ is_nonblank_string (get raw "refund_reason") = false)).
    { subst reason. destruct found as [w |] eqn:E; subst found.
      - left. pose proof (find_some_nonblank _ _ E) as Hw.
        change (default VUndefined (Some w)) with w.
        rewrite (Hc w) by (apply nonblank_not_nullish, Hw). auto.
      - right. change (default VUndefined None) with VUndefined.
        change (coalesce VUndefined ?x) with x.
        unfold reason_candidates in E. cbn [List.find] in E.
        destruct (is_nonblank_string (get raw "reason")) eqn:E1;
          [discriminate |].
        destruct (is_nonblank_string (get raw "credit_reason")) eqn:E2;
          [discriminate |].
        destruct (is_nonblank_string (get raw "refund_reason")) eqn:E3;
          [discriminate |].
        unfold coalesce.
        destruct (nullish (get raw "reason")) eqn:En; auto. }
    assert (Hr : coalesce (default VUndefined
                             (List.find is_nonblank_string (reason_candidates out)))
                          (coalesce (get out "reason") (VStr ""))
                 = reason).
    { unfold reason_candidates, out.
      rewrite get_insert_eq, !(get_insert_ne _ _ "reason") by discriminate.
      rewrite !(get_insert_ne _ _ "amount_usd") by discriminate.
      cbn [List.find].
      destruct Hreason as [[_ Hnb] | (Hnb & Hnn & E2 & E3)].
      - rewrite Hnb. change (default VUndefined (Some reason)) with reason.
        apply Hc, nonblank_not_nullish, Hnb.
      - rewrite Hnb, E2, E3. change (default VUndefined None) with VUndefined.
        change (coalesce VUndefined ?x) with x. apply Hc, Hnn. }
    rewrite Ha, Hr. unfold out.
    apply map_eq. intros k. rewrite !lookup_insert.
    repeat case_decide; reflexivity. }
  assert (Hnull : forall w,
            String.eqb (typeof w) "object" = false ->
            normalizeRecommendation w = VNull).
  { intros w H. unfold normalizeRecommendation. rewrite H, orb_true_r.
    reflexivity. }
  destruct v as [| | b | n | s | l | m]; try reflexivity.
  - rewrite (Hnull (VBool b)) by reflexivity. reflexivity.
  - rewrite (Hnull (VNum n)) by reflexivity. reflexivity.
  - rewrite (Hnull (VStr s)) by reflexivity. reflexivity.
  - exact (Hobj (own_props (VArr l))).
  - exact (Hobj m).
Qed.

Lemma normalizeReportForUi_twice_eq (r : gmap string value) (u : option string) :
  normalizeReportForUi (normalizeReportForUi r u) u
  = <["draft_response" :=
        VStr (sanitizeDraftResponse
                (VStr (sanitizeDraftResponse (get r "draft_response") u)) u)]>
    (normalizeReportForUi r u).
Proof.
  unfold normalizeReportForUi at 1.
  assert (Hd : get (normalizeReportForUi r u) "draft_response"
               = VStr (sanitizeDraftResponse (get r "draft_response") u)).
  { unfold normalizeReportForUi. apply get_insert_eq. }
  assert (Hr : get (normalizeReportForUi r u) "refund_recommendation"
               = normalizeRecommendation (get r "refund_recommendation")).
  { unfold normalizeReportForUi.
    rewrite get_insert_ne by discriminate. apply get_insert_eq. }
  assert (Hc : get (normalizeReportForUi r u) "credit_recommendation"
               = normalizeRecommendation (get r "credit_recommendation")).
  { unfold normalizeReportForUi.
    rewrite !get_insert_ne by discriminate. apply get_insert_eq. }
  rewrite Hd, Hr, Hc, !normalizeRecommendation_idempotent.
  apply map_eq. intros k. unfold normalizeReportForUi.
  rewrite !lookup_insert. repeat case_decide; reflexivity.
Qed.

(** ** Regular expressions: what a match is

    A declarative reading of the patterns, against which the backtracking
    matcher is sound and complete. *)

Local Open Scope list_scope.

Lemma ctx_last_nil prev : ctx_last prev [] = prev.
Proof. reflexivity. Qed.

Lemma ctx_last_cons prev c l : ctx_last prev (c :: l) = ctx_last (Some c) l.
Proof.
  unfold ctx_last. destruct l as [| d l]; [reflexivity |].
  rewrite last_cons. destruct (last (d :: l)); reflexivity.
Qed.

Lemma ctx_last_app prev l1 l2 :
  ctx_last prev (l1 ++ l2) = ctx_last (ctx_last prev l1) l2.
Proof.
  revert prev. induction l1 as [| c l1 IH]; intros prev; [reflexivity |].
  rewrite <- app_comm_cons, !ctx_last_cons. apply IH.
Qed.

Lemma ctx_last_nonempty prev l : l <> [] -> ctx_last prev l = last l.
Proof.
  intros H. unfold ctx_last. destruct (last l) eqn:E; [reflexivity |].
  apply last_None in E. contradiction.
Qed.

Lemma match_class_sound cls k min max prev s n :
  match_class cls k min max prev s = Some n ->
  exists m1 s2 n2,
    s = m1 ++ s2 /\ forallb cls m1 = true /\ within (length m1) min max
    /\ k (ctx_last prev m1) s2 = Some n2 /\ n = (length m1 + n2)%nat.
Proof.
  revert min max prev n.
  induction s as [| c s IH]; intros min max prev n H.
  - simpl in H. destruct min; [| discriminate].
    exists [], [], n. repeat split; auto; simpl; try lia.
    destruct max; lia.
  - assert (Hstop : match min with O => k prev (c :: s) | S _ => None end = Some n ->
                    exists m1 s2 n2,
                      c :: s = m1 ++ s2 /\ forallb cls m1 = true
                      /\ within (length m1) min max
                      /\ k (ctx_last prev m1) s2 = Some n2
                      /\ n = (length m1 + n2)%nat).
    { intros Hs. destruct min; [| discriminate].
      exists [], (c :: s), n. repeat split; auto; simpl; try lia.
      destruct max; lia. }
    simpl in H. destruct (cls c && may_take max) eqn:E; [| auto].
    destruct (match_class cls k (Nat.pred min) (one_less max) (Some c) s)
      as [n' |] eqn:E'; [| auto].
    injection H as <-. apply andb_true_iff in E as [Hc Hmax].
    apply IH in E' as (m1 & s2 & n2 & -> & Hall & [Hmin Hmx] & Hk & ->).
    exists (c :: m1), s2, n2. rewrite ctx_last_cons.
    repeat split; auto.
    + simpl. rewrite Hc. exact Hall.
    + simpl. lia.
    + destruct max as [[| mx] |]; simpl in *; try discriminate; lia.
Qed.

Lemma match_class_complete cls k min max prev m1 s2 :
  forallb cls m1 = true -> within (length m1) min max ->
  k (ctx_last prev m1) s2 <> None ->
  match_class cls k min max prev (m1 ++ s2) <> None.
Proof.
  revert min max prev.
  induction m1 as [| c m1 IH]; intros min max prev Hall [Hmin Hmax] Hk.
  - simpl in Hmin. assert (min = 0%nat) as -> by lia.
    rewrite ctx_last_nil in Hk. destruct s2 as [| c s2]; simpl; [exact Hk |].
    destruct (cls c && may_take max); [| exact Hk].
    destruct (match_class cls k 0 (one_less max) (Some c) s2);
      [discriminate | exact Hk].
  - simpl in Hall. apply andb_true_iff in Hall as [Hc Hall].
    rewrite ctx_last_cons in Hk. cbn [app match_class]. rewrite Hc.
    assert (Hm : may_take max = true).
    { destruct max as [[| mx] |]; simpl in *; auto; lia. }
    rewrite Hm. cbn [andb].
    specialize (IH (Nat.pred min) (one_less max) (Some c) Hall).
    destruct (match_class cls k (Nat.pred min) (one_less max) (Some c)
                (m1 ++ s2)); [discriminate |].
    exfalso. apply IH; [| exact Hk | reflexivity].
    split; [simpl in Hmin; lia |].
    destruct max as [mx |]; simpl in *; lia.
Qed.

(** The matcher finds only matches. *)
Lemma match_at_sound re prev s n :
  match_at re prev s = Some n ->
  exists m rest, s = m ++ rest /\ length m = n /\ Matches re prev m rest.
Proof.
  revert prev s n. induction re as [| a re IH]; intros prev s n H.
  - injection H as <-. exists [], s. repeat split. constructor.
  - destruct a as [| cls min max]; cbn [match_at] in H.
    + destruct (at_boundary prev s) eqn:E; [| discriminate].
      apply IH in H as (m & rest & -> & Hn & HM).
      exists m, rest. repeat split; auto. constructor; assumption.
    + apply match_class_sound in H
        as (m1 & s2 & n2 & -> & Hall & Hw & Hk & ->).
      apply IH in Hk as (m2 & rest & -> & <- & HM).
      exists (m1 ++ m2), rest. rewrite <- app_assoc, length_app.
      repeat split. constructor; assumption.
Qed.

(** The matcher finds a match whenever there is one. *)
Lemma match_at_complete re prev m rest :
  Matches re prev m rest -> match_at re prev (m ++ rest) <> None.
Proof.
  induction 1 as [prev rest | re prev m rest Hb _ IH
                  | cls min max re prev m1 m2 rest Hall Hw _ IH].
  - discriminate.
  - cbn [match_at]. rewrite Hb. exact IH.
  - cbn [match_at]. rewrite <- app_assoc.
    apply match_class_complete; assumption.
Qed.

Lemma Matches_nonempty re prev m rest :
  Matches re prev m rest -> takes_a_char re = true -> m <> [].
Proof.
  induction 1 as [prev rest | re prev m rest Hb _ IH
                  | cls min max re prev m1 m2 rest Hall [Hmin _] _ IH];
    simpl; intros Ht.
  - discriminate.
  - auto.
  - destruct min as [| min].
    + specialize (IH Ht). destruct m1, m2; simpl; congruence.
    + destruct m1; simpl in *; [lia | discriminate].
Qed.

Lemma match_at_not_zero re prev s :
  takes_a_char re = true -> match_at re prev s <> Some 0%nat.
Proof.
  intros Ht H. apply match_at_sound in H as (m & rest & -> & Hn & HM).
  apply (Matches_nonempty _ _ _ _ HM Ht).
  destruct m; [reflexivity | discriminate].
Qed.

(** ** Replacing all matches: the shape of the result *)

Section Rewriting.

Variable re : regex.
Variable by_ : list ascii.

Lemma replace_from_skip (n : nat) (prev : option ascii) (s : list ascii) :
  (n <= length s)%nat ->
  replace_from re by_ n prev s
  = replace_from re by_ 0 (ctx_last prev (take n s)) (drop n s).
Proof.
  revert prev s. induction n as [| n IH]; intros prev s Hn.
  - rewrite take_0, drop_0. reflexivity.
  - destruct s as [| c s]; [simpl in Hn; lia |].
    cbn [replace_from take drop]. rewrite ctx_last_cons.
    apply IH. simpl in Hn. lia.
Qed.

Hypothesis re_takes_a_char : takes_a_char re = true.

Lemma replace_from_Rw (s : list ascii) (prev : option ascii) :
  Rw re by_ prev s (replace_from re by_ 0 prev s).
Proof.
  remember (length s) as len eqn:Hlen. revert s prev Hlen.
  induction len as [len IH] using lt_wf_ind. intros s prev ->.
  destruct s as [| c s].
  - cbn [replace_from]. destruct (match_at re prev []) as [n |] eqn:E;
      [| constructor].
    exfalso. pose proof (match_at_sound _ _ _ _ E) as (m & rest & Hs & Hn & _).
    destruct m; [| discriminate]. simpl in Hn. subst n.
    exact (match_at_not_zero re prev [] re_takes_a_char E).
  - cbn [replace_from]. destruct (match_at re prev (c :: s)) as [[| n] |] eqn:E.
    + exfalso. exact (match_at_not_zero re prev _ re_takes_a_char E).
    + pose proof (match_at_sound _ _ _ _ E) as (m & rest & Hs & Hn & _).
      assert (Hle : (n <= length s)%nat).
      { apply (f_equal (@length ascii)) in Hs. rewrite length_app in Hs.
        simpl in Hs. lia. }
      rewrite (replace_from_skip n (Some c) s Hle).
      assert (Hm : m = c :: take n s).
      { destruct m as [| c' m]; [discriminate |].
        injection Hs as <- ->. f_equal. simpl in Hn.
        injection Hn as <-. rewrite take_app_length. reflexivity. }
      assert (Hrest : c :: s = (c :: take n s) ++ drop n s).
      { simpl. rewrite take_drop. reflexivity. }
      rewrite <- (ctx_last_cons prev c (take n s)). rewrite Hrest at 1.
      apply Rw_repl.
      * discriminate.
      * rewrite <- Hrest, E. simpl. rewrite length_take. f_equal. lia.
      * apply (IH (length (drop n s))); [| reflexivity].
        rewrite length_drop. simpl. lia.
    + apply Rw_keep; [exact E |].
      apply (IH (length s)); [simpl; lia | reflexivity].
Qed.

Lemma replace_all_Rw (s : list ascii) : Rw re by_ None s (replace_all re by_ s).
Proof. apply replace_from_Rw. Qed.

(** When the text holds a match, the result holds the replacement. *)
Lemma Rw_replaces (prev : option ascii) (s o : list ascii) :
  Rw re by_ prev s o ->
  (exists pre suf, s = pre ++ suf /\ match_at re (ctx_last prev pre) suf <> None) ->
  exists o1 o2, o = o1 ++ by_ ++ o2.
Proof.
  induction 1 as [prev | prev c s o Hnone _ IH | prev m rest o Hm Hmatch _ _];
    intros (pre & suf & Hs & Hocc).
  - exfalso. destruct pre; [| discriminate]. simpl in Hs. subst suf.
    rewrite ctx_last_nil in Hocc.
    destruct (match_at re prev []) as [n |] eqn:E; [| congruence].
    pose proof (match_at_sound _ _ _ _ E) as (m & rest & Hs & Hn & _).
    destruct m; [| discriminate]. simpl in Hn. subst n.
    exact (match_at_not_zero re prev [] re_takes_a_char E).
  - destruct pre as [| c' pre].
    + simpl in Hs. subst suf. rewrite ctx_last_nil in Hocc. congruence.
    + injection Hs as <- ->. rewrite ctx_last_cons in Hocc.
      destruct IH as (o1 & o2 & ->); [eauto |].
      exists (c :: o1), o2. reflexivity.
  - exists [], o. reflexivity.
Qed.

End Rewriting.

(** ** Delimited words survive, and appear, only outside the replacements *)

Section Transfer.

Variable re : regex.
Variable by_ : list ascii.
Variable P : list ascii -> Prop.

Hypothesis by_nonempty : by_ <> [].

(** A match begins and ends as the replacement does: with a word
    character, or with another character. *)
Hypothesis match_ends :
  forall prev m rest,
    m <> [] -> match_at re prev (m ++ rest) = Some (length m) ->
    is_word_opt (head m) = is_word_opt (head by_)
    /\ is_word_opt (last m) = is_word_opt (last by_).

Hypothesis P_nonempty : ~ P [].

(** No word of [P] runs into the start of a replacement. *)
Hypothesis by_not_in_word :
  forall x1 x2 r1 r2,
    P (x1 ++ x2) -> x2 <> [] -> by_ ++ r1 = x2 ++ r2 -> False.

(** No word of [P] starts inside a replacement, after a character of it
    that is not a word character. *)
Hypothesis word_not_in_by :
  forall z y w r1 r2,
    by_ = z ++ y -> y <> [] -> z <> [] -> is_word_opt (last z) = false ->
    P w -> y ++ r1 = w ++ r2 -> False.

Lemma Rw_head_word prev s o :
  Rw re by_ prev s o -> is_word_opt (head o) = is_word_opt (head s).
Proof.
  destruct 1 as [prev | prev c s o _ _ | prev m rest o Hm Hmatch _];
    [reflexivity | reflexivity |].
  destruct (match_ends prev m rest Hm Hmatch) as [Hh _].
  destruct m as [| c m]; [congruence |].
  destruct by_ as [| b by']; [congruence |]. simpl in *. congruence.
Qed.

(** A stretch of the result that no replacement touches is a stretch of
    the text. *)
Lemma Rw_prefix prev s o :
  Rw re by_ prev s o ->
  forall x r_o,
    o = x ++ r_o ->
    (forall x1 x2 r1 r2, x = x1 ++ x2 -> x2 <> [] -> by_ ++ r1 = x2 ++ r2 ->
                         False) ->
    exists r_s, s = x ++ r_s /\ Rw re by_ (ctx_last prev x) r_s r_o.
Proof.
  induction 1 as [prev | prev c s o Hnone HRw IH | prev m rest o Hm Hmatch HRw _];
    intros x r_o Ho Hfree.
  - symmetry in Ho. apply app_eq_nil in Ho as [-> ->].
    exists []. split; [reflexivity | constructor].
  - destruct x as [| c' x].
    + simpl in Ho. subst r_o. exists (c :: s). split; [reflexivity |].
      constructor; assumption.
    + injection Ho as <- Ho.
      destruct (IH x r_o Ho) as (r_s & -> & HRw').
      { intros x1 x2 r1 r2 -> Hx2 Heq.
        exact (Hfree (c :: x1) x2 r1 r2 eq_refl Hx2 Heq). }
      exists r_s. rewrite ctx_last_cons. split; [reflexivity | exact HRw'].
  - destruct x as [| c' x].
    + simpl in Ho. subst r_o. exists (m ++ rest). split; [reflexivity |].
      constructor; assumption.
    + exfalso. apply (Hfree [] (c' :: x) o r_o eq_refl); [discriminate |].
      exact Ho.
Qed.

(** A delimited word of [P] in the result stands in the text as well, at
    a place where the scan found no match. *)
Theorem Rw_transfer prev s o :
  Rw re by_ prev s o ->
  forall prevo,
    is_word_opt prevo = is_word_opt prev ->
    delimited P prevo o ->
    exists pre w rest,
      s = pre ++ w ++ rest /\ P w
      /\ is_word_opt (ctx_last prev pre) = false
      /\ is_word_opt (head rest) = false
      /\ match_at re (ctx_last prev pre) (w ++ rest) = None.
Proof.
  induction 1 as [prev | prev c s o Hnone HRw IH | prev m rest o Hm Hmatch HRw IH];
    intros prevo Hctx (pre & w & rest' & Ho & HP & Hbefore & Hafter).
  - exfalso. symmetry in Ho. apply app_eq_nil in Ho as [_ Ho].
    apply app_eq_nil in Ho as [-> _]. exact (P_nonempty HP).
  - destruct pre as [| c' pre].
    + assert (HRw0 : Rw re by_ prev (c :: s) (c :: o))
        by (constructor; assumption).
      destruct (Rw_prefix _ _ _ HRw0 w rest' Ho) as (r_s & Hs & HRw').
      { intros x1 x2 r1 r2 -> Hx2 Heq.
        exact (by_not_in_word x1 x2 r1 r2 HP Hx2 Heq). }
      exists [], w, r_s. rewrite ctx_last_nil in *.
      split; [exact Hs |]. split; [exact HP |].
      split; [congruence |].
      split; [rewrite <- (Rw_head_word _ _ _ HRw'); exact Hafter |].
      simpl in Hs. rewrite <- Hs. exact Hnone.
    + injection Ho as <- Ho. rewrite ctx_last_cons in Hbefore.
      destruct (IH (Some c) eq_refl) as (pre2 & w2 & rest2 & -> & H2);
        [exists pre, w, rest'; auto |].
      exists (c :: pre2), w2, rest2. rewrite ctx_last_cons.
      split; [reflexivity | exact H2].
  - destruct (match_ends prev m rest Hm Hmatch) as [_ Hlast].
    symmetry in Ho. apply app_eq_inv in Ho as [(k & -> & ->) | (k & Hby & Hrest)].
    + destruct (IH (ctx_last prevo by_)) as (pre2 & w2 & rest2 & -> & H2).
      { rewrite !ctx_last_nonempty by assumption. congruence. }
      { exists k, w, rest'. rewrite ctx_last_app in Hbefore. auto. }
      exists (m ++ pre2), w2, rest2. rewrite ctx_last_app, <- app_assoc.
      split; [reflexivity | exact H2].
    + destruct k as [| ck k].
      * rewrite app_nil_r in Hby. subst pre. simpl in Hrest. subst o.
        destruct (IH (ctx_last prevo by_)) as (pre2 & w2 & rest2 & -> & H2).
        { rewrite !ctx_last_nonempty by assumption. congruence. }
        { exists [], w, rest'. rewrite ctx_last_nil. auto. }
        exists (m ++ pre2), w2, rest2. rewrite ctx_last_app, <- app_assoc.
        split; [reflexivity | exact H2].
      * exfalso. destruct pre as [| cp pre].
        -- simpl in Hby.
           apply (by_not_in_word [] w o rest' HP).
           ++ intros ->. exact (P_nonempty HP).
           ++ rewrite Hby, Hrest. reflexivity.
        -- apply (word_not_in_by (cp :: pre) (ck :: k) w o rest').
           ++ exact Hby.
           ++ discriminate.
           ++ discriminate.
           ++ rewrite ctx_last_nonempty in Hbefore by discriminate.
              exact Hbefore.
           ++ exact HP.
           ++ rewrite Hrest. reflexivity.
Qed.

End Transfer.

(** ** Patterns of the form \b body \b *)

Lemma Matches_classes body prev m rest prev' rest' :
  all_classes body = true ->
  Matches body prev m rest -> Matches body prev' m rest'.
Proof.
  intros Hall HM. revert prev' Hall.
  induction HM as [prev rest | re prev m rest Hb _ IH
                   | cls min max re prev m1 m2 rest Hcls Hw _ IH];
    intros prev' Hall.
  - constructor.
  - discriminate.
  - constructor; [assumption | assumption |]. apply IH. exact Hall.
Qed.

Lemma Matches_accepted re prev m rest :
  Matches re prev m rest -> Forall (fun c => accepted re c = true) m.
Proof.
  induction 1 as [prev rest | re prev m rest Hb _ IH
                  | cls min max re prev m1 m2 rest Hcls Hw _ IH].
  - constructor.
  - exact IH.
  - apply Forall_app. split.
    + rewrite forallb_forall in Hcls. apply Forall_forall. intros c Hc.
      simpl. rewrite Hcls; [reflexivity |]. apply list_elem_of_In, Hc.
    + eapply Forall_impl; [exact IH |]. simpl. intros c ->.
      apply orb_true_r.
Qed.

(** The pattern before the closing boundary, and the boundary. *)
Lemma Matches_closing body prev m rest :
  all_classes body = true ->
  Matches (body ++ [WordBoundary]) prev m rest ->
  Matches body prev m rest /\ at_boundary (ctx_last prev m) rest = true.
Proof.
  revert prev m. induction body as [| a body IH]; intros prev m Hall HM.
  - simpl in HM. inversion HM as [| re' prev' m' rest' Hb HM' |]; subst.
    inversion HM'; subst. split; [constructor | exact Hb].
  - destruct a as [| cls min max]; [discriminate |].
    simpl in HM. inversion HM as [| | cls' min' max' re' prev' m1 m2 rest' Hcls Hw HM'];
      subst.
    apply IH in HM' as [HM' Hb]; [| exact Hall].
    rewrite ctx_last_app. split; [constructor; assumption | exact Hb].
Qed.

Lemma Matches_close body prev m rest :
  Matches body prev m rest ->
  at_boundary (ctx_last prev m) rest = true ->
  Matches (body ++ [WordBoundary]) prev m rest.
Proof.
  induction 1 as [prev rest | re prev m rest Hb _ IH
                  | cls min max re prev m1 m2 rest Hcls Hw _ IH]; intros Hend.
  - simpl. constructor; [exact Hend | constructor].
  - simpl. constructor; [exact Hb | exact (IH Hend)].
  - simpl. constructor; [assumption | assumption |].
    apply IH. rewrite <- ctx_last_app. exact Hend.
Qed.

Section Delimited.

Variable body : regex.
Hypothesis body_classes : all_classes body = true.

(** The words the body matches begin and end with a word character. *)
Hypothesis word_ends :
  forall w, fits body w ->
            is_word_opt (head w) = true /\ is_word_opt (last w) = true.

Let pattern : regex := WordBoundary :: body ++ [WordBoundary].

Lemma fits_nonempty w : fits body w -> w <> [].
Proof.
  intros H ->. apply word_ends in H as [H _]. discriminate H.
Qed.

Lemma delimited_match prev m rest :
  Matches pattern prev m rest
  <-> fits body m /\ is_word_opt prev = false
      /\ is_word_opt (head rest) = false.
Proof.
  unfold pattern. split.
  - intros HM. inversion HM as [| re' prev' m' rest' Hb HM' |]; subst.
    apply Matches_closing in HM' as [HM' He]; [| exact body_classes].
    assert (Hfit : fits body m)
      by exact (Matches_classes _ _ _ _ None [] body_classes HM').
    pose proof (word_ends m Hfit) as [Hh Hl].
    pose proof (fits_nonempty m Hfit) as Hne.
    split; [exact Hfit |]. split.
    + unfold at_boundary in Hb. rewrite head_app in Hb.
      destruct (head m); [| discriminate]. simpl in Hb, Hh. rewrite Hh in Hb.
      destruct (is_word_opt prev); [discriminate | reflexivity].
    + unfold at_boundary in He. rewrite ctx_last_nonempty in He by exact Hne.
      rewrite Hl in He. destruct (is_word_opt (head rest));
        [discriminate | reflexivity].
  - intros (Hfit & Hp & Hr).
    pose proof (word_ends m Hfit) as [Hh Hl].
    pose proof (fits_nonempty m Hfit) as Hne.
    constructor.
    + unfold at_boundary. rewrite head_app.
      destruct (head m); [| discriminate]. simpl in *. rewrite Hp, Hh.
      reflexivity.
    + apply Matches_close.
      * exact (Matches_classes _ _ _ _ prev rest body_classes Hfit).
      * unfold at_boundary. rewrite ctx_last_nonempty by exact Hne.
        rewrite Hl, Hr. reflexivity.
Qed.

(** The pattern matches somewhere in the text exactly when the text holds
    a delimited word of the body. *)
Lemma occurs_delimited prev s :
  (exists pre suf, s = pre ++ suf
                   /\ match_at pattern (ctx_last prev pre) suf <> None)
  <-> delimited (fits body) prev s.
Proof.
  split.
  - intros (pre & suf & -> & Hocc).
    destruct (match_at pattern (ctx_last prev pre) suf) as [n |] eqn:E;
      [| congruence].
    apply match_at_sound in E as (m & rest & -> & _ & HM).
    apply delimited_match in HM as (Hfit & Hp & Hr).
    exists pre, m, rest. auto.
  - intros (pre & w & rest & -> & Hfit & Hp & Hr).
    exists pre, (w ++ rest). split; [reflexivity |].
    apply match_at_complete, delimited_match. auto.
Qed.

Lemma delimited_matches prev w rest :
  fits body w -> is_word_opt prev = false -> is_word_opt (head rest) = false ->
  match_at pattern prev (w ++ rest) <> None.
Proof.
  intros Hfit Hp Hr. apply match_at_complete, delimited_match. auto.
Qed.

Lemma match_word_ends prev m rest :
  match_at pattern prev (m ++ rest) = Some (length m) ->
  is_word_opt (head m) = true /\ is_word_opt (last m) = true.
Proof.
  intros E. apply match_at_sound in E as (m' & rest' & Heq & Hlen & HM).
  apply app_inj_1 in Heq as [-> _]; [| congruence].
  apply delimited_match in HM as (Hfit & _). apply word_ends, Hfit.
Qed.

End Delimited.

(** ** Characters *)

Ltac each_char c :=
  destruct c as [[] [] [] [] [] [] [] []]; vm_compute; try reflexivity;
  try discriminate; auto.

Lemma hex_is_word c : is_hex c = true -> is_word c = true.
Proof. each_char c. Qed.

Lemma digit_is_word c : is_digit c = true -> is_word c = true.
Proof. each_char c. Qed.

Lemma space_not_word c : is_space c = true -> is_word c = false.
Proof. each_char c. Qed.

Lemma letter_u_is_word c : ichar "u" c = true -> is_word c = true.
Proof. each_char c. Qed.

Lemma letter_o_is_word c : ichar "o" c = true -> is_word c = true.
Proof. each_char c. Qed.

(** ** The bodies of the delimited patterns *)

Lemma RE_USER_ID_body : RE_USER_ID = WordBoundary :: USER_ID_body ++ [WordBoundary].
Proof. reflexivity. Qed.

Lemma RE_UUID_body : RE_UUID = WordBoundary :: UUID_body ++ [WordBoundary].
Proof. reflexivity. Qed.

Lemma RE_HEX32_body : RE_HEX32 = WordBoundary :: HEX32_body ++ [WordBoundary].
Proof. reflexivity. Qed.

Lemma RE_ORDER_HEX_body :
  RE_ORDER_HEX = WordBoundary :: ORDER_HEX_body ++ [WordBoundary].
Proof. reflexivity. Qed.

(** A pattern that starts with a class that takes a character matches a
    text that starts with a character of the class. *)
Lemma Matches_head cls n max re prev m rest :
  Matches (Class cls (S n) max :: re) prev m rest ->
  exists c m', m = c :: m' /\ cls c = true.
Proof.
  intros HM. inversion HM as [| | cls' min' max' re' prev' m1 m2 rest' Hcls [Hmin _] HM'];
    subst.
  destruct m1 as [| c m1]; [simpl in Hmin; lia |].
  simpl in Hcls. apply andb_true_iff in Hcls as [Hc _].
  exists c, (m1 ++ m2). split; [reflexivity | exact Hc].
Qed.

(** And likewise at the end. *)
Lemma Matches_last cls n max body prev m rest :
  Matches (body ++ [Class cls (S n) max]) prev m rest ->
  exists m' c, m = m' ++ [c] /\ cls c = true.
Proof.
  remember (body ++ [Class cls (S n) max]) as re eqn:Hre.
  intros HM. revert body Hre.
  induction HM as [prev rest | re prev m rest Hb _ IH
                   | cls' min' max' re prev m1 m2 rest Hcls [Hmin _] HM' IH];
    intros body Hre.
  - destruct body; discriminate.
  - destruct body as [| a body]; [discriminate |].
    injection Hre as _ ->. apply (IH body eq_refl).
  - destruct body as [| a body].
    + injection Hre as -> -> -> ->. inversion HM'; subst.
      rewrite app_nil_r.
      destruct (@exists_last _ m1) as (m' & c & ->).
      { intros ->. simpl in Hmin. lia. }
      exists m', c. split; [reflexivity |].
      rewrite forallb_app in Hcls. apply andb_true_iff in Hcls as [_ Hc].
      simpl in Hc. rewrite andb_true_r in Hc. exact Hc.
    + injection Hre as _ ->.
      destruct (IH body eq_refl) as (m' & c & -> & Hc).
      exists (m1 ++ m'), c. rewrite app_assoc. split; [reflexivity | exact Hc].
Qed.

Lemma head_cons_word (c : ascii) (m : list ascii) :
  is_word c = true -> is_word_opt (head (c :: m)) = true.
Proof. intros H. exact H. Qed.

Lemma last_snoc_word (c : ascii) (m : list ascii) :
  is_word c = true -> is_word_opt (last (m ++ [c])) = true.
Proof. intros H. rewrite last_snoc. exact H. Qed.

Lemma USER_ID_word_ends w :
  fits USER_ID_body w ->
  is_word_opt (head w) = true /\ is_word_opt (last w) = true.
Proof.
  intros H. split.
  - apply Matches_head in H as (c & m' & -> & Hc).
    apply head_cons_word, letter_u_is_word, Hc.
  - change USER_ID_body
      with ([one (ichar "u"); one (ichar "s"); one (ichar "e");
             one (ichar "r"); one (lit "-")] ++ [Class is_digit 1 None]) in H.
    apply Matches_last in H as (m' & c & -> & Hc).
    apply last_snoc_word, digit_is_word, Hc.
Qed.

Lemma UUID_word_ends w :
  fits UUID_body w ->
  is_word_opt (head w) = true /\ is_word_opt (last w) = true.
Proof.
  intros H. split.
  - apply Matches_head in H as (c & m' & -> & Hc).
    apply head_cons_word, hex_is_word, Hc.
  - change UUID_body
      with (removelast UUID_body ++ [Class is_hex 12 (Some 12%nat)]) in H.
    apply Matches_last in H as (m' & c & -> & Hc).
    apply last_snoc_word, hex_is_word, Hc.
Qed.

Lemma HEX32_word_ends w :
  fits HEX32_body w ->
  is_word_opt (head w) = true /\ is_word_opt (last w) = true.
Proof.
  intros H. split.
  - apply Matches_head in H as (c & m' & -> & Hc).
    apply head_cons_word, hex_is_word, Hc.
  - change HEX32_body with ([] ++ [Class is_hex 32 (Some 32%nat)]) in H.
    apply Matches_last in H as (m' & c & -> & Hc).
    apply last_snoc_word, hex_is_word, Hc.
Qed.

Lemma ORDER_HEX_word_ends w :
  fits ORDER_HEX_body w ->
  is_word_opt (head w) = true /\ is_word_opt (last w) = true.
Proof.
  intros H. split.
  - apply Matches_head in H as (c & m' & -> & Hc).
    apply head_cons_word, letter_o_is_word, Hc.
  - change ORDER_HEX_body
      with (removelast ORDER_HEX_body ++ [Class is_hex 8 None]) in H.
    apply Matches_last in H as (m' & c & -> & Hc).
    apply last_snoc_word, hex_is_word, Hc.
Qed.

(** ** A pass of the chain and the delimited words of a pattern *)

Lemma inner_starts_ok_spec start by_ :
  inner_starts_ok start by_ = true ->
  forall z y c,
    by_ = z ++ y -> z <> [] -> is_word_opt (last z) = false ->
    head y = Some c -> start c = false.
Proof.
  induction by_ as [| a tl IH]; intros Hok z y c Hby Hz Hlast Hy.
  - destruct z; [congruence | discriminate].
  - destruct z as [| a' z]; [congruence |]. injection Hby as <- Htl.
    destruct z as [| b z].
    + simpl in Htl. subst tl. destruct y as [| c' y]; [discriminate |].
      injection Hy as ->. simpl in Hok, Hlast.
      apply andb_true_iff in Hok as [Hok _]. rewrite Hlast in Hok.
      simpl in Hok. apply negb_true_iff in Hok. exact Hok.
    + apply (IH) with (z := b :: z) (y := y).
      * destruct tl; [discriminate |]. simpl in Hok.
        apply andb_true_iff in Hok as [_ Hok]. exact Hok.
      * exact Htl.
      * discriminate.
      * rewrite last_cons_cons in Hlast. exact Hlast.
      * exact Hy.
Qed.

Section Pass.

Variable re : regex.
Variable by_ : list ascii.
Variable body : regex.
Variable start : ascii -> bool.

Hypothesis re_takes_a_char : takes_a_char re = true.
Hypothesis by_nonempty : by_ <> [].
Hypothesis match_ends :
  forall prev m rest,
    m <> [] -> match_at re prev (m ++ rest) = Some (length m) ->
    is_word_opt (head m) = is_word_opt (head by_)
    /\ is_word_opt (last m) = is_word_opt (last by_).
Hypothesis body_classes : all_classes body = true.
Hypothesis word_ends :
  forall w, fits body w ->
            is_word_opt (head w) = true /\ is_word_opt (last w) = true.
Hypothesis word_start :
  forall w, fits body w -> exists c w', w = c :: w' /\ start c = true.
Hypothesis by_inner_starts : inner_starts_ok start by_ = true.
Hypothesis by_not_in_word :
  forall x1 x2 r1 r2,
    fits body (x1 ++ x2) -> x2 <> [] -> by_ ++ r1 = x2 ++ r2 -> False.

(** A delimited word of the body in the result of the pass stands in its
    input, where the pass found no match. *)
Lemma pass_transfer (s : list ascii) :
  delimited (fits body) None (replace_all re by_ s) ->
  exists pre w rest,
    s = pre ++ w ++ rest /\ fits body w
    /\ is_word_opt (ctx_last None pre) = false
    /\ is_word_opt (head rest) = false
    /\ match_at re (ctx_last None pre) (w ++ rest) = None.
Proof.
  intros H.
  apply (Rw_transfer re by_ (fits body) by_nonempty match_ends)
    with (prev := None) (o := replace_all re by_ s) (prevo := None).
  - intros Hfit. apply (fits_nonempty body word_ends [] Hfit). reflexivity.
  - exact by_not_in_word.
  - intros z y w r1 r2 Hby Hy Hz Hlast Hfit Heq.
    destruct (word_start w Hfit) as (c & w' & -> & Hc).
    destruct y as [| c' y]; [congruence |]. injection Heq as -> _.
    rewrite (inner_starts_ok_spec start by_ by_inner_starts z (c :: y) c
               Hby Hz Hlast eq_refl) in Hc.
    discriminate Hc.
  - apply replace_all_Rw, re_takes_a_char.
  - reflexivity.
  - exact H.
Qed.

Lemma pass_preserves (s : list ascii) :
  ~ delimited (fits body) None s ->
  ~ delimited (fits body) None (replace_all re by_ s).
Proof.
  intros Hfree H. apply Hfree.
  destruct (pass_transfer s H) as (pre & w & rest & Hs & Hfit & Hp & Hr & _).
  exists pre, w, rest. auto.
Qed.

Hypothesis re_body : re = WordBoundary :: body ++ [WordBoundary].

Lemma pass_establishes (s : list ascii) :
  ~ delimited (fits body) None (replace_all re by_ s).
Proof.
  intros H.
  destruct (pass_transfer s H) as (pre & w & rest & Hs & Hfit & Hp & Hr & Hnone).
  rewrite re_body in Hnone.
  exact (delimited_matches body body_classes word_ends _ w rest Hfit Hp Hr Hnone).
Qed.

End Pass.

(** The first character of the replacement is in no word of the body. *)
Lemma by_not_in_word_head (body : regex) (by_ : list ascii) (b0 : ascii) :
  head by_ = Some b0 -> accepted body b0 = false ->
  forall x1 x2 r1 r2,
    fits body (x1 ++ x2) -> x2 <> [] -> by_ ++ r1 = x2 ++ r2 -> False.
Proof.
  intros Hb Hacc x1 x2 r1 r2 Hfit Hx2 Heq.
  destruct by_ as [| b by']; [discriminate |]. injection Hb as ->.
  destruct x2 as [| c x2]; [congruence |]. injection Heq as <- _.
  apply Matches_accepted in Hfit. apply Forall_app in Hfit as [_ Hfit].
  apply Forall_cons in Hfit as [Hc _]. congruence.
Qed.

(** The replacement holds a character that is in no word of the body, and
    does not hold the last character of any word of the body. *)
Lemma by_not_in_word_chars (body : regex) (by_ : list ascii)
    (final : ascii -> bool) :
  existsb (fun c => negb (accepted body c)) by_ = true ->
  forallb (fun c => negb (final c)) by_ = true ->
  (forall w, fits body w -> exists w' d, w = w' ++ [d] /\ final d = true) ->
  forall x1 x2 r1 r2,
    fits body (x1 ++ x2) -> x2 <> [] -> by_ ++ r1 = x2 ++ r2 -> False.
Proof.
  intros Hex Hall Hfinal x1 x2 r1 r2 Hfit Hx2 Heq.
  apply app_eq_inv in Heq as [(k & -> & _) | (k & -> & _)].
  - destruct (Hfinal _ Hfit) as (w' & d & Hw & Hd).
    destruct (@exists_last _ x2 Hx2) as (x2' & d' & ->).
    rewrite !app_assoc in Hw. apply app_inj_tail in Hw as [_ ->].
    rewrite forallb_forall in Hall.
    assert (Hin : In d (x2' ++ [d] ++ k)%list).
    { apply in_or_app. right. left. reflexivity. }
    rewrite <- app_assoc in Hall. apply Hall in Hin. rewrite Hd in Hin.
    discriminate Hin.
  - apply existsb_exists in Hex as (c & Hin & Hc).
    apply Matches_accepted in Hfit. rewrite Forall_forall in Hfit.
    rewrite Hfit in Hc; [discriminate |].
    apply list_elem_of_In. apply in_or_app. right. apply in_or_app. left.
    exact Hin.
Qed.

(** ** The passes of the redaction chain *)

Lemma delimited_match_ends (body : regex) (by_ : list ascii) :
  all_classes body = true ->
  (forall w, fits body w ->
             is_word_opt (head w) = true /\ is_word_opt (last w) = true) ->
  is_word_opt (head by_) = true -> is_word_opt (last by_) = true ->
  forall prev m rest,
    m <> [] ->
    match_at (WordBoundary :: body ++ [WordBoundary]) prev (m ++ rest)
    = Some (length m) ->
    is_word_opt (head m) = is_word_opt (head by_)
    /\ is_word_opt (last m) = is_word_opt (last by_).
Proof.
  intros Hcls Hends Hh Hl prev m rest _ Hmatch.
  rewrite Hh, Hl. exact (match_word_ends body Hcls Hends prev m rest Hmatch).
Qed.

Lemma spaces_match_ends (prev : option ascii) (m rest : list ascii) :
  m <> [] ->
  match_at RE_SPACES prev (m ++ rest) = Some (length m) ->
  is_word_opt (head m) = is_word_opt (head (chars " "))
  /\ is_word_opt (last m) = is_word_opt (last (chars " ")).
Proof.
  intros Hm Hmatch.
  apply match_at_sound in Hmatch as (m' & rest' & Heq & Hlen & HM).
  apply app_inj_1 in Heq as [-> _]; [| congruence].
  inversion HM as [| | cls min max re prev' m1 m2 rest'' Hcls _ HM']; subst.
  inversion HM'; subst. rewrite app_nil_r in *.
  rewrite forallb_forall in Hcls.
  assert (Hall : forall c, In c m1 -> is_word c = false).
  { intros c Hc. apply space_not_word, Hcls, Hc. }
  split.
  - destruct m1 as [| c m1]; [congruence |]. simpl. apply Hall. left.
    reflexivity.
  - destruct (@exists_last _ m1 Hm) as (m1' & c & ->). rewrite last_snoc.
    simpl. apply Hall, in_or_app. right. left. reflexivity.
Qed.

Lemma USER_ID_start w :
  fits USER_ID_body w -> exists c w', w = c :: w' /\ ichar "u" c = true.
Proof. apply Matches_head. Qed.

Lemma UUID_start w :
  fits UUID_body w -> exists c w', w = c :: w' /\ is_hex c = true.
Proof. apply Matches_head. Qed.

Lemma HEX32_start w :
  fits HEX32_body w -> exists c w', w = c :: w' /\ is_hex c = true.
Proof. apply Matches_head. Qed.

Lemma USER_ID_final w :
  fits USER_ID_body w -> exists w' d, w = w' ++ [d] /\ is_digit d = true.
Proof.
  intros H.
  change USER_ID_body
    with ([one (ichar "u"); one (ichar "s"); one (ichar "e");
           one (ichar "r"); one (lit "-")] ++ [Class is_digit 1 None]) in H.
  exact (Matches_last _ _ _ _ _ _ _ H).
Qed.

Lemma displayName_ok (userId : option string) :
  name_ok (chars (default "there" (fakeDisplayName userId))) = true.
Proof.
  assert (Hnames : forall i j : nat,
            (i < 10)%nat -> (j < 10)%nat ->
            name_ok (chars (nth i FIRST_NAMES "" +:+ " "
                            +:+ nth j LAST_NAMES ""))%string = true).
  { intros i j Hi Hj.
    do 10 (destruct i as [| i];
           [do 10 (destruct j as [| j]; [vm_compute; reflexivity |]); lia |]).
    lia. }
  destruct userId as [u |]; [| vm_compute; reflexivity].
  unfold fakeDisplayName. destruct (String.eqb u ""); [vm_compute; reflexivity |].
  cbn [default]. apply Hnames.
  - pose proof (Z.mod_pos_bound (name_hash u) 10 ltac:(lia)). lia.
  - pose proof (Z.mod_pos_bound (name_hash u / 10) 10 ltac:(lia)). lia.
Qed.

Lemma name_ok_nonempty by_ : name_ok by_ = true -> by_ <> [].
Proof. intros H ->. discriminate H. Qed.


(** *** User ids *)

Lemma user_pass (name s : list ascii) :
  name_ok name = true ->
  free_of USER_ID_body (replace_all RE_USER_ID name s).
Proof.
  intros Hok. pose proof (name_ok_nonempty name Hok) as Hne.
  unfold name_ok in Hok.
  apply andb_true_iff in Hok as [Hok Hinner].
  apply andb_true_iff in Hok as [Hok Hnodigit].
  apply andb_true_iff in Hok as [Hok Hother].
  apply andb_true_iff in Hok as [Hh Hl].
  apply (pass_establishes RE_USER_ID name USER_ID_body (ichar "u")).
  - reflexivity.
  - exact Hne.
  - apply (delimited_match_ends USER_ID_body); auto using USER_ID_word_ends.
  - reflexivity.
  - exact USER_ID_word_ends.
  - exact USER_ID_start.
  - exact Hinner.
  - exact (by_not_in_word_chars USER_ID_body name is_digit Hother Hnodigit
             USER_ID_final).
  - reflexivity.
Qed.

Ltac pass_side_conditions :=
  first
    [ reflexivity
    | discriminate
    | exact USER_ID_word_ends | exact UUID_word_ends | exact HEX32_word_ends
    | exact USER_ID_start | exact UUID_start | exact HEX32_start
    | exact spaces_match_ends
    | first [ apply (delimited_match_ends USER_ID_body)
            | apply (delimited_match_ends UUID_body)
            | apply (delimited_match_ends HEX32_body)
            | apply (delimited_match_ends ORDER_HEX_body) ];
      first [ reflexivity | exact USER_ID_word_ends | exact UUID_word_ends
            | exact HEX32_word_ends | exact ORDER_HEX_word_ends ]
    | eapply by_not_in_word_head; reflexivity ].

Lemma user_kept_by_uuid_pass s :
  free_of USER_ID_body s ->
  free_of USER_ID_body (replace_all RE_UUID YOUR_ORDER s).
Proof.
  apply (pass_preserves RE_UUID YOUR_ORDER USER_ID_body (ichar "u"));
    pass_side_conditions.
Qed.

Lemma user_kept_by_hex32_pass s :
  free_of USER_ID_body s ->
  free_of USER_ID_body (replace_all RE_HEX32 YOUR_ORDER s).
Proof.
  apply (pass_preserves RE_HEX32 YOUR_ORDER USER_ID_body (ichar "u"));
    pass_side_conditions.
Qed.

Lemma user_kept_by_order_pass s :
  free_of USER_ID_body s ->
  free_of USER_ID_body (replace_all RE_ORDER_HEX ORDER s).
Proof.
  apply (pass_preserves RE_ORDER_HEX ORDER USER_ID_body (ichar "u"));
    pass_side_conditions.
Qed.

Lemma user_kept_by_spaces_pass s :
  free_of USER_ID_body s ->
  free_of USER_ID_body (replace_all RE_SPACES SPACE s).
Proof.
  apply (pass_preserves RE_SPACES SPACE USER_ID_body (ichar "u"));
    pass_side_conditions.
Qed.

(** *** UUIDs *)

Lemma uuid_pass s : free_of UUID_body (replace_all RE_UUID YOUR_ORDER s).
Proof.
  apply (pass_establishes RE_UUID YOUR_ORDER UUID_body is_hex);
    pass_side_conditions.
Qed.

Lemma uuid_kept_by_hex32_pass s :
  free_of UUID_body s -> free_of UUID_body (replace_all RE_HEX32 YOUR_ORDER s).
Proof.
  apply (pass_preserves RE_HEX32 YOUR_ORDER UUID_body is_hex);
    pass_side_conditions.
Qed.

Lemma uuid_kept_by_order_pass s :
  free_of UUID_body s -> free_of UUID_body (replace_all RE_ORDER_HEX ORDER s).
Proof.
  apply (pass_preserves RE_ORDER_HEX ORDER UUID_body is_hex);
    pass_side_conditions.
Qed.

Lemma uuid_kept_by_spaces_pass s :
  free_of UUID_body s -> free_of UUID_body (replace_all RE_SPACES SPACE s).
Proof.
  apply (pass_preserves RE_SPACES SPACE UUID_body is_hex);
    pass_side_conditions.
Qed.

(** *** Identifiers of 32 hex digits *)

Lemma hex32_pass s : free_of HEX32_body (replace_all RE_HEX32 YOUR_ORDER s).
Proof.
  apply (pass_establishes RE_HEX32 YOUR_ORDER HEX32_body is_hex);
    pass_side_conditions.
Qed.

Lemma hex32_kept_by_order_pass s :
  free_of HEX32_body s -> free_of HEX32_body (replace_all RE_ORDER_HEX ORDER s).
Proof.
  apply (pass_preserves RE_ORDER_HEX ORDER HEX32_body is_hex);
    pass_side_conditions.
Qed.

Lemma hex32_kept_by_spaces_pass s :
  free_of HEX32_body s -> free_of HEX32_body (replace_all RE_SPACES SPACE s).
Proof.
  apply (pass_preserves RE_SPACES SPACE HEX32_body is_hex);
    pass_side_conditions.
Qed.

(** ** Trimming *)

Lemma drop_space_split (s : list ascii) :
  exists l, s = l ++ drop_space s /\ forallb is_space l = true.
Proof.
  induction s as [| c s (l & IH & Hl)].
  - exists []. split; reflexivity.
  - simpl. destruct (is_space c) eqn:E.
    + exists (c :: l). simpl. rewrite E, Hl. split; [congruence | reflexivity].
    + exists []. split; reflexivity.
Qed.

Lemma drop_space_head (s : list ascii) (c : ascii) :
  head (drop_space s) = Some c -> is_space c = false.
Proof.
  induction s as [| d s IH]; [discriminate |].
  simpl. destruct (is_space d) eqn:E; [exact IH |].
  intros [= <-]. exact E.
Qed.

(** The trimmed text is the text without some white space at its two
    ends. *)
Lemma trim_chars_split (s : list ascii) :
  exists l r,
    s = l ++ trim_chars s ++ r
    /\ forallb is_space l = true /\ forallb is_space r = true.
Proof.
  unfold trim_chars.
  destruct (drop_space_split s) as (l & Hs & Hl).
  destruct (drop_space_split (rev (drop_space s))) as (r & Hr & Hrs).
  exists l, (rev r). split; [| split; [exact Hl |]].
  - rewrite <- rev_app_distr, <- Hr, rev_involutive. exact Hs.
  - rewrite forallb_forall in *. intros c Hc. apply Hrs.
    apply in_rev. exact Hc.
Qed.

Lemma spaces_last_not_word (l : list ascii) :
  forallb is_space l = true -> is_word_opt (last l) = false.
Proof.
  intros H. destruct (last l) as [c |] eqn:E; [| reflexivity].
  simpl. apply space_not_word. rewrite forallb_forall in H. apply H.
  apply last_Some in E as (l' & ->). apply in_or_app. right. left.
  reflexivity.
Qed.

Lemma spaces_head_not_word (l : list ascii) :
  forallb is_space l = true -> is_word_opt (head l) = false.
Proof.
  destruct l as [| c l]; [reflexivity |]. simpl.
  intros H. apply andb_true_iff in H as [H _]. apply space_not_word, H.
Qed.

(** White space around a text adds no delimited word. *)
Lemma delimited_within_spaces (P : list ascii -> Prop) (l mid r : list ascii) :
  forallb is_space l = true -> forallb is_space r = true ->
  delimited P None mid -> delimited P None (l ++ mid ++ r).
Proof.
  intros Hl Hr (pre & w & rest & -> & HP & Hbefore & Hafter).
  exists (l ++ pre), w, (rest ++ r). rewrite <- !app_assoc.
  split; [reflexivity |]. split; [exact HP |]. split.
  - rewrite ctx_last_app. destruct pre as [| c pre].
    + rewrite ctx_last_nil. unfold ctx_last.
      pose proof (spaces_last_not_word l Hl) as H.
      destruct (last l); [exact H | reflexivity].
    + rewrite ctx_last_nonempty in * by discriminate. exact Hbefore.
  - destruct rest as [| c rest]; [| exact Hafter].
    simpl. apply spaces_head_not_word, Hr.
Qed.

Lemma free_of_trim (body : regex) (s : list ascii) :
  free_of body s -> free_of body (trim_chars s).
Proof.
  intros Hfree H. apply Hfree.
  destruct (trim_chars_split s) as (l & r & Hs & Hl & Hr).
  rewrite Hs. apply delimited_within_spaces; assumption.
Qed.

(** ** White space *)

(** A quantified class at the end of a pattern takes the whole run. *)
Lemma match_class_greedy cls k min prev s :
  (forall p t, k p t = Some 0%nat) ->
  match_class cls k min None prev s
  = if (min <=? run_length cls s)%nat then Some (run_length cls s) else None.
Proof.
  intros Hk. revert min prev.
  induction s as [| c s IH]; intros min prev.
  - simpl. destruct min; [apply Hk | reflexivity].
  - cbn [match_class run_length]. destruct (cls c) eqn:E; cbn [andb may_take].
    + rewrite IH. destruct min as [| min]; cbn [Nat.pred].
      * reflexivity.
      * destruct (Nat.leb_spec min (run_length cls s)) as [Hle | Hgt].
        -- destruct (Nat.leb_spec (S min) (S (run_length cls s))); [reflexivity | lia].
        -- destruct (Nat.leb_spec (S min) (S (run_length cls s))); [lia | reflexivity].
    + destruct min; [apply Hk | reflexivity].
Qed.

Lemma match_spaces prev s :
  match_at RE_SPACES prev s
  = if (2 <=? run_length is_space s)%nat
    then Some (run_length is_space s) else None.
Proof.
  unfold RE_SPACES, at_least. cbn [match_at].
  apply match_class_greedy. reflexivity.
Qed.

Lemma run_length_app cls (m rest : list ascii) :
  run_length cls (m ++ rest) = length m ->
  is_space_opt (head rest) = true -> cls = is_space -> False.
Proof.
  intros H Hr ->. induction m as [| c m IH]; simpl in H.
  - destruct rest as [| c rest]; [discriminate |]. simpl in *.
    rewrite Hr in H. discriminate.
  - destruct (is_space c); [| discriminate]. apply IH. congruence.
Qed.

Lemma no_space_pair_cons (a b : ascii) (tl : list ascii) :
  no_space_pair (a :: b :: tl)
  = negb (is_space a && is_space b) && no_space_pair (b :: tl).
Proof. reflexivity. Qed.

Lemma Rw_spaces prev s o :
  Rw RE_SPACES SPACE prev s o ->
  no_space_pair o = true
  /\ (is_space_opt (head o) = true -> is_space_opt (head s) = true).
Proof.
  induction 1 as [prev | prev c s o Hnone _ [IH1 IH2]
                  | prev m rest o Hm Hmatch _ [IH1 IH2]].
  - split; [reflexivity | auto].
  - split; [| auto].
    destruct o as [| d o]; [reflexivity |].
    rewrite no_space_pair_cons, IH1, andb_true_r.
    destruct (is_space c) eqn:Ec; [| reflexivity].
    destruct (is_space d) eqn:Ed; [| reflexivity].
    exfalso. rewrite match_spaces in Hnone. cbn [run_length] in Hnone.
    rewrite Ec in Hnone. specialize (IH2 Ed).
    destruct s as [| c' s]; [discriminate |]. simpl in IH2.
    cbn [run_length] in Hnone. rewrite IH2 in Hnone. discriminate.
  - rewrite match_spaces in Hmatch.
    destruct (2 <=? run_length is_space (m ++ rest))%nat; [| discriminate].
    injection Hmatch as Hrun.
    assert (Hrest : is_space_opt (head rest) = false).
    { destruct (is_space_opt (head rest)) eqn:E; [| reflexivity].
      exfalso. exact (run_length_app is_space m rest Hrun E eq_refl). }
    split.
    + change (SPACE ++ o) with (" "%char :: o).
      destruct o as [| d o]; [reflexivity |].
      rewrite no_space_pair_cons, IH1, andb_true_r.
      destruct (is_space d) eqn:Ed; [| reflexivity].
      rewrite (IH2 Ed) in Hrest. discriminate.
    + intros _. destruct m as [| c m]; [congruence |].
      simpl in *. destruct (is_space c); [reflexivity | discriminate].
Qed.

Lemma spaces_pass_no_pair (s : list ascii) :
  no_space_pair (replace_all RE_SPACES SPACE s) = true.
Proof.
  apply (Rw_spaces None s). apply replace_all_Rw. reflexivity.
Qed.

Lemma no_space_pair_app (l r : list ascii) :
  no_space_pair (l ++ r) = true ->
  no_space_pair l = true /\ no_space_pair r = true.
Proof.
  induction l as [| a l IH]; intros H; [split; [reflexivity | exact H] |].
  destruct l as [| b l].
  - split; [reflexivity |]. destruct r as [| c r]; [reflexivity |].
    simpl in H. apply andb_true_iff in H as [_ H]. exact H.
  - cbn [app] in *. rewrite no_space_pair_cons in *.
    apply andb_true_iff in H as [H1 H2].
    destruct (IH H2) as [IHl IHr]. rewrite H1, IHl. auto.
Qed.

Lemma no_space_pair_trim (s : list ascii) :
  no_space_pair s = true -> no_space_pair (trim_chars s) = true.
Proof.
  intros H. destruct (trim_chars_split s) as (l & r & Hs & _ & _).
  rewrite Hs in H. apply no_space_pair_app in H as [_ H].
  apply no_space_pair_app in H as [H _]. exact H.
Qed.

Lemma last_rev_head (l : list ascii) : last (rev l) = head l.
Proof.
  destruct l as [| c l]; [reflexivity |]. simpl. apply last_snoc.
Qed.

(** A trimmed text neither starts nor ends with white space. *)
Lemma trim_chars_ends (s : list ascii) :
  is_space_opt (head (trim_chars s)) = false
  /\ is_space_opt (last (trim_chars s)) = false.
Proof.
  unfold trim_chars.
  set (t := drop_space s). set (u := drop_space (rev t)).
  assert (Hu : is_space_opt (head u) = false).
  { destruct (head u) as [c |] eqn:E; [| reflexivity].
    simpl. exact (drop_space_head _ _ E). }
  assert (Ht : is_space_opt (head t) = false).
  { destruct (head t) as [c |] eqn:E; [| reflexivity].
    simpl. exact (drop_space_head _ _ E). }
  split.
  - destruct (drop_space_split (rev t)) as (l & Hl & Hsp). fold u in Hl.
    destruct u as [| c u]; [reflexivity |].
    assert (Hrev : t = rev (c :: u) ++ rev l).
    { rewrite <- rev_app_distr, <- Hl, rev_involutive. reflexivity. }
    rewrite Hrev, head_app in Ht.
    destruct (head (rev (c :: u))) eqn:E; [exact Ht |].
    apply head_None in E. apply (f_equal (@length ascii)) in E.
    rewrite length_rev in E. discriminate E.
  - rewrite last_rev_head. exact Hu.
Qed.

(** ** The phrase that stands for an identifier stays *)

Section Containment.

Variable re : regex.
Variable by_ : list ascii.

Lemma Rw_step_keep prev c s o :
  Rw re by_ prev (c :: s) o ->
  match_at re prev (c :: s) = None ->
  exists o', o = c :: o' /\ Rw re by_ (Some c) s o'.
Proof.
  intros H Hnone. remember (c :: s) as t eqn:Ht.
  destruct H as [prev | prev c' s' o' _ HRw | prev m rest o' Hm Hmatch HRw].
  - discriminate Ht.
  - injection Ht as -> ->. exists o'. split; [reflexivity | exact HRw].
  - congruence.
Qed.

Lemma Rw_step prev c s o :
  Rw re by_ prev (c :: s) o ->
  (exists o', o = c :: o' /\ Rw re by_ (Some c) s o')
  \/ (exists o', o = by_ ++ o').
Proof.
  intros H. remember (c :: s) as t eqn:Ht.
  destruct H as [prev | prev c' s' o' _ HRw | prev m rest o' Hm Hmatch HRw].
  - discriminate Ht.
  - injection Ht as -> ->. left. exists o'. split; [reflexivity | exact HRw].
  - right. exists o'. reflexivity.
Qed.

(** The characters of a match are of the class [C], and the first
    character of [sub] is not: no match runs into [sub]. *)
Variable C : ascii -> bool.
Hypothesis match_chars :
  forall prev m rest,
    m <> [] -> match_at re prev (m ++ rest) = Some (length m) ->
    forallb C m = true.

Lemma Rw_consume prev s o :
  Rw re by_ prev s o ->
  forall pre b sub rest,
    s = pre ++ (b :: sub) ++ rest -> C b = false ->
    exists o1 o2,
      o = o1 ++ o2 /\ Rw re by_ (ctx_last prev pre) ((b :: sub) ++ rest) o2.
Proof.
  induction 1 as [prev | prev c s o Hnone HRw IH | prev m rest' o Hm Hmatch HRw IH];
    intros pre b sub rest Hs Hb.
  - destruct pre; discriminate.
  - destruct pre as [| c' pre].
    + exists [], (c :: o). split; [reflexivity |]. simpl in Hs.
      injection Hs as -> ->. rewrite ctx_last_nil. simpl.
      constructor; assumption.
    + injection Hs as <- ->.
      destruct (IH pre b sub rest eq_refl Hb) as (o1 & o2 & -> & H2).
      exists (c :: o1), o2. rewrite ctx_last_cons.
      split; [reflexivity | exact H2].
  - apply app_eq_inv in Hs as [(k & -> & Hk) | (k & -> & ->)].
    + destruct k as [| ck k].
      * rewrite app_nil_r in *. simpl in Hk. subst rest'.
        exists by_, o. split; [reflexivity | exact HRw].
      * exfalso. injection Hk as <- _.
        pose proof (match_chars prev _ rest' Hm Hmatch) as Hall.
        rewrite forallb_app in Hall. apply andb_true_iff in Hall as [_ Hall].
        simpl in Hall. rewrite Hb in Hall. discriminate Hall.
    + destruct (IH k b sub rest eq_refl Hb) as (o1 & o2 & -> & H2).
      exists (by_ ++ o1), o2. rewrite ctx_last_app, <- app_assoc.
      split; [reflexivity | exact H2].
Qed.

(** When the scan of a text that starts with [sub] keeps [sub], so does
    the scan of a text that holds [sub]. *)
Lemma Rw_contains (b : ascii) (sub : list ascii) :
  C b = false ->
  (forall prev rest o,
     Rw re by_ prev ((b :: sub) ++ rest) o -> contains (b :: sub) o) ->
  forall prev s o,
    Rw re by_ prev s o -> contains (b :: sub) s -> contains (b :: sub) o.
Proof.
  intros Hb Hwalk prev s o HRw (l & r & Hs).
  destruct (Rw_consume prev s o HRw l b sub r Hs Hb) as (o1 & o2 & -> & H2).
  destruct (Hwalk _ _ _ H2) as (l' & r' & ->).
  exists (o1 ++ l'), r'. rewrite <- app_assoc. reflexivity.
Qed.

End Containment.

Lemma order_no_match_first prev c s :
  ichar "o" c = false -> match_at RE_ORDER_HEX prev (c :: s) = None.
Proof.
  intros H. unfold RE_ORDER_HEX, one. cbn [match_at].
  destruct (at_boundary prev (c :: s)); [| reflexivity].
  cbn [match_class]. rewrite H. reflexivity.
Qed.

Lemma order_no_match_in_word prev c s :
  is_word_opt prev = true -> is_word c = true ->
  match_at RE_ORDER_HEX prev (c :: s) = None.
Proof.
  intros Hp Hc. unfold RE_ORDER_HEX. cbn [match_at].
  unfold at_boundary. cbn [head is_word_opt]. rewrite Hp, Hc. reflexivity.
Qed.

Lemma order_match_chars prev m rest :
  m <> [] -> match_at RE_ORDER_HEX prev (m ++ rest) = Some (length m) ->
  forallb (accepted ORDER_HEX_body) m = true.
Proof.
  intros _ Hmatch.
  apply match_at_sound in Hmatch as (m' & rest' & Heq & Hlen & HM).
  apply app_inj_1 in Heq as [-> _]; [| congruence].
  rewrite RE_ORDER_HEX_body in HM.
  apply (delimited_match ORDER_HEX_body eq_refl ORDER_HEX_word_ends) in HM
    as (Hfit & _).
  apply Matches_accepted in Hfit. apply forallb_forall. intros c Hc.
  rewrite Forall_forall in Hfit. apply Hfit, list_elem_of_In, Hc.
Qed.

Lemma order_pass_walk prev rest o :
  Rw RE_ORDER_HEX ORDER prev (YOUR_ORDER ++ rest) o -> contains YOUR_ORDER o.
Proof.
  intros H. cbn [list_ascii_of_string app] in H.
  apply Rw_step_keep in H as (o1 & -> & H);
    [| apply order_no_match_first; reflexivity].
  apply Rw_step_keep in H as (o2 & -> & H);
    [| apply order_no_match_in_word; reflexivity].
  apply Rw_step_keep in H as (o3 & -> & H);
    [| apply order_no_match_in_word; reflexivity].
  apply Rw_step_keep in H as (o4 & -> & H);
    [| apply order_no_match_in_word; reflexivity].
  apply Rw_step_keep in H as (o5 & -> & H);
    [| apply order_no_match_first; reflexivity].
  apply Rw_step in H as [(o6 & -> & H) | (o6 & ->)].
  - apply Rw_step_keep in H as (o7 & -> & H);
      [| apply order_no_match_in_word; reflexivity].
    apply Rw_step_keep in H as (o8 & -> & H);
      [| apply order_no_match_in_word; reflexivity].
    apply Rw_step_keep in H as (o9 & -> & H);
      [| apply order_no_match_in_word; reflexivity].
    apply Rw_step_keep in H as (o10 & -> & H);
      [| apply order_no_match_in_word; reflexivity].
    exists [], o10. reflexivity.
  - exists [], o6. reflexivity.
Qed.

Lemma order_pass_keeps s :
  contains YOUR_ORDER s ->
  contains YOUR_ORDER (replace_all RE_ORDER_HEX ORDER s).
Proof.
  apply (Rw_contains RE_ORDER_HEX ORDER (accepted ORDER_HEX_body)
           order_match_chars "y"%char (chars "our order") eq_refl
           order_pass_walk None s).
  apply replace_all_Rw. reflexivity.
Qed.

Lemma spaces_match_chars prev m rest :
  m <> [] -> match_at RE_SPACES prev (m ++ rest) = Some (length m) ->
  forallb is_space m = true.
Proof.
  intros _ Hmatch.
  apply match_at_sound in Hmatch as (m' & rest' & Heq & Hlen & HM).
  apply app_inj_1 in Heq as [-> _]; [| congruence].
  inversion HM as [| | cls min max re prev' m1 m2 rest'' Hcls _ HM']; subst.
  inversion HM'; subst. rewrite app_nil_r. exact Hcls.
Qed.

Lemma spaces_pass_walk prev rest o :
  Rw RE_SPACES SPACE prev (YOUR_ORDER ++ rest) o -> contains YOUR_ORDER o.
Proof.
  intros H. cbn [list_ascii_of_string app] in H.
  do 10 (apply Rw_step_keep in H as (? & -> & H);
         [| rewrite match_spaces; reflexivity]).
  eexists [], _. reflexivity.
Qed.

Lemma spaces_pass_keeps s :
  contains YOUR_ORDER s ->
  contains YOUR_ORDER (replace_all RE_SPACES SPACE s).
Proof.
  apply (Rw_contains RE_SPACES SPACE is_space
           spaces_match_chars "y"%char (chars "our order") eq_refl
           spaces_pass_walk None s).
  apply replace_all_Rw. reflexivity.
Qed.

Lemma drop_space_keeps (b : ascii) (sub l r : list ascii) :
  is_space b = false ->
  exists l', drop_space (l ++ (b :: sub) ++ r) = l' ++ (b :: sub) ++ r.
Proof.
  intros Hb. induction l as [| c l (l' & IH)].
  - exists []. simpl. rewrite Hb. reflexivity.
  - simpl. destruct (is_space c).
    + exists l'. exact IH.
    + exists (c :: l). reflexivity.
Qed.

Lemma trim_keeps (sub s : list ascii) :
  is_space_opt (head sub) = false -> is_space_opt (last sub) = false ->
  sub <> [] ->
  contains sub s -> contains sub (trim_chars s).
Proof.
  intros Hh Hl Hne (l & r & ->). unfold trim_chars.
  destruct sub as [| b sub]; [congruence |]. simpl in Hh.
  destruct (drop_space_keeps b sub l r Hh) as (l' & ->).
  rewrite !rev_app_distr, <- app_assoc.
  destruct (@exists_last _ (b :: sub) Hne) as (sub' & e & Hsub).
  rewrite Hsub in *. rewrite last_snoc in Hl. simpl in Hl.
  rewrite rev_app_distr. cbn [rev app].
  destruct (drop_space_keeps e (rev sub') (rev r) (rev l') Hl) as (r' & Hr).
  cbn [app] in Hr. rewrite Hr.
  exists l', (rev r'). rewrite !rev_app_distr. cbn [rev app].
  rewrite ?rev_app_distr, !rev_involutive, <- !app_assoc. reflexivity.
Qed.

(** ** The redaction chain as a whole *)

Lemma ctx_last_None (pre : list ascii) : ctx_last None pre = last pre.
Proof. unfold ctx_last. destruct (last pre); reflexivity. Qed.

Lemma free_of_matches (body : regex) (s : list ascii) :
  all_classes body = true ->
  (forall w, fits body w ->
             is_word_opt (head w) = true /\ is_word_opt (last w) = true) ->
  free_of body s <-> ~ matches_in (WordBoundary :: body ++ [WordBoundary]) s.
Proof.
  intros Hcls Hends. unfold free_of, matches_in.
  rewrite <- (occurs_delimited body Hcls Hends None s).
  split; intros H (pre & suf & Hs & Hocc); apply H; exists pre, suf;
    [rewrite ctx_last_None | rewrite <- ctx_last_None]; auto.
Qed.

Lemma free_of_user_id s : free_of USER_ID_body s <-> ~ matches_in RE_USER_ID s.
Proof. exact (free_of_matches USER_ID_body s eq_refl USER_ID_word_ends). Qed.

Lemma free_of_uuid s : free_of UUID_body s <-> ~ matches_in RE_UUID s.
Proof. exact (free_of_matches UUID_body s eq_refl UUID_word_ends). Qed.

Lemma free_of_hex32 s : free_of HEX32_body s <-> ~ matches_in RE_HEX32 s.
Proof. exact (free_of_matches HEX32_body s eq_refl HEX32_word_ends). Qed.

(** A pass leaves a text without a match as it is. *)
Lemma Rw_no_match re by_ prev s o :
  Rw re by_ prev s o ->
  (forall pre suf, s = pre ++ suf -> match_at re (ctx_last prev pre) suf = None) ->
  o = s.
Proof.
  induction 1 as [prev | prev c s o Hnone _ IH | prev m rest o Hm Hmatch _ _];
    intros Hfree.
  - reflexivity.
  - f_equal. apply IH. intros pre suf ->.
    rewrite <- (ctx_last_cons prev c pre). apply (Hfree (c :: pre) suf).
    reflexivity.
  - pose proof (Hfree [] (m ++ rest) eq_refl) as Hnone.
    rewrite ctx_last_nil in Hnone. congruence.
Qed.

Lemma replace_all_no_match re by_ s :
  takes_a_char re = true -> ~ matches_in re s -> replace_all re by_ s = s.
Proof.
  intros Ht Hfree. apply (Rw_no_match re by_ None s).
  - apply replace_all_Rw, Ht.
  - intros pre suf ->. rewrite ctx_last_None.
    destruct (match_at re (last pre) suf) eqn:E; [| reflexivity].
    exfalso. apply Hfree. exists pre, suf. split; [reflexivity | congruence].
Qed.

Lemma no_space_pair_no_match s :
  no_space_pair s = true -> ~ matches_in RE_SPACES s.
Proof.
  intros Hno (pre & suf & -> & Hocc). apply Hocc. rewrite match_spaces.
  apply no_space_pair_app in Hno as [_ Hno].
  destruct suf as [| a [| b suf]]; simpl.
  - reflexivity.
  - destruct (is_space a); reflexivity.
  - rewrite no_space_pair_cons in Hno. apply andb_true_iff in Hno as [Hno _].
    destruct (is_space a); [| reflexivity]. destruct (is_space b);
      [discriminate | reflexivity].
Qed.

Lemma drop_space_id s : is_space_opt (head s) = false -> drop_space s = s.
Proof.
  destruct s as [| c s]; [reflexivity |]. simpl. intros ->. reflexivity.
Qed.

Lemma head_rev_last (l : list ascii) : head (rev l) = last l.
Proof.
  rewrite <- (rev_involutive l) at 2. rewrite last_rev_head. reflexivity.
Qed.

Lemma trim_chars_id s :
  is_space_opt (head s) = false -> is_space_opt (last s) = false ->
  trim_chars s = s.
Proof.
  intros Hh Hl. unfold trim_chars. rewrite (drop_space_id s Hh).
  rewrite drop_space_id by (rewrite head_rev_last; exact Hl).
  apply rev_involutive.
Qed.

(** What the chain guarantees of its result, for any display name that
    the first pass may put in. *)
Lemma sanitize_chars_redacts (name base : list ascii) :
  name_ok name = true ->
  let out := sanitize_chars name base in
  ~ matches_in RE_USER_ID out
  /\ ~ matches_in RE_UUID out
  /\ ~ matches_in RE_HEX32 out
  /\ no_space_pair out = true
  /\ is_space_opt (head out) = false
  /\ is_space_opt (last out) = false
  /\ (matches_in RE_HEX32
        (replace_all RE_UUID YOUR_ORDER (replace_all RE_USER_ID name base)) ->
      contains YOUR_ORDER out).
Proof.
  intros Hname. unfold sanitize_chars.
  set (s1 := replace_all RE_USER_ID name base).
  set (s2 := replace_all RE_UUID YOUR_ORDER s1).
  set (s3 := replace_all RE_HEX32 YOUR_ORDER s2).
  set (s4 := replace_all RE_ORDER_HEX ORDER s3).
  set (s5 := replace_all RE_SPACES SPACE s4).
  cbv zeta. repeat split.
  - apply free_of_user_id, free_of_trim, user_kept_by_spaces_pass,
      user_kept_by_order_pass, user_kept_by_hex32_pass,
      user_kept_by_uuid_pass, user_pass, Hname.
  - apply free_of_uuid, free_of_trim, uuid_kept_by_spaces_pass,
      uuid_kept_by_order_pass, uuid_kept_by_hex32_pass, uuid_pass.
  - apply free_of_hex32, free_of_trim, hex32_kept_by_spaces_pass,
      hex32_kept_by_order_pass, hex32_pass.
  - apply no_space_pair_trim, spaces_pass_no_pair.
  - apply trim_chars_ends.
  - apply trim_chars_ends.
  - intros (pre & suf & Hs & Hocc).
    apply trim_keeps; [reflexivity | reflexivity | discriminate |].
    apply spaces_pass_keeps, order_pass_keeps.
    destruct (Rw_replaces RE_HEX32 YOUR_ORDER eq_refl None s2 s3) as (o1 & o2 & H).
    + apply replace_all_Rw. reflexivity.
    + exists pre, suf. rewrite ctx_last_None. auto.
    + exists o1, o2. exact H.
Qed.

(** A result of the chain with no match left for the order pattern is a
    fixed point of the chain. *)
Lemma sanitize_chars_fixed (name base : list ascii) :
  name_ok name = true ->
  ~ matches_in RE_ORDER_HEX (sanitize_chars name base) ->
  sanitize_chars name (sanitize_chars name base) = sanitize_chars name base.
Proof.
  intros Hname Horder.
  destruct (sanitize_chars_redacts name base Hname)
    as (Hu & Hd & Hh & Hpair & Hhead & Hlast & _).
  set (out := sanitize_chars name base) in *.
  unfold sanitize_chars at 1.
  rewrite (replace_all_no_match RE_USER_ID name out eq_refl Hu).
  rewrite (replace_all_no_match RE_UUID YOUR_ORDER out eq_refl Hd).
  rewrite (replace_all_no_match RE_HEX32 YOUR_ORDER out eq_refl Hh).
  rewrite (replace_all_no_match RE_ORDER_HEX ORDER out eq_refl Horder).
  rewrite (replace_all_no_match RE_SPACES SPACE out eq_refl
             (no_space_pair_no_match out Hpair)).
  apply trim_chars_id; assumption.
Qed.

Lemma sanitizeDraftResponse_chars (draft : value) (userId : option string) :
  chars (sanitizeDraftResponse draft userId)
  = sanitize_chars (chars (default "there"%string (fakeDisplayName userId)))
                   (chars (match draft with VStr s => s | _ => ""%string end)).
Proof.
  unfold sanitizeDraftResponse. apply list_ascii_of_string_of_list_ascii.
Qed.

(** C7, as the code has it.  For every draft and user id the result of
    [sanitizeDraftResponse] is what the five replacement passes and the
    final trim give, each pass putting its replacement (the display name
    or "there", "your order", "order", one space) in the place of every
    match its scan finds; in the result the user-id pattern, the pattern
    of UUIDs of versions 1 to 5 and the pattern of 32 hex digits, each
    between word boundaries, match nowhere; no two white-space characters
    stand side by side and none stands at either end; and the result
    holds "your order" whenever the pass for 32 hex digits finds an
    identifier, in particular for a draft that holds one and holds no
    user id and no UUID of versions 1 to 5. *)
Theorem sanitizeDraftResponse_redacts (draft : value) (userId : option string) :
  let out := chars (sanitizeDraftResponse draft userId) in
  let name := chars (default "there"%string (fakeDisplayName userId)) in
  let base := chars (match draft with VStr s => s | _ => ""%string end) in
  (exists s1 s2 s3 s4 s5,
     Rw RE_USER_ID name None base s1
     /\ Rw RE_UUID YOUR_ORDER None s1 s2
     /\ Rw RE_HEX32 YOUR_ORDER None s2 s3
     /\ Rw RE_ORDER_HEX ORDER None s3 s4
     /\ Rw RE_SPACES SPACE None s4 s5
     /\ out = trim_chars s5
     /\ (matches_in RE_HEX32 s2 -> contains YOUR_ORDER out))
  /\ ~ matches_in RE_USER_ID out
  /\ ~ matches_in RE_UUID out
  /\ ~ matches_in RE_HEX32 out
  /\ no_space_pair out = true
  /\ is_space_opt (head out) = false
  /\ is_space_opt (last out) = false
  /\ (~ matches_in RE_USER_ID base -> ~ matches_in RE_UUID base ->
      matches_in RE_HEX32 base -> contains YOUR_ORDER out).
Proof.
  cbv zeta. rewrite sanitizeDraftResponse_chars.
  set (name := chars (default "there"%string (fakeDisplayName userId))).
  set (base := chars (match draft with VStr s => s | _ => ""%string end)).
  pose proof (displayName_ok userId) as Hname. fold name in Hname.
  destruct (sanitize_chars_redacts name base Hname)
    as (Hu & Hd & Hh & Hpair & Hhead & Hlast & Hyour).
  split; [| repeat split; try assumption].
  - exists (replace_all RE_USER_ID name base),
      (replace_all RE_UUID YOUR_ORDER (replace_all RE_USER_ID name base)),
      (replace_all RE_HEX32 YOUR_ORDER
         (replace_all RE_UUID YOUR_ORDER (replace_all RE_USER_ID name base))),
      (replace_all RE_ORDER_HEX ORDER
         (replace_all RE_HEX32 YOUR_ORDER
            (replace_all RE_UUID YOUR_ORDER
               (replace_all RE_USER_ID name base)))),
      (replace_all RE_SPACES SPACE
         (replace_all RE_ORDER_HEX ORDER
            (replace_all RE_HEX32 YOUR_ORDER
               (replace_all RE_UUID YOUR_ORDER
                  (replace_all RE_USER_ID name base))))).
    repeat split; try (apply replace_all_Rw; reflexivity). exact Hyour.
  - intros Hnu Hnd Hocc. apply Hyour.
    rewrite (replace_all_no_match RE_USER_ID name base eq_refl Hnu).
    rewrite (replace_all_no_match RE_UUID YOUR_ORDER base eq_refl Hnd).
    exact Hocc.
Qed.

(** C7, as stated: a UUID of version 7 stays in the draft; an identifier
    of 32 digits after "user-" goes with the user id and no "your order"
    stands for it; and a run of 32 hex digits after another word
    character stays. *)
Lemma sanitizeDraftResponse_keeps_identifiers :
  uuid_shaped (chars "018f3b2a-7c1d-7abc-8def-0123456789ab") = true
  /\ sanitizeDraftResponse
       (VStr "Ref 018f3b2a-7c1d-7abc-8def-0123456789ab") None
     = "Ref 018f3b2a-7c1d-7abc-8def-0123456789ab"%string
  /\ sanitizeDraftResponse
       (VStr "user-01234567890123456789012345678901") None
     = "there"%string
  /\ sanitizeDraftResponse
       (VStr "0123456789abcdef0123456789abcdef g0123456789abcdef0123456789abcdef")
       None
     = "your order g0123456789abcdef0123456789abcdef"%string.
Proof.
  repeat split; vm_compute; reflexivity.
Qed.

(** A sanitised draft with no match left for the order pattern is
    sanitised to itself. *)
Lemma sanitizeDraftResponse_fixed (draft : value) (userId : option string) :
  ~ matches_in RE_ORDER_HEX (chars (sanitizeDraftResponse draft userId)) ->
  sanitizeDraftResponse (VStr (sanitizeDraftResponse draft userId)) userId
  = sanitizeDraftResponse draft userId.
Proof.
  intros Horder. rewrite sanitizeDraftResponse_chars in Horder.
  unfold sanitizeDraftResponse at 1.
  rewrite sanitizeDraftResponse_chars.
  rewrite sanitize_chars_fixed; [reflexivity | apply displayName_ok | exact Horder].
Qed.

(** ** Normalising a report twice *)

(** C8, as the code has it.  Normalising a normalised report again leaves
    every field other than draft_response as it is, the two
    recommendations included, and gives the same report exactly when
    sanitising the sanitised draft again gives the same text; it does so
    whenever the sanitised draft has no match left for the pattern of the
    word order followed by eight or more hex digits. *)
Theorem normalizeReportForUi_idempotent_iff
    (r : gmap string value) (u : option string) :
  let once := normalizeReportForUi r u in
  let twice := normalizeReportForUi once u in
  let draft := sanitizeDraftResponse (get r "draft_response") u in
  (forall k, k <> "draft_response" -> twice !! k = once !! k)
  /\ once !! "draft_response" = Some (VStr draft)
  /\ twice !! "draft_response"
     = Some (VStr (sanitizeDraftResponse (VStr draft) u))
  /\ (twice = once <-> sanitizeDraftResponse (VStr draft) u = draft)
  /\ (~ matches_in RE_ORDER_HEX (chars draft) -> twice = once)
  /\ (forall v, normalizeRecommendation (normalizeRecommendation v)
                = normalizeRecommendation v).
Proof.
  cbv zeta. rewrite normalizeReportForUi_twice_eq.
  assert (Hd : normalizeReportForUi r u !! "draft_response"
               = Some (VStr (sanitizeDraftResponse (get r "draft_response") u))).
  { unfold normalizeReportForUi. apply lookup_insert_eq. }
  split; [intros k Hk; rewrite lookup_insert_ne by congruence; reflexivity |].
  split; [exact Hd |].
  split; [apply lookup_insert_eq |].
  assert (Hiff : <["draft_response" :=
                     VStr (sanitizeDraftResponse
                             (VStr (sanitizeDraftResponse
                                      (get r "draft_response") u)) u)]>
                 (normalizeReportForUi r u) = normalizeReportForUi r u
                 <-> sanitizeDraftResponse
                       (VStr (sanitizeDraftResponse (get r "draft_response") u)) u
                     = sanitizeDraftResponse (get r "draft_response") u).
  { split.
    - intros H. apply (f_equal (fun m => m !! "draft_response")) in H.
      rewrite lookup_insert_eq, Hd in H. congruence.
    - intros ->. apply insert_id, Hd. }
  split; [exact Hiff |].
  split; [| exact normalizeRecommendation_idempotent].
  intros Horder. apply Hiff, sanitizeDraftResponse_fixed, Horder.
Qed.

(** C8, as stated: a draft that names two identifiers after the word
    order loses the first when it is normalised and the second when it is
    normalised again. *)
Lemma normalizeReportForUi_not_idempotent :
  let r := <["draft_response" := VStr "order deadbeef12 cafebabe12"]>
           DEFAULT_REPORT in
  normalizeReportForUi r None !! "draft_response"
  = Some (VStr "order cafebabe12")
  /\ normalizeReportForUi (normalizeReportForUi r None) None
     !! "draft_response" = Some (VStr "order")
  /\ normalizeReportForUi (normalizeReportForUi r None) None
     <> normalizeReportForUi r None.
Proof.
  cbv zeta.
  assert (H1 : normalizeReportForUi
                 (<["draft_response" := VStr "order deadbeef12 cafebabe12"]>
                    DEFAULT_REPORT) None !! "draft_response"
               = Some (VStr "order cafebabe12")).
  { unfold normalizeReportForUi. rewrite lookup_insert_eq, get_insert_eq.
    vm_compute. reflexivity. }
  assert (H2 : normalizeReportForUi
                 (normalizeReportForUi
                    (<["draft_response" := VStr "order deadbeef12 cafebabe12"]>
                       DEFAULT_REPORT) None) None !! "draft_response"
               = Some (VStr "order")).
  { unfold normalizeReportForUi at 1. rewrite lookup_insert_eq.
    unfold get at 1. rewrite H1. vm_compute. reflexivity. }
  split; [exact H1 |]. split; [exact H2 |].
  intros H. rewrite H, H1 in H2. discriminate H2.
Qed.

(** ** Worked drafts *)

Lemma any_match_spec (re : regex) (prev : option ascii) (s : list ascii) :
  any_match re prev s = true
  <-> exists pre suf, s = pre ++ suf
                      /\ match_at re (ctx_last prev pre) suf <> None.
Proof.
  revert prev. induction s as [| c s IH]; intros prev.
  - cbn [any_match]. split.
    + intros H. exists [], []. split; [reflexivity |].
      rewrite ctx_last_nil. destruct (match_at re prev []); congruence.
    + intros (pre & suf & Hs & Hocc). symmetry in Hs.
      apply app_eq_nil in Hs as [-> ->]. rewrite ctx_last_nil in Hocc.
      destruct (match_at re prev []); congruence.
  - cbn [any_match]. destruct (match_at re prev (c :: s)) eqn:E.
    + split; [| reflexivity]. intros _. exists [], (c :: s).
      rewrite ctx_last_nil. split; [reflexivity | congruence].
    + rewrite IH. split.
      * intros (pre & suf & -> & Hocc). exists (c :: pre), suf.
        rewrite ctx_last_cons. auto.
      * intros (pre & suf & Hs & Hocc). destruct pre as [| c' pre].
        -- simpl in Hs. subst suf. rewrite ctx_last_nil in Hocc. congruence.
        -- injection Hs as <- ->. rewrite ctx_last_cons in Hocc.
           exists pre, suf. auto.
Qed.

Lemma matches_in_test (re : regex) (s : list ascii) :
  matches_in re s <-> any_match re None s = true.
Proof.
  rewrite any_match_spec. unfold matches_in.
  split; intros (pre & suf & Hs & Hocc); exists pre, suf;
    [rewrite ctx_last_None | rewrite <- ctx_last_None]; auto.
Qed.

Lemma not_matches_in_test (re : regex) (s : list ascii) :
  any_match re None s = false -> ~ matches_in re s.
Proof.
  intros H Hm. apply matches_in_test in Hm. congruence.
Qed.

Example fakeDisplayName_user_42 :
  fakeDisplayName (Some "user-42"%string) = Some "Alex Foster"%string
  /\ fakeDisplayName (Some ""%string) = None
  /\ fakeDisplayName None = None.
Proof. repeat split; vm_compute; reflexivity. Qed.

Example sanitizeDraftResponse_sample :
  sanitizeDraftResponse
    (VStr "Hi user-123,   order 9f86d081884c7d659a2feaa0c55ad015 and ticket 3f2504e0-4f89-41d3-9a0c-0305e82c3301 are late. ")
    (Some "user-42"%string)
  = "Hi Alex Foster, order your order and ticket your order are late."%string.
Proof. vm_compute. reflexivity. Qed.

(** A draft with an identifier of 32 hex digits, no user id and no UUID. *)
Lemma sanitizeDraftResponse_redacts_witness :
  let draft := VStr "Order 9f86d081884c7d659a2feaa0c55ad015 is late" in
  let base := chars "Order 9f86d081884c7d659a2feaa0c55ad015 is late" in
  (~ matches_in RE_USER_ID base /\ ~ matches_in RE_UUID base
   /\ matches_in RE_HEX32 base)
  /\ contains YOUR_ORDER
       (chars (sanitizeDraftResponse draft (Some "user-42"%string))).
Proof.
  cbv zeta.
  assert (H1 : ~ matches_in RE_USER_ID
                 (chars "Order 9f86d081884c7d659a2feaa0c55ad015 is late")).
  { apply not_matches_in_test. vm_compute. reflexivity. }
  assert (H2 : ~ matches_in RE_UUID
                 (chars "Order 9f86d081884c7d659a2feaa0c55ad015 is late")).
  { apply not_matches_in_test. vm_compute. reflexivity. }
  assert (H3 : matches_in RE_HEX32
                 (chars "Order 9f86d081884c7d659a2feaa0c55ad015 is late")).
  { apply matches_in_test. vm_compute. reflexivity. }
  split; [auto |].
  destruct (sanitizeDraftResponse_redacts
              (VStr "Order 9f86d081884c7d659a2feaa0c55ad015 is late")
              (Some "user-42"%string))
    as (_ & _ & _ & _ & _ & _ & _ & H).
  exact (H H1 H2 H3).
Defined.

(** A report whose sanitised draft has nothing left for the order
    pattern. *)
Lemma normalizeReportForUi_idempotent_witness :
  let r := <["draft_response"%string :=
               VStr "Hi user-123, order 9f86d081884c7d659a2feaa0c55ad015 is late"]>
           DEFAULT_REPORT in
  let u := Some "user-42"%string in
  ~ matches_in RE_ORDER_HEX
      (chars (sanitizeDraftResponse (get r "draft_response"%string) u))
  /\ normalizeReportForUi (normalizeReportForUi r u) u
     = normalizeReportForUi r u.
Proof.
  cbv zeta.
  assert (H : ~ matches_in RE_ORDER_HEX
                (chars (sanitizeDraftResponse
                          (get (<["draft_response"%string :=
                                    VStr "Hi user-123, order 9f86d081884c7d659a2feaa0c55ad015 is late"]>
                                  DEFAULT_REPORT) "draft_response"%string)
                          (Some "user-42"%string)))).
  { rewrite get_insert_eq. apply not_matches_in_test. vm_compute.
    reflexivity. }
  split; [exact H |].
  destruct (normalizeReportForUi_idempotent_iff
              (<["draft_response"%string :=
                   VStr "Hi user-123, order 9f86d081884c7d659a2feaa0c55ad015 is late"]>
                 DEFAULT_REPORT) (Some "user-42"%string))
    as (_ & _ & _ & _ & Hfix & _).
  exact (Hfix H).
Defined.

(** * Further properties of the code *)

(** ** The timeline and the time of the last event *)

Lemma sort_insert_length {A : Type} (cmp : A -> A -> Z) (x : A) (l : list A) :
  length (sort_insert cmp x l) = S (length l).
Proof.
  induction l as [| y l IH]; cbn [sort_insert]; [reflexivity |].
  destruct (cmp x y <=? 0)%Z; cbn [length]; [reflexivity | rewrite IH; reflexivity].
Qed.

Lemma array_sort_length {A : Type} (cmp : A -> A -> Z) (l : list A) :
  length (array_sort cmp l) = length l.
Proof.
  induction l as [| x l IH]; [reflexivity |].
  cbn [array_sort fold_right]. rewrite sort_insert_length.
  fold (array_sort cmp l). rewrite IH. reflexivity.
Qed.

(** X2.  The timeline of a case has one event for the report and one for
    every regeneration, reply, operator action and rating, so it is never
    empty; the time of the last event that the detail route reports is
    the time of its first event, which is an event of the case that the
    comparator reads as no earlier than any other: the time of the status
    row and the time of the report stand in for it in no case. *)
Theorem last_event_is_first_of_timeline (timestamp : Type)
    (getTime : timestamp -> Z)
    (row : ReportRow timestamp)
    (regenerations : list (RegenerationRow timestamp))
    (replies : list (ReplyRow timestamp))
    (actions : list (ActionRow timestamp))
    (ratingsRows : list (RatingRow timestamp))
    (statusRow : option (StatusRow timestamp)) :
  let events := timeline_events timestamp row regenerations replies actions
                                ratingsRows in
  let tl := timeline timestamp getTime row regenerations replies actions
                     ratingsRows in
  length tl
  = (1 + length regenerations + length replies + length actions
     + length ratingsRows)%nat
  /\ exists e,
       head tl = Some e
       /\ In e events
       /\ last_event_at tl statusRow row = event_at e
       /\ forall e', In e' events ->
                     getTime (event_at e') <= getTime (event_at e).
Proof.
  cbv zeta. unfold timeline.
  set (events := timeline_events timestamp row regenerations replies actions
                                 ratingsRows).
  set (key := fun e : CaseEvent timestamp => getTime (event_at e)).
  change (compare_events timestamp getTime) with (by_key_desc key).
  pose proof (array_sort_length (by_key_desc key) events) as Hlen.
  pose proof (array_sort_perm (by_key_desc key) events) as Hperm.
  pose proof (array_sort_descending key events) as Hdesc.
  split.
  - rewrite Hlen. unfold events, timeline_events. cbn [length].
    rewrite !length_app, !length_map. lia.
  - destruct (array_sort (by_key_desc key) events) as [| e tl] eqn:E.
    + unfold events, timeline_events in Hlen. discriminate Hlen.
    + exists e. split; [reflexivity |].
      split; [apply (Permutation_in e Hperm); left; reflexivity |].
      split; [reflexivity |].
      intros e' He'. apply (Permutation_in e' (Permutation_sym Hperm)) in He'.
      destruct He' as [<- | He']; [lia |].
      unfold descending in Hdesc. apply StronglySorted_inv in Hdesc as [_ Hall].
      rewrite Forall_forall in Hall. apply (Hall e').
      apply list_elem_of_In, He'.
Qed.



(** ** The case state *)

Lemma is_true_VBool (b : bool) : is_true (VBool b) = b.
Proof. destruct b; reflexivity. Qed.

Lemma deriveCaseStatus_counts (status : value) (refund credit : bool)
    (a r g : nat) :
  deriveCaseStatus
    {| p_status := status;
       p_hasRefund := VBool refund;
       p_hasCredit := VBool credit;
       p_actionCount := VNum (num_of_Z (Z.of_nat a));
       p_replyCount := VNum (num_of_Z (Z.of_nat r));
       p_regenCount := VNum (num_of_Z (Z.of_nat g)) |}
  = if stored_status_is "blocked" status then blocked
    else if refund || credit || stored_status_is "done" status then done
    else if (0 <? a + r + g)%nat || stored_status_is "in_progress" status
    then in_progress
    else pending.
Proof.
  unfold deriveCaseStatus. cbn [p_status
      p_hasRefund p_hasCredit p_actionCount p_replyCount p_regenCount].
  unfold coalesce. cbn [nullish to_number]. rewrite gt_zero_sum3.
  destruct status; cbn [stored_status_is];
    destruct refund, credit; reflexivity.
Qed.

(** With the status that [deriveCaseStatus] gives and the flags it was
    given, the next action depends on the status and the reply flag
    alone. *)
Lemma next_action_by_status (params : StatusParams) (reply : bool) :
  let status := deriveCaseStatus params in
  let refund := is_true (p_hasRefund params) in
  let credit := is_true (p_hasCredit params) in
  (status = in_progress \/ status = pending -> refund = false /\ credit = false)
  /\ deriveNextAction
       {| caseStatus := status; hasReply := reply;
          hasRefund := refund; hasCredit := credit |}
     = next_action_of status reply.
Proof.
  cbv zeta. unfold deriveCaseStatus.
  destruct (match match p_status params with VStr s => Some s | _ => None end with
            | Some s => String.eqb s "blocked" | None => false end).
  - split; [intros [H | H]; discriminate H | reflexivity].
  - destruct (is_true (p_hasRefund params)), (is_true (p_hasCredit params));
      cbn [orb];
      try (split; [intros [H | H]; discriminate H | destruct reply; reflexivity]).
    match goal with
    | |- context [if ?c then done else _] => destruct c
    end.
    + split; [auto | destruct reply; reflexivity].
    + match goal with
      | |- context [if ?c then in_progress else _] => destruct c
      end; (split; [auto | destruct reply; reflexivity]).
Qed.

(** X4.  In the case state of the detail route and in that of every item
    of the list, a case that is in_progress or pending has no refund and
    no credit, so that the next action is determined by the status and by
    whether there is a reply: review_report when pending,
    investigate_blocker when blocked, monitor or send_customer_reply when
    done, apply_resolution_or_regenerate or continue_investigation when
    in_progress; send_customer_reply is never the next action of a case
    in progress. *)
Theorem next_action_from_status_and_reply (timestamp : Type) :
  (forall (actions : list (ActionRow timestamp))
          (replies : list (ReplyRow timestamp))
          (regenerations : list (RegenerationRow timestamp))
          (statusRow : option (StatusRow timestamp)),
     let cs := caseState actions replies regenerations statusRow in
     next_action cs = next_action_of (case_status cs) (has_reply cs)
     /\ (case_status cs = in_progress \/ case_status cs = pending ->
         has_refund cs = false /\ has_credit cs = false))
  /\ (forall r : RequestRow timestamp,
        let cs := itemCaseState r in
        item_next_action cs
        = next_action_of (item_case_status cs) (item_has_reply cs)
        /\ (item_case_status cs = in_progress \/ item_case_status cs = pending ->
            item_has_refund cs = false /\ item_has_credit cs = false)).
Proof.
  split.
  - intros actions replies regenerations statusRow. cbv zeta.
    unfold caseState. cbn [next_action case_status has_reply has_refund has_credit].
    match goal with
    | |- context [deriveCaseStatus ?p] =>
        pose proof (next_action_by_status p
          ((0 <? length replies)%nat
           || existsb (action_is timestamp "send_reply") actions)) as [H1 H2]
    end.
    cbv zeta in H1, H2. cbn [p_hasRefund p_hasCredit] in H1, H2.
    rewrite !is_true_VBool in H1, H2.
    split; [exact H2 | exact H1].
  - intros r. cbv zeta. unfold itemCaseState.
    cbn [item_next_action item_case_status item_has_reply item_has_refund
         item_has_credit].
    match goal with
    | |- context [deriveCaseStatus ?p] =>
        pose proof (next_action_by_status p (is_true (r_has_reply r))) as [H1 H2]
    end.
    cbv zeta in H1, H2. cbn [p_hasRefund p_hasCredit] in H1, H2.
    split; [exact H2 | exact H1].
Qed.

(** X5.  When the row of the list query holds the counts and flags of
    the rows the detail route reads, the item of the list and the detail
    show the same status, next action, flags and counts. *)
Theorem list_and_detail_agree (timestamp : Type) (r : RequestRow timestamp)
    (actions : list (ActionRow timestamp))
    (replies : list (ReplyRow timestamp))
    (regenerations : list (RegenerationRow timestamp))
    (statusRow : option (StatusRow timestamp)) :
  aggregates r actions replies regenerations statusRow ->
  let item := itemCaseState r in
  let cs := caseState actions replies regenerations statusRow in
  item_case_status item = case_status cs
  /\ item_next_action item = next_action cs
  /\ item_has_reply item = has_reply cs
  /\ item_has_refund item = has_refund cs
  /\ item_has_credit item = has_credit cs
  /\ item_action_count item = num_of_Z (Z.of_nat (action_count cs))
  /\ item_reply_count item = num_of_Z (Z.of_nat (reply_count cs))
  /\ item_regen_count item = num_of_Z (Z.of_nat (regen_count cs)).
Proof.
  intros (Ha & Hr & Hg & Hrefund & Hcredit & Hreply & Hstatus & _ & _).
  cbv zeta. unfold itemCaseState, caseState.
  cbn [item_case_status item_next_action item_has_reply item_has_refund
       item_has_credit item_action_count item_reply_count item_regen_count
       case_status next_action has_reply has_refund has_credit
       action_count reply_count regen_count].
  rewrite Ha, Hr, Hg, Hrefund, Hcredit, Hreply, Hstatus, !is_true_VBool.
  assert (Hst : forall hr hc a b c,
            deriveCaseStatus
              {| p_status := match statusRow with
                             | Some s => sr_status timestamp s
                             | None => VNull
                             end;
                 p_hasRefund := hr; p_hasCredit := hc;
                 p_actionCount := a; p_replyCount := b; p_regenCount := c |}
            = deriveCaseStatus
                {| p_status := match statusRow with
                               | Some s => sr_status timestamp s
                               | None => VUndefined
                               end;
                   p_hasRefund := hr; p_hasCredit := hc;
                   p_actionCount := a; p_replyCount := b; p_regenCount := c |}).
  { intros. destruct statusRow; reflexivity. }
  rewrite Hst. repeat split; reflexivity.
Qed.

(** A case with one refund, closed. *)
Lemma list_and_detail_agree_witness :
  let action := {| ac_action_type := VStr "apply_refund"; ac_created_at := 5;
                   ac_actor := VNull; ac_amount_usd := VNum (Fin 5);
                   ac_status := VStr "recorded" |} in
  let status := {| sr_status := VStr "done";
                   sr_last_action := VStr "apply_refund";
                   sr_updated_at := 6 |} in
  let r := {| r_ts := 1; r_report_source := VStr "sync";
              r_action_count := VNum (Fin 1); r_reply_count := VNum (Fin 0);
              r_regen_count := VNum (Fin 0);
              r_has_refund := VBool true; r_has_credit := VBool false;
              r_has_reply := VBool false;
              r_last_action_type := VStr "apply_refund";
              r_status := VStr "done"; r_last_action := VStr "apply_refund";
              r_last_event_at := Some 6 |} in
  aggregates r [action] [] [] (Some status)
  /\ item_case_status (itemCaseState r)
     = case_status (caseState [action] [] [] (Some status)).
Proof.
  cbv zeta.
  match goal with
  | |- ?A /\ _ => assert (H : A) by (repeat split; reflexivity)
  end.
  split; [exact H |].
  exact (proj1 (list_and_detail_agree Z _ _ _ _ _ H)).
Defined.

(** ** The display name *)

Lemma name_hash_range (u : string) : 0 <= name_hash u < 2 ^ 32.
Proof.
  unfold name_hash.
  assert (H : forall l h, 0 <= h < 2 ^ 32 ->
            0 <= fold_left (fun hash c => (hash * 31 + Z.of_N (code c)) mod 2 ^ 32)
                           l h < 2 ^ 32).
  { induction l as [| c l IH]; intros h Hh; [exact Hh |].
    cbn [fold_left]. apply IH. apply Z.mod_pos_bound. lia. }
  apply H. lia.
Qed.

(** X6.  [fakeDisplayName] gives no name exactly when the user id is
    null, undefined or the empty string; every name it gives is one of
    the ten first names, a space and one of the ten last names. *)
Theorem fakeDisplayName_from_lists (userId : option string) :
  (fakeDisplayName userId = None
   <-> userId = None \/ userId = Some ""%string)
  /\ (forall name : string,
        fakeDisplayName userId = Some name ->
        exists first last : string,
          In first FIRST_NAMES /\ In last LAST_NAMES
          /\ name = (first +:+ " " +:+ last)%string).
Proof.
  destruct userId as [u |]; cbn [fakeDisplayName].
  - destruct (String.eqb_spec u ""%string) as [-> | Hne].
    + split; [| discriminate]. split; auto.
    + split.
      * split; [discriminate |]. intros [H | H]; congruence.
      * intros name [= <-].
        pose proof (name_hash_range u) as Hh.
        exists (nth (Z.to_nat (name_hash u mod 10)) FIRST_NAMES ""%string),
          (nth (Z.to_nat ((name_hash u / 10) mod 10)) LAST_NAMES ""%string).
        split; [| split; [| reflexivity]].
        -- apply nth_In. change (length FIRST_NAMES) with 10%nat.
           pose proof (Z.mod_pos_bound (name_hash u) 10). lia.
        -- apply nth_In. change (length LAST_NAMES) with 10%nat.
           pose proof (Z.mod_pos_bound (name_hash u / 10) 10). lia.
  - split; [| discriminate]. split; auto.
Qed.

(** ** Drafts and reports *)

(** X7.  A draft in which none of the five patterns of the redaction
    chain matches and that has no white space at either end is returned
    as it is, whoever the user. *)
Theorem sanitizeDraftResponse_clean (draft : string) (userId : option string) :
  ~ matches_in RE_USER_ID (chars draft) ->
  ~ matches_in RE_UUID (chars draft) ->
  ~ matches_in RE_HEX32 (chars draft) ->
  ~ matches_in RE_ORDER_HEX (chars draft) ->
  ~ matches_in RE_SPACES (chars draft) ->
  is_space_opt (head (chars draft)) = false ->
  is_space_opt (last (chars draft)) = false ->
  sanitizeDraftResponse (VStr draft) userId = draft.
Proof.
  intros Hu Hd Hh Ho Hs Hhead Hlast.
  unfold sanitizeDraftResponse, sanitize_chars.
  rewrite (replace_all_no_match RE_USER_ID _ _ eq_refl Hu).
  rewrite (replace_all_no_match RE_UUID _ _ eq_refl Hd).
  rewrite (replace_all_no_match RE_HEX32 _ _ eq_refl Hh).
  rewrite (replace_all_no_match RE_ORDER_HEX _ _ eq_refl Ho).
  rewrite (replace_all_no_match RE_SPACES _ _ eq_refl Hs).
  rewrite (trim_chars_id _ Hhead Hlast).
  apply string_of_list_ascii_of_string.
Qed.

(** A draft with an amount and no identifier. *)
Lemma sanitizeDraftResponse_clean_witness :
  let draft := "Thanks for waiting, a refund of $5 is on its way."%string in
  (~ matches_in RE_USER_ID (chars draft)
   /\ ~ matches_in RE_UUID (chars draft)
   /\ ~ matches_in RE_HEX32 (chars draft)
   /\ ~ matches_in RE_ORDER_HEX (chars draft)
   /\ ~ matches_in RE_SPACES (chars draft))
  /\ sanitizeDraftResponse (VStr draft) (Some "user-42"%string) = draft.
Proof.
  cbv zeta.
  match goal with
  | |- ?A /\ _ =>
      assert (H : A)
        by (repeat split; apply not_matches_in_test; vm_compute; reflexivity)
  end.
  split; [exact H |].
  destruct H as (H1 & H2 & H3 & H4 & H5).
  exact (sanitizeDraftResponse_clean _ _ H1 H2 H3 H4 H5 eq_refl eq_refl).
Defined.

Lemma parseAgentReport_returns (JSON_parse : string -> option value) (v : value) :
  exists report,
    parseAgentReport JSON_parse v = Return report
    /\ (forall k, In k recognized_fields -> is_Some (report !! k)).
Proof.
  unfold parseAgentReport, parseAgentReport_try.
  destruct v as [| | b | n | s | l | m].
  1-4: (exists DEFAULT_REPORT; cbn; rewrite ?andb_false_r;
        split; [reflexivity | apply DEFAULT_REPORT_recognized]).
  - destruct (JSON_parse s) as [parsed |].
    + eexists. split; [reflexivity | intros k; apply spread_over_defaults].
    + exists DEFAULT_REPORT. split; [reflexivity | apply DEFAULT_REPORT_recognized].
  - eexists. split; [reflexivity | intros k; apply spread_over_defaults].
  - eexists. split; [reflexivity | intros k; apply spread_over_defaults].
Qed.

Lemma normalizeRecommendation_shape (v : value) :
  ui_recommendation (normalizeRecommendation v).
Proof.
  assert (Hobj : forall raw, ui_recommendation (normalizeRecommendation (VObj raw))).
  { intros raw. right. eexists. split; [apply normalizeRecommendation_obj |].
    split.
    - rewrite get_insert_ne by discriminate. rewrite get_insert_eq.
      destruct (first_some toNullableNumber (amount_candidates raw)) as [n |] eqn:E.
      + right. exists n. split; [reflexivity |].
        apply (first_some_finite _ _ E).
      + left. reflexivity.
    - rewrite get_insert_eq.
      destruct (List.find is_nonblank_string (reason_candidates raw)) as [r |] eqn:E.
      + cbn [from_option]. unfold coalesce, id.
        rewrite (nonblank_not_nullish r (find_some_nonblank _ _ E)).
        apply (nonblank_not_nullish r (find_some_nonblank _ _ E)).
      + cbn [from_option]. unfold coalesce, id. cbn [nullish].
        destruct (nullish (get raw "reason")) eqn:En; [reflexivity | exact En]. }
  destruct v as [| | b | n | s | l | m]; try (left; reflexivity).
  - left. unfold normalizeRecommendation. cbn. destruct b; reflexivity.
  - left. unfold normalizeRecommendation. cbn.
    rewrite orb_true_r. reflexivity.
  - left. unfold normalizeRecommendation. cbn.
    rewrite orb_true_r. reflexivity.
  - change (normalizeRecommendation (VArr l))
      with (normalizeRecommendation (VObj (own_props (VArr l)))).
    apply Hobj.
  - apply Hobj.
Qed.

Lemma sanitizeDraftResponse_redacted (draft : value) (userId : option string) :
  redacted (sanitizeDraftResponse draft userId).
Proof.
  unfold redacted. rewrite sanitizeDraftResponse_chars.
  destruct (sanitize_chars_redacts _
              (chars (match draft with VStr s => s | _ => ""%string end))
              (displayName_ok userId))
    as (Hu & Hd & Hh & Hpair & Hhead & Hlast & _).
  repeat split; assumption.
Qed.

Lemma normalizeReportForUi_ui_report (parsed : gmap string value)
    (userId : option string) :
  (forall k, In k recognized_fields -> is_Some (parsed !! k)) ->
  ui_report (normalizeReportForUi parsed userId).
Proof.
  intros Hfields. unfold ui_report, normalizeReportForUi.
  split; [| split; [| split]].
  - intros k Hk.
    destruct (decide (k = "draft_response"%string)) as [-> | H1];
      [rewrite lookup_insert_eq; eauto |].
    rewrite lookup_insert_ne by congruence.
    destruct (decide (k = "refund_recommendation"%string)) as [-> | H2];
      [rewrite lookup_insert_eq; eauto |].
    rewrite lookup_insert_ne by congruence.
    destruct (decide (k = "credit_recommendation"%string)) as [-> | H3];
      [rewrite lookup_insert_eq; eauto |].
    rewrite lookup_insert_ne by congruence. apply Hfields, Hk.
  - eexists. split; [apply lookup_insert_eq |].
    apply sanitizeDraftResponse_redacted.
  - eexists. split.
    + rewrite lookup_insert_ne by discriminate. apply lookup_insert_eq.
    + apply normalizeRecommendation_shape.
  - eexists. split.
    + rewrite lookup_insert_ne by discriminate.
      rewrite lookup_insert_ne by discriminate. apply lookup_insert_eq.
    + apply normalizeRecommendation_shape.
Qed.

(** X8.  The report the routes give the console, whatever the stored
    agent response and whatever [JSON.parse] makes of it: parsing returns
    a report, and the normalised report has every recognized field; its
    draft is a string with no user id, no UUID of versions 1 to 5 and no
    identifier of 32 hex digits left, single-spaced and trimmed; each of
    its two recommendations is null or an object whose amount is null or
    a finite number and whose reason is neither null nor undefined; every
    other field is as parsed. *)
Theorem report_for_ui (JSON_parse : string -> option value)
    (agent_response : value) (user_id : option string) :
  exists parsed,
    parseAgentReport JSON_parse agent_response = Return parsed
    /\ ui_report (normalizeReportForUi parsed user_id)
    /\ (forall k,
          k <> "draft_response"%string ->
          k <> "refund_recommendation"%string ->
          k <> "credit_recommendation"%string ->
          normalizeReportForUi parsed user_id !! k = parsed !! k).
Proof.
  destruct (parseAgentReport_returns JSON_parse agent_response)
    as (parsed & Hparse & Hfields).
  exists parsed. split; [exact Hparse |].
  split; [apply normalizeReportForUi_ui_report, Hfields |].
  intros k H1 H2 H3. unfold normalizeReportForUi.
  rewrite !lookup_insert_ne by congruence. reflexivity.
Qed.

(** ** The text of a model response *)

Lemma for_of_first_nonblank (l : list value) :
  for_of (fun v => match v with
                   | VStr text =>
                       if negb (String.eqb (trim text) "") then Some text else None
                   | _ => None
                   end) l
  = first_nonblank l.
Proof.
  unfold first_nonblank.
  induction l as [| v l IH]; [reflexivity |].
  cbn [for_of List.find].
  destruct v; cbn [is_nonblank_string]; try exact IH.
  destruct (negb (String.eqb (trim s) "")); [reflexivity | exact IH].
Qed.

Lemma first_nonblank_app (l1 l2 : list value) :
  first_nonblank (l1 ++ l2)
  = match first_nonblank l1 with
    | Some t => Some t
    | None => first_nonblank l2
    end.
Proof.
  unfold first_nonblank. induction l1 as [| v l1 IH]; [reflexivity |].
  cbn [app List.find]. destruct (is_nonblank_string v) eqn:E; [| exact IH].
  destruct v; try discriminate E. reflexivity.
Qed.

Lemma item_texts (content : list value) :
  for_of item_text content
  = first_nonblank (map (fun item => member item "text")
                        (List.filter is_object content)).
Proof.
  rewrite <- for_of_first_nonblank.
  induction content as [| item content IH]; [reflexivity |].
  cbn [for_of List.filter]. unfold item_text at 1.
  destruct (is_object item); cbn [negb map for_of]; [| exact IH].
  rewrite IH. reflexivity.
Qed.

Lemma message_texts (output : list value) :
  for_of message_text output = first_nonblank (response_texts output).
Proof.
  induction output as [| message output IH]; [reflexivity |].
  cbn [for_of response_texts flat_map]. rewrite first_nonblank_app.
  fold (response_texts output). rewrite <- IH.
  unfold message_text at 1, texts_of_message.
  destruct (is_object message); cbn [negb]; [| reflexivity].
  destruct (member message "content"); try reflexivity.
  rewrite item_texts. reflexivity.
Qed.

Lemma first_nonblank_spec (l : list value) (text : string) :
  first_nonblank l = Some text ->
  In (VStr text) l /\ trim text <> ""%string.
Proof.
  unfold first_nonblank. destruct (List.find is_nonblank_string l) as [v |] eqn:E;
    [| discriminate].
  apply List.find_some in E as [Hin Hnb].
  destruct v; try discriminate. intros [= <-]. split; [exact Hin |].
  cbn in Hnb. destruct (String.eqb_spec (trim s) ""%string); [discriminate | auto].
Qed.

(** X9.  [extractResponseText] throws "Invalid serving response" for a
    response that is no object, "Serving response missing output" when
    its output is no array, and otherwise goes through the messages of
    the output and the items of their contents in order, passing over
    what is no object and contents that are no array, and returns the
    first text that is a string with a character other than white space;
    it throws "Serving response text not found" when there is none.  The
    text it returns is never empty or blank. *)
Theorem extractResponseText_first_text (response : value) :
  extractResponseText response
  = (if negb (is_object response) then Throws "Invalid serving response"
     else match member response "output" with
          | VArr output =>
              match first_nonblank (response_texts output) with
              | Some text => Returns text
              | None => Throws "Serving response text not found"
              end
          | _ => Throws "Serving response missing output"
          end)
  /\ (forall text : string,
        extractResponseText response = Returns text ->
        trim text <> ""%string
        /\ exists output, member response "output" = VArr output
                          /\ In (VStr text) (response_texts output)).
Proof.
  assert (Heq : extractResponseText response
  = (if negb (is_object response) then Throws "Invalid serving response"
     else match member response "output" with
          | VArr output =>
              match first_nonblank (response_texts output) with
              | Some text => Returns text
              | None => Throws "Serving response text not found"
              end
          | _ => Throws "Serving response missing output"
          end)).
  { unfold extractResponseText, is_object. rewrite negb_andb.
    destruct (negb (truthy response) || negb (String.eqb (typeof response) "object"));
      [reflexivity |].
    destruct (member response "output"); try reflexivity.
    rewrite message_texts. reflexivity. }
  split; [exact Heq |].
  intros text. rewrite Heq.
  destruct (negb (is_object response)); [discriminate |].
  destruct (member response "output") as [| | | | | output |]; try discriminate.
  destruct (first_nonblank (response_texts output)) as [t |] eqn:E;
    [| discriminate].
  intros [= ->]. apply first_nonblank_spec in E as [Hin Hnb].
  split; [exact Hnb |]. exists output. auto.
Qed.

(** ** The text of a support request *)

Section RequestTextFacts.

Variable query : string -> result value.

Lemma fetch_from_spec (tables : list string) :
  match fetch_from query tables with
  | Returns (Some text) =>
      trim text <> ""%string
      /\ exists pre t post,
           tables = pre ++ t :: post
           /\ Forall (skipped query) pre
           /\ query t = Returns (VStr text)
  | Returns None => Forall (skipped query) tables
  | Throws error =>
      tolerated error = false
      /\ exists pre t post,
           tables = pre ++ t :: post
           /\ Forall (skipped query) pre
           /\ query t = Throws error
  end.
Proof.
  induction tables as [| t rest IH]; [constructor |].
  cbn [fetch_from].
  assert (Hskip : skipped query t ->
    match fetch_from query rest with
    | Returns (Some text) =>
        trim text <> ""%string
        /\ exists pre t' post,
             t :: rest = pre ++ t' :: post
             /\ Forall (skipped query) pre
             /\ query t' = Returns (VStr text)
    | Returns None => Forall (skipped query) (t :: rest)
    | Throws error =>
        tolerated error = false
        /\ exists pre t' post,
             t :: rest = pre ++ t' :: post
             /\ Forall (skipped query) pre
             /\ query t' = Throws error
    end).
  { intros Ht. destruct (fetch_from query rest) as [[text |] | error].
    - destruct IH as (Hnb & pre & t' & post & -> & Hpre & Hq).
      split; [exact Hnb |]. exists (t :: pre), t', post. auto.
    - constructor; assumption.
    - destruct IH as (Hnb & pre & t' & post & -> & Hpre & Hq).
      split; [exact Hnb |]. exists (t :: pre), t', post. auto. }
  destruct (query t) as [v | error] eqn:E.
  - destruct v; try (apply Hskip; unfold skipped; rewrite E; reflexivity).
    destruct (negb (String.eqb (trim s) "")) eqn:Enb.
    + split.
      * destruct (String.eqb_spec (trim s) ""%string); [discriminate | auto].
      * exists [], t, rest. auto.
    + apply Hskip. unfold skipped. rewrite E. exact Enb.
  - cbv zeta.
    change (includes (toLowerCase error) "does not exist"
            || includes (toLowerCase error) "undefined table"
            || includes (toLowerCase error) "undefined column"
            || includes (toLowerCase error) "permission denied")
      with (tolerated error).
    destruct (tolerated error) eqn:Et.
    + apply Hskip. unfold skipped. rewrite E. exact Et.
    + split; [exact Et |]. exists [], t, rest. auto.
Qed.

(** X10.  [fetchSupportRequestText] asks the three tables in their order
    of priority and returns the text of the first that has one with a
    character other than white space, so never an empty or blank text; a
    table with no such text is passed over, and so is a table whose query
    fails with a message that holds, in any case of its letters, "does
    not exist", "undefined table", "undefined column" or "permission
    denied"; the result is null when every table is passed over; any
    other error of a query is thrown on, whatever the tables after it
    hold. *)
Theorem fetchSupportRequestText_first_table :
  match fetchSupportRequestText query with
  | Returns (Some text) =>
      trim text <> ""%string
      /\ exists pre t post,
           tableCandidates = pre ++ t :: post
           /\ Forall (skipped query) pre
           /\ query t = Returns (VStr text)
  | Returns None => Forall (skipped query) tableCandidates
  | Throws error =>
      tolerated error = false
      /\ exists pre t post,
           tableCandidates = pre ++ t :: post
           /\ Forall (skipped query) pre
           /\ query t = Throws error
  end.
Proof. apply fetch_from_spec. Qed.

End RequestTextFacts.

(** ** The routes that write *)

Section RouteFacts.

Context {timestamp : Type}.
Variable JSON_parse : string -> option value.

Lemma rows_of_cons {A : Type} (sid k : string) (x : A) (table : list (string * A)) :
  rows_of sid ((k, x) :: table)
  = if String.eqb k sid then x :: rows_of sid table
    else rows_of sid table.
Proof.
  unfold rows_of. cbn [List.filter fst]. destruct (String.eqb k sid); reflexivity.
Qed.



(** X11.  A request to [POST /actions] that is accepted and applies a
    refund or a credit closes the case it names: whatever the tables held
    for the case, a stored status of blocked included, the detail then
    shows the status done, the refund or the credit, one action more and
    the reply flag as before, and the next action is monitor when the
    customer has a reply and send_customer_reply when not. *)
Theorem refund_or_credit_closes_case (t_action t_status : timestamp)
    (b : ActionBody) (db : Database timestamp) (sid : string) :
  fst (postAction t_action t_status (Some b) db) = 201 ->
  ab_support_request_id b = Some sid ->
  ab_action_type b = Some "apply_refund"%string
  \/ ab_action_type b = Some "apply_credit"%string ->
  let before := caseStateOf sid db in
  let after := caseStateOf sid (snd (postAction t_action t_status (Some b) db)) in
  case_status after = done
  /\ (has_refund after = true \/ has_credit after = true)
  /\ has_reply after = has_reply before
  /\ action_count after = S (action_count before)
  /\ next_action after
     = (if has_reply before then "monitor" else "send_customer_reply")%string.
Proof.
  intros Hok Hsid Htype. cbv zeta. unfold postAction in *.
  destruct (missing (Some b) ab_support_request_id
            || missing (Some b) ab_order_id
            || missing (Some b) ab_action_type
            || negb (String.eqb (typeof (ab_amount_usd b)) "number"));
    [discriminate Hok |].
  cbn [snd]. rewrite Hsid. cbn [default].
  unfold caseStateOf, upsert_status, insert_action.
  cbn [operator_actions support_replies operator_regenerated_reports
       request_status].
  rewrite rows_of_cons, String.eqb_refl, lookup_insert_eq.
  unfold caseState.
  cbn [case_status has_refund has_credit has_reply action_count next_action
       length sr_status].
  rewrite !deriveCaseStatus_counts.
  destruct Htype as [-> | ->]; cbn [default String.eqb Ascii.eqb Bool.eqb orb
    existsb action_is ac_action_type stored_status_is];
    cbn; rewrite ?orb_true_r; cbn;
    (split; [reflexivity |]); (split; [auto |]); (split; [reflexivity |]);
    (split; [reflexivity |]).
  - destruct ((0 <? length (rows_of sid (support_replies db)))%nat
              || existsb (action_is timestamp "send_reply")
                         (rows_of sid (operator_actions db))); reflexivity.
  - destruct ((0 <? length (rows_of sid (support_replies db)))%nat
              || existsb (action_is timestamp "send_reply")
                         (rows_of sid (operator_actions db))); reflexivity.
Qed.

(** X12.  A request to [POST /replies] that is accepted records the
    reply twice, as a reply and as an operator action of type send_reply:
    the detail then counts one reply more and one action more and shows
    the reply flag; the status is done when the case has a refund or a
    credit and in_progress when not, whatever status was stored, and the
    next action is monitor or apply_resolution_or_regenerate
    accordingly. *)
Theorem reply_is_recorded_twice (t_reply t_action t_status : timestamp)
    (b : ReplyBody) (db : Database timestamp) (sid : string) :
  fst (postReply t_reply t_action t_status (Some b) db) = 201 ->
  rb_support_request_id b = Some sid ->
  let before := caseStateOf sid db in
  let after :=
    caseStateOf sid (snd (postReply t_reply t_action t_status (Some b) db)) in
  has_reply after = true
  /\ reply_count after = S (reply_count before)
  /\ action_count after = S (action_count before)
  /\ has_refund after = has_refund before
  /\ has_credit after = has_credit before
  /\ case_status after
     = (if has_refund before || has_credit before then done else in_progress)
  /\ next_action after
     = (if has_refund before || has_credit before then "monitor"
        else "apply_resolution_or_regenerate")%string.
Proof.
  intros Hok Hsid. cbv zeta. unfold postReply in *.
  destruct (missing (Some b) rb_support_request_id
            || missing (Some b) rb_order_id
            || missing (Some b) rb_message_text);
    [discriminate Hok |].
  cbn [snd]. rewrite Hsid. cbn [default].
  unfold caseStateOf, upsert_status, insert_action, insert_reply.
  cbn [operator_actions support_replies operator_regenerated_reports
       request_status].
  rewrite !rows_of_cons, String.eqb_refl, lookup_insert_eq.
  unfold caseState.
  cbn [case_status has_refund has_credit has_reply action_count reply_count
       next_action length sr_status].
  rewrite !deriveCaseStatus_counts.
  cbn [existsb action_is ac_action_type stored_status_is].
  change (String.eqb "send_reply" "apply_refund") with false.
  change (String.eqb "send_reply" "apply_credit") with false.
  change (String.eqb "send_reply" "send_reply") with true.
  change (String.eqb "in_progress" "blocked") with false.
  change (String.eqb "in_progress" "done") with false.
  change (String.eqb "in_progress" "in_progress") with true.
  cbn [orb Nat.ltb Nat.leb].
  rewrite !orb_false_r, !orb_true_r.
  destruct (existsb (action_is timestamp "apply_refund")
                    (rows_of sid (operator_actions db))),
           (existsb (action_is timestamp "apply_credit")
                    (rows_of sid (operator_actions db)));
    repeat split; reflexivity.
Qed.

(** X13.  A request to [POST /regenerate] that is accepted adds one
    regenerated report to the case it names and changes no action and no
    reply; the status is then done when the case has a refund or a credit
    and in_progress when not, whatever status was stored.  The detail
    then names regenerate_report as the type of the last action, while an
    item of the list, for a case with an operator action, names the type
    of its newest action. *)
Theorem regenerate_reopens_case (t_report t_status : timestamp)
    (serving : result value) (b : RegenerateBody) (db : Database timestamp)
    (sid : string) :
  fst (postRegenerate JSON_parse t_report t_status serving (Some b) db) = 201 ->
  gb_support_request_id b = Some sid ->
  let db' :=
    snd (postRegenerate JSON_parse t_report t_status serving (Some b) db) in
  let before := caseStateOf sid db in
  let after := caseStateOf sid db' in
  regen_count after = S (regen_count before)
  /\ action_count after = action_count before
  /\ reply_count after = reply_count before
  /\ has_reply after = has_reply before
  /\ case_status after
     = (if has_refund before || has_credit before then done else in_progress)
  /\ last_action_type (rows_of sid (operator_actions db'))
                      (request_status db' !! sid)
     = VStr "regenerate_report"
  /\ (forall (r : RequestRow timestamp) (a : ActionRow timestamp)
             (rest : list (ActionRow timestamp)),
        rows_of sid (operator_actions db) = a :: rest ->
        nullish (ac_action_type timestamp a) = false ->
        aggregates r (rows_of sid (operator_actions db'))
                   (rows_of sid (support_replies db'))
                   (map rg_row (rows_of sid (operator_regenerated_reports db')))
                   (request_status db' !! sid) ->
        item_last_action_type (itemCaseState r) = ac_action_type timestamp a).
Proof.
  intros Hok Hsid. cbv zeta. unfold postRegenerate in *.
  destruct (_ || _); [discriminate Hok |].
  destruct serving as [servingResponse | message];
    [| destruct (includes _ _); discriminate Hok].
  destruct (extractResponseText servingResponse) as [responseText | e];
    [| discriminate Hok].
  destruct (parseAgentReport JSON_parse (VStr responseText)) as [parsed | |];
    [| discriminate Hok ..].
  cbn [snd]. rewrite Hsid. cbn [from_option]. unfold id.
  unfold caseStateOf, upsert_status, insert_regenerated.
  cbn [operator_actions support_replies operator_regenerated_reports
       request_status].
  rewrite !rows_of_cons, String.eqb_refl, lookup_insert_eq.
  unfold caseState.
  cbn [case_status has_refund has_credit has_reply action_count reply_count
       regen_count next_action length map sr_status].
  rewrite !deriveCaseStatus_counts. cbn [stored_status_is].
  change (String.eqb "in_progress" "blocked") with false.
  change (String.eqb "in_progress" "done") with false.
  change (String.eqb "in_progress" "in_progress") with true.
  rewrite !orb_false_r, !orb_true_r.
  repeat split.
  intros r a rest Hrows Hty (_ & _ & _ & _ & _ & _ & _ & _ & Hlast).
  unfold itemCaseState. cbn [item_last_action_type].
  rewrite Hlast, Hrows. unfold coalesce. rewrite Hty. reflexivity.
Qed.


Ltac same_case s sid :=
  destruct (String.eqb_spec s sid) as [<- | ?];
  [rewrite ?lookup_insert_eq | rewrite ?lookup_insert_ne by congruence].

Lemma postAction_written (t1 t2 : timestamp) (body : option ActionBody)
    (db : Database timestamp) :
  written_by_routes db -> written_by_routes (snd (postAction t1 t2 body db)).
Proof.
  intros Hdb. unfold postAction.
  destruct (_ || _); [exact Hdb |].
  destruct body as [b |]; [| exact Hdb]. cbn [snd].
  set (s := default ""%string (ab_support_request_id b)).
  set (ty := default ""%string (ab_action_type b)).
  intros sid. specialize (Hdb sid). cbv zeta in Hdb |- *.
  unfold upsert_status, insert_action.
  cbn [operator_actions support_replies operator_regenerated_reports
       request_status].
  rewrite rows_of_cons. same_case s sid.
  - destruct Hdb as [Hlen _]. split; [cbn [length]; lia |].
    split; [left; discriminate |].
    cbn [sr_status existsb action_is ac_action_type].
    destruct (String.eqb ty "apply_refund"), (String.eqb ty "apply_credit");
      cbn [orb]; rewrite ?orb_true_r; auto.
  - exact Hdb.
Qed.

Lemma postReply_written (t1 t2 t3 : timestamp) (body : option ReplyBody)
    (db : Database timestamp) :
  written_by_routes db -> written_by_routes (snd (postReply t1 t2 t3 body db)).
Proof.
  intros Hdb. unfold postReply.
  destruct (_ || _); [exact Hdb |].
  destruct body as [b |]; [| exact Hdb]. cbn [snd].
  set (s := default ""%string (rb_support_request_id b)).
  intros sid. specialize (Hdb sid). cbv zeta in Hdb |- *.
  unfold upsert_status, insert_action, insert_reply.
  cbn [operator_actions support_replies operator_regenerated_reports
       request_status].
  rewrite !rows_of_cons. same_case s sid.
  - destruct Hdb as [Hlen _]. split; [cbn [length]; lia |].
    split; [left; discriminate | left; reflexivity].
  - exact Hdb.
Qed.

Lemma postRating_written (t : timestamp) (failure : option string)
    (body : option RatingBody) (db : Database timestamp) :
  written_by_routes db -> written_by_routes (snd (postRating t failure body db)).
Proof.
  intros Hdb. unfold postRating.
  destruct (_ || _); [exact Hdb |].
  destruct body as [b |]; [| exact Hdb].
  destruct (_ && _); [exact Hdb |].
  destruct failure as [error |];
    [destruct (isPermissionDeniedError error); exact Hdb |].
  exact Hdb.
Qed.

Lemma postRegenerate_written (t1 t2 : timestamp) (serving : result value)
    (body : option RegenerateBody) (db : Database timestamp) :
  written_by_routes db ->
  written_by_routes (snd (postRegenerate JSON_parse t1 t2 serving body db)).
Proof.
  intros Hdb. unfold postRegenerate.
  destruct (_ || _); [exact Hdb |].
  destruct body as [b |]; [| exact Hdb].
  destruct serving as [servingResponse | message];
    [| destruct (includes _ _); exact Hdb].
  destruct (extractResponseText servingResponse) as [responseText | e];
    [| exact Hdb].
  destruct (parseAgentReport JSON_parse (VStr responseText)) as [parsed | |];
    [| exact Hdb ..].
  cbn [snd]. set (s := default ""%string (gb_support_request_id b)).
  intros sid. specialize (Hdb sid). cbv zeta in Hdb |- *.
  unfold upsert_status, insert_regenerated.
  cbn [operator_actions support_replies operator_regenerated_reports
       request_status].
  rewrite rows_of_cons. same_case s sid.
  - destruct Hdb as [Hlen Hst]. split; [exact Hlen |].
    split; [right; discriminate | left; reflexivity].
  - exact Hdb.
Qed.

Lemma serve_all_written (requests : list (request timestamp))
    (db : Database timestamp) :
  written_by_routes db ->
  written_by_routes (serve_all JSON_parse requests db).
Proof.
  unfold serve_all. revert db.
  induction requests as [| req rest IH]; intros db Hdb; [exact Hdb |].
  cbn [fold_left]. apply IH.
  destruct req; cbn [serve];
    auto using postAction_written, postReply_written, postRating_written,
               postRegenerate_written.
Qed.

Lemma no_rows_written : written_by_routes (@no_rows timestamp).
Proof.
  intros sid. cbv zeta. cbn. rewrite lookup_empty. auto.
Qed.

Lemma investigate_blocker_iff_blocked (p : ActionParams) :
  deriveNextAction p = "investigate_blocker"%string -> caseStatus p = blocked.
Proof.
  destruct p as [[] [] [] []]; cbn; intros H; try reflexivity; discriminate H.
Qed.

(** The case state that the detail route reads from tables that only the
    routes have written. *)
Lemma case_state_of_written (db : Database timestamp) (sid : string) :
  written_by_routes db ->
  let cs := caseStateOf sid db in
  case_status cs <> blocked
  /\ next_action cs <> "investigate_blocker"%string
  /\ (case_status cs = pending
      <-> action_count cs = 0%nat /\ reply_count cs = 0%nat
          /\ regen_count cs = 0%nat)
  /\ (case_status cs = done
      <-> has_refund cs = true \/ has_credit cs = true)
  /\ (reply_count cs <= action_count cs)%nat.
Proof.
  intros Hdb. cbv zeta.
  pose proof (Hdb sid) as H.
  cbv zeta in H.
  assert (Hnext : case_status (caseStateOf sid db) <> blocked ->
                  next_action (caseStateOf sid db)
                  <> "investigate_blocker"%string).
  { intros Hnb Hn. apply Hnb.
    apply (investigate_blocker_iff_blocked _ Hn). }
  revert Hnext.
  unfold caseStateOf, caseState.
  cbn [case_status next_action action_count reply_count regen_count
       has_refund has_credit].
  rewrite !deriveCaseStatus_counts, length_map.
  set (actions := rows_of sid (operator_actions db)) in *.
  set (replies := rows_of sid (support_replies db)) in *.
  set (regenerations := rows_of sid (operator_regenerated_reports db)) in *.
  set (refund := existsb (action_is timestamp "apply_refund") actions) in *.
  set (credit := existsb (action_is timestamp "apply_credit") actions) in *.
  destruct H as [Hlen Hst].
  destruct (request_status db !! sid) as [r |].
  - destruct Hst as [Hrows [-> | [-> Hdone]]]; cbn [stored_status_is].
    + change (String.eqb "in_progress" "blocked") with false.
      change (String.eqb "in_progress" "done") with false.
      change (String.eqb "in_progress" "in_progress") with true.
      rewrite !orb_false_r, !orb_true_r. cbv iota.
      intros Hnext.
      assert (Hnb : (if refund || credit then done else in_progress) <> blocked)
        by (destruct (refund || credit); discriminate).
      split; [exact Hnb |]. split; [exact (Hnext Hnb) |].
      split; [| split; [| exact Hlen]].
      * split; [destruct (refund || credit); discriminate |].
        intros (Ha & _ & Hg). exfalso.
        destruct Hrows as [Hrows | Hrows]; apply Hrows;
          [destruct actions | destruct regenerations];
          try reflexivity; discriminate.
      * destruct refund, credit; cbn [orb]; split; auto; try discriminate.
        intros [? | ?]; discriminate.
    + change (String.eqb "done" "blocked") with false.
      change (String.eqb "done" "done") with true.
      rewrite !orb_true_r. cbv iota.
      intros Hnext.
      assert (Hnb : done <> blocked) by discriminate.
      split; [exact Hnb |]. split; [exact (Hnext Hnb) |].
      split; [| split; [| exact Hlen]].
      * split; [discriminate |].
        intros (Ha & _ & Hg). exfalso.
        destruct Hrows as [Hrows | Hrows]; apply Hrows;
          [destruct actions | destruct regenerations];
          try reflexivity; discriminate.
      * split; [intros _; apply orb_true_iff, Hdone | reflexivity].
  - destruct Hst as (Ha & Hr & Hg).
    assert (refund = false) as -> by (unfold refund; rewrite Ha; reflexivity).
    assert (credit = false) as -> by (unfold credit; rewrite Ha; reflexivity).
    rewrite Ha, Hr, Hg. cbn.
    intros _. repeat split; try discriminate; try reflexivity.
    intros [H | H]; discriminate H.
Qed.


Lemma grown_refl (db : Database timestamp) : grown db db.
Proof. intros sid. repeat split; exists []; reflexivity. Qed.

Lemma grown_trans (db1 db2 db3 : Database timestamp) :
  grown db1 db2 -> grown db2 db3 -> grown db1 db3.
Proof.
  intros H12 H23 sid.
  destruct (H12 sid) as ((a1 & Ha1) & (r1 & Hr1) & (g1 & Hg1)).
  destruct (H23 sid) as ((a2 & Ha2) & (r2 & Hr2) & (g2 & Hg2)).
  repeat split.
  - exists (a2 ++ a1). rewrite Ha2, Ha1. apply app_assoc.
  - exists (r2 ++ r1). rewrite Hr2, Hr1. apply app_assoc.
  - exists (g2 ++ g1). rewrite Hg2, Hg1. apply app_assoc.
Qed.

Lemma rows_of_grow {A : Type} (sid k : string) (x : A)
    (table : list (string * A)) :
  exists l, rows_of sid ((k, x) :: table) = l ++ rows_of sid table.
Proof.
  rewrite rows_of_cons. destruct (String.eqb k sid);
    [exists [x] | exists []]; reflexivity.
Qed.

Lemma serve_grown (req : request timestamp) (db : Database timestamp) :
  grown db (snd (serve JSON_parse req db)).
Proof.
  destruct req as [t1 t2 body | t1 t2 t3 body | t failure body
                   | t1 t2 serving body]; cbn [serve].
  - unfold postAction. destruct (_ || _); [apply grown_refl |].
    destruct body as [b |]; [| apply grown_refl]. cbn [snd].
    intros sid. unfold upsert_status, insert_action.
    cbn [operator_actions support_replies operator_regenerated_reports].
    split; [apply rows_of_grow |]. split; exists []; reflexivity.
  - unfold postReply. destruct (_ || _); [apply grown_refl |].
    destruct body as [b |]; [| apply grown_refl]. cbn [snd].
    intros sid. unfold upsert_status, insert_action, insert_reply.
    cbn [operator_actions support_replies operator_regenerated_reports].
    split; [apply rows_of_grow |]. split; [apply rows_of_grow |].
    exists []. reflexivity.
  - unfold postRating. destruct (_ || _); [apply grown_refl |].
    destruct body as [b |]; [| apply grown_refl].
    destruct (_ && _); [apply grown_refl |].
    destruct failure as [error |];
      [destruct (isPermissionDeniedError error); apply grown_refl |].
    cbn [snd]. intros sid. unfold upsert_rating.
    cbn [operator_actions support_replies operator_regenerated_reports].
    repeat split; exists []; reflexivity.
  - unfold postRegenerate. destruct (_ || _); [apply grown_refl |].
    destruct body as [b |]; [| apply grown_refl].
    destruct serving as [servingResponse | message];
      [| destruct (includes _ _); apply grown_refl].
    destruct (extractResponseText servingResponse) as [responseText | e];
      [| apply grown_refl].
    destruct (parseAgentReport JSON_parse (VStr responseText)) as [parsed | |];
      [| apply grown_refl ..].
    cbn [snd]. intros sid. unfold upsert_status, insert_regenerated.
    cbn [operator_actions support_replies operator_regenerated_reports].
    split; [exists []; reflexivity |]. split; [exists []; reflexivity |].
    apply rows_of_grow.
Qed.

Lemma serve_all_grown (requests : list (request timestamp))
    (db : Database timestamp) :
  grown db (serve_all JSON_parse requests db).
Proof.
  unfold serve_all. revert db.
  induction requests as [| req rest IH]; intros db; [apply grown_refl |].
  cbn [fold_left].
  apply (grown_trans db (snd (serve JSON_parse req db))); [apply serve_grown | apply IH].
Qed.

(** X24.  In tables that the routes alone have written, a case never
    goes back: whatever requests follow, a case that is done stays done,
    a case in progress stays in progress or becomes done, a case with a
    reply keeps it, and the counts of actions, replies and regenerated
    reports never decrease. *)
Theorem case_status_never_goes_back (earlier later : list (request timestamp))
    (sid : string) :
  let before := caseStateOf sid (serve_all JSON_parse earlier no_rows) in
  let after :=
    caseStateOf sid (serve_all JSON_parse (earlier ++ later) no_rows) in
  (case_status before = done -> case_status after = done)
  /\ (case_status before = in_progress ->
      case_status after = in_progress \/ case_status after = done)
  /\ (has_reply before = true -> has_reply after = true)
  /\ (action_count before <= action_count after)%nat
  /\ (reply_count before <= reply_count after)%nat
  /\ (regen_count before <= regen_count after)%nat.
Proof.
  cbv zeta.
  assert (Happ : serve_all JSON_parse (earlier ++ later) no_rows
                 = serve_all JSON_parse later
                     (serve_all JSON_parse earlier no_rows))
    by (unfold serve_all; apply fold_left_app).
  rewrite Happ.
  set (db1 := serve_all JSON_parse earlier no_rows).
  set (db2 := serve_all JSON_parse later db1).
  assert (Hw1 : written_by_routes db1)
    by apply serve_all_written, no_rows_written.
  assert (Hw2 : written_by_routes db2)
    by apply serve_all_written, Hw1.
  destruct (case_state_of_written db1 sid Hw1) as (_ & _ & Hp1 & Hd1 & _).
  destruct (case_state_of_written db2 sid Hw2) as (Hb2 & _ & Hp2 & Hd2 & _).
  destruct (serve_all_grown later db1 sid)
    as ((la & Ha) & (lr & Hr) & (lg & Hg)). fold db2 in Ha, Hr, Hg.
  assert (Hcounts : (action_count (caseStateOf sid db1)
                     <= action_count (caseStateOf sid db2))%nat
                    /\ (reply_count (caseStateOf sid db1)
                        <= reply_count (caseStateOf sid db2))%nat
                    /\ (regen_count (caseStateOf sid db1)
                        <= regen_count (caseStateOf sid db2))%nat).
  { unfold caseStateOf, caseState. cbn [action_count reply_count regen_count].
    rewrite Ha, Hr, Hg, !length_map, !length_app. lia. }
  assert (Hflags : forall name,
            existsb (action_is timestamp name) (rows_of sid (operator_actions db1))
            = true ->
            existsb (action_is timestamp name) (rows_of sid (operator_actions db2))
            = true).
  { intros name H. rewrite Ha, existsb_app, H. apply orb_true_r. }
  split; [| split; [| split; [| exact Hcounts]]].
  - intros H1. apply Hd2. apply Hd1 in H1.
    unfold caseStateOf, caseState in *. cbn [has_refund has_credit] in *.
    destruct H1 as [H1 | H1]; [left | right]; apply Hflags, H1.
  - intros H1.
    assert (Hnp : case_status (caseStateOf sid db2) <> pending).
    { intros E2. apply Hp2 in E2. destruct E2 as (E2a & E2r & E2g).
      assert (Hpend : case_status (caseStateOf sid db1) = pending)
        by (apply Hp1; lia).
      congruence. }
    destruct (case_status (caseStateOf sid db2)); auto; congruence.
  - unfold caseStateOf, caseState. cbn [has_reply].
    rewrite Hr, length_app. intros H. apply orb_true_iff in H as [H | H].
    + apply orb_true_iff. left. apply Nat.ltb_lt in H. apply Nat.ltb_lt. lia.
    + apply orb_true_iff. right. apply Hflags, H.
Qed.




Lemma serve_reports_normalized (req : request timestamp)
    (db : Database timestamp) :
  reports_normalized db -> reports_normalized (snd (serve JSON_parse req db)).
Proof.
  intros Hdb.
  destruct req as [t1 t2 body | t1 t2 t3 body | t failure body
                   | t1 t2 serving body]; cbn [serve].
  - unfold postAction. destruct (_ || _); [exact Hdb |].
    destruct body as [b |]; exact Hdb.
  - unfold postReply. destruct (_ || _); [exact Hdb |].
    destruct body as [b |]; exact Hdb.
  - unfold postRating. destruct (_ || _); [exact Hdb |].
    destruct body as [b |]; [| exact Hdb].
    destruct (_ && _); [exact Hdb |].
    destruct failure as [error |];
      [destruct (isPermissionDeniedError error); exact Hdb | exact Hdb].
  - unfold postRegenerate. destruct (_ || _); [exact Hdb |].
    destruct body as [b |]; [| exact Hdb].
    destruct serving as [servingResponse | message];
      [| destruct (includes _ _); exact Hdb].
    destruct (extractResponseText servingResponse) as [responseText | e];
      [| exact Hdb].
    destruct (parseAgentReport_returns JSON_parse (VStr responseText))
      as (parsed & -> & Hfields).
    cbn [snd]. unfold reports_normalized, upsert_status, insert_regenerated.
    cbn [operator_regenerated_reports].
    constructor; [| exact Hdb].
    cbn [snd rg_agent_response].
    apply normalizeReportForUi_ui_report, Hfields.
Qed.

(** X17.  Every regenerated report that the routes have stored, starting
    from no row, is a normalised report: it has every recognized field, a
    draft that is a redacted string, and recommendations that are null or
    objects with a null or finite amount and a reason. *)
Theorem stored_reports_are_normalized (requests : list (request timestamp))
    (sid : string) (rg : RegeneratedReport timestamp) :
  In rg (rows_of sid (operator_regenerated_reports
                        (serve_all JSON_parse requests no_rows))) ->
  ui_report (rg_agent_response rg).
Proof.
  assert (H : forall db, reports_normalized db ->
            reports_normalized (serve_all JSON_parse requests db)).
  { unfold serve_all. induction requests as [| req rest IH]; intros db Hdb;
      [exact Hdb |].
    cbn [fold_left]. apply IH, serve_reports_normalized, Hdb. }
  specialize (H no_rows ltac:(constructor)).
  unfold rows_of. intros Hin. apply in_map_iff in Hin as ([k rg'] & <- & Hin).
  apply filter_In in Hin as [Hin _].
  unfold reports_normalized in H. rewrite Forall_forall in H.
  apply (H (k, rg')). apply list_elem_of_In, Hin.
Qed.

End RouteFacts.

(** A refund for a case whose stored status is blocked. *)
Lemma refund_or_credit_closes_case_witness :
  let b := {| ab_support_request_id := Some "sr-1"%string;
              ab_order_id := Some "o-1"%string;
              ab_user_id := None;
              ab_action_type := Some "apply_refund"%string;
              ab_amount_usd := VNum (Fin 5);
              ab_actor := None |} in
  let db := {| operator_actions := [];
               support_replies := [];
               operator_regenerated_reports := [];
               request_status :=
                 <["sr-1"%string :=
                     {| sr_status := VStr "blocked";
                        sr_last_action := VNull;
                        sr_updated_at := 5 |}]> ∅;
               response_ratings := ∅ |} in
  case_status (caseStateOf "sr-1" db) = blocked
  /\ fst (postAction 10 11 (Some b) db) = 201
  /\ case_status (caseStateOf "sr-1" (snd (postAction 10 11 (Some b) db)))
     = done.
Proof.
  intros b db. split; [vm_compute; reflexivity |]. split; [reflexivity |].
  exact (proj1 (refund_or_credit_closes_case 10 11 b db "sr-1"%string
                  eq_refl eq_refl (or_introl eq_refl))).
Defined.

(** A reply for a case with no row yet. *)
Lemma reply_is_recorded_twice_witness :
  let b := {| rb_support_request_id := Some "sr-1"%string;
              rb_order_id := Some "o-1"%string;
              rb_user_id := None;
              rb_message_text := Some "On it."%string;
              rb_sent_by := Some "agent"%string |} in
  fst (postReply 10 11 12 (Some b) (@no_rows Z)) = 201
  /\ has_reply (caseStateOf "sr-1" (snd (postReply 10 11 12 (Some b) no_rows)))
     = true.
Proof.
  intros b. split; [reflexivity |].
  exact (proj1 (reply_is_recorded_twice 10 11 12 b no_rows "sr-1"%string
                  eq_refl eq_refl)).
Defined.

(** A regeneration whose model response is one message with one text. *)
Lemma regenerate_reopens_case_witness :
  let b := {| gb_support_request_id := Some "sr-1"%string;
              gb_user_id := None;
              gb_order_id := Some "o-1"%string;
              gb_operator_context := None;
              gb_actor := None |} in
  let serving :=
    Returns
      (VObj (<["output"%string :=
                 VArr [VObj (<["content"%string :=
                                 VArr [VObj (<["text"%string := VStr "{}"]> ∅)]]>
                             ∅)]]> ∅)) in
  let after := snd (postRegenerate (fun _ => None) 10 11 serving (Some b)
                                   (@no_rows Z)) in
  fst (postRegenerate (fun _ => None) 10 11 serving (Some b) (@no_rows Z)) = 201
  /\ regen_count (caseStateOf "sr-1" after) = 1%nat.
Proof.
  intros b serving after.
  assert (H : fst (postRegenerate (fun _ => None) 10 11 serving (Some b)
                                  (@no_rows Z)) = 201)
    by (vm_compute; reflexivity).
  split; [exact H |].
  exact (proj1 (regenerate_reopens_case (fun _ => None) 10 11 serving b no_rows
                  "sr-1"%string H eq_refl)).
Defined.

(** The report stored by that regeneration. *)
Lemma stored_reports_are_normalized_witness :
  let b := {| gb_support_request_id := Some "sr-1"%string;
              gb_user_id := None;
              gb_order_id := Some "o-1"%string;
              gb_operator_context := None;
              gb_actor := None |} in
  let serving :=
    Returns
      (VObj (<["output"%string :=
                 VArr [VObj (<["content"%string :=
                                 VArr [VObj (<["text"%string := VStr "{}"]> ∅)]]>
                             ∅)]]> ∅)) in
  let rg := {| rg_row := {| rr_created_at := 10; rr_actor := VNull;
                            rr_operator_context := VNull |};
               rg_agent_response := normalizeReportForUi DEFAULT_REPORT None |} in
  In rg (rows_of "sr-1"
           (operator_regenerated_reports
              (serve_all (fun _ => None)
                         [PostRegenerate 10 11 serving (Some b)] (@no_rows Z))))
  /\ ui_report (rg_agent_response rg).
Proof.
  intros b serving rg.
  assert (H : In rg (rows_of "sr-1"
           (operator_regenerated_reports
              (serve_all (fun _ => None)
                         [PostRegenerate 10 11 serving (Some b)] (@no_rows Z)))))
    by (left; vm_compute; reflexivity).
  split; [exact H |].
  exact (stored_reports_are_normalized (fun _ => None) _ _ _ H).
Defined.

(** ** The password callback over time *)

Module TokenCacheRunFacts.
Import TokenCacheModel TokenCacheRuns.

(** What one call does, by the state it finds. *)
Lemma getToken_cases (now : Z) (st : state) :
  (exists c, cached st = Some c /\ now < expiresAt c - CACHE_BUFFER_MS
             /\ getToken now st = (Ready (token c), st))
  \/ (fresh now st = None
      /\ ((exists p, refreshPromise st = Some p
                     /\ getToken now st = (Awaits p, st))
          \/ (refreshPromise st = None
              /\ getToken now st
                 = (Awaits (fetchCalls st),
                    {| cached := cached st;
                       refreshPromise := Some (fetchCalls st);
                       fetchCalls := S (fetchCalls st);
                       settled := settled st |})))).
Proof.
  unfold getToken, fresh. destruct (cached st) as [c |].
  - destruct (Z.ltb_spec now (expiresAt c - CACHE_BUFFER_MS)).
    + left. exists c. auto.
    + right. split; [reflexivity |].
      destruct (refreshPromise st) as [p |]; [left; exists p | right]; auto.
  - right. split; [reflexivity |].
    destruct (refreshPromise st) as [p |]; [left; exists p | right]; auto.
Qed.

Lemma getToken_in_order (now : Z) (st : state) :
  requests_in_order st -> requests_in_order (snd (getToken now st)).
Proof.
  intros [Hs Hp].
  destruct (getToken_cases now st)
    as [(c & _ & _ & ->) | [_ [(p & _ & ->) | [Hnone ->]]]];
    cbn [snd]; try (split; assumption).
  split; cbn [settled fetchCalls refreshPromise].
  - intros p. rewrite Hs, Hnone. split.
    + intros [Hlt _]. split; [lia |]. intros Heq. injection Heq as Heq. lia.
    + intros [Hlt Hne]. split; [| discriminate].
      destruct (decide (p = fetchCalls st)) as [-> |]; [congruence | lia].
  - intros p Heq. congruence.
Qed.

Lemma settle_in_order (result : TokenCache + string) (st : state) :
  requests_in_order st -> requests_in_order (settle result st).
Proof.
  intros Hst. unfold settle.
  destruct (refreshPromise st) as [p |] eqn:Hin; [| exact Hst].
  destruct Hst as [Hs Hp].
  specialize (Hp p Hin).
  split; cbn [settled fetchCalls refreshPromise]; [| discriminate].
  intros q. destruct (decide (q = p)) as [-> | Hne].
  - rewrite lookup_insert_eq. split; [| intros _; eexists; reflexivity].
    intros _. split; [lia | discriminate].
  - rewrite lookup_insert_ne by congruence. rewrite Hs, Hin. split.
    + intros [Hlt _]. split; [exact Hlt | discriminate].
    + intros [Hlt _]. split; [exact Hlt | congruence].
Qed.

Lemma run_in_order (events : list event) (st : state) :
  requests_in_order st -> requests_in_order (snd (run events st)).
Proof.
  revert st. induction events as [| [now | result] rest IH]; intros st Hst.
  - exact Hst.
  - cbn [run]. pose proof (getToken_in_order now st Hst) as H1.
    destruct (getToken now st) as [a st1]. cbn [snd] in H1.
    specialize (IH st1 H1). destruct (run rest st1) as [answers st2].
    exact IH.
  - cbn [run]. apply IH, settle_in_order, Hst.
Qed.

Lemma initial_in_order : requests_in_order initial.
Proof.
  split; cbn.
  - intros p. rewrite lookup_empty. split.
    + intros [x Hx]. discriminate Hx.
    + intros [Hlt _]. lia.
  - discriminate.
Qed.

(** X18.  Whatever calls and settlements a callback goes through, it has
    one credential request in flight at most: every request it has issued
    has settled, but for the one in flight, and that one is the last it
    issued. *)
Theorem refresh_one_at_a_time (events : list event) :
  requests_in_order (snd (run events initial)).
Proof. apply run_in_order, initial_in_order. Qed.

Lemma run_ready (P : TokenCache -> Prop) (events : list event) (st : state)
    (now : Z) (tok : string) :
  (forall c, cached st = Some c -> P c) ->
  In (now, Ready tok) (fst (run events st)) ->
  exists entry,
    (P entry \/ In (Settle (inl entry)) events)
    /\ token entry = tok
    /\ now < expiresAt entry - CACHE_BUFFER_MS.
Proof.
  revert P st.
  induction events as [| [t | result] rest IH]; intros P st Hst Hin.
  - destruct Hin.
  - cbn [run] in Hin.
    assert (Hnext : In (now, Ready tok) (fst (run rest (snd (getToken t st))))
                    -> exists entry,
                         (P entry \/ In (Settle (inl entry)) (Call t :: rest))
                         /\ token entry = tok
                         /\ now < expiresAt entry - CACHE_BUFFER_MS).
    { intros H. destruct (IH P (snd (getToken t st))) with (2 := H)
        as (entry & [H1 | H1] & H2).
      - destruct (getToken_cases t st)
          as [(c & _ & _ & ->) | [_ [(p & _ & ->) | [_ ->]]]]; exact Hst.
      - exists entry. auto.
      - exists entry. split; [right; right; exact H1 | exact H2]. }
    destruct (getToken_cases t st)
      as [(c & Hc & Hlt & Hg) | [_ [(p & _ & Hg) | [_ Hg]]]];
      rewrite Hg in Hin, Hnext; cbn [snd] in Hnext;
      match type of Hin with
      | context [run rest ?s] => destruct (run rest s) as [answers st2]
      end;
      cbn [fst] in Hin, Hnext; destruct Hin as [Heq | Hin];
      try discriminate Heq; try exact (Hnext Hin).
    injection Heq as -> <-. exists c. auto.
  - cbn [run] in Hin.
    destruct (IH (fun c => P c \/ result = inl c) (settle result st))
      with (2 := Hin) as (entry & [[H | ->] | H] & H2).
    + unfold settle. destruct (refreshPromise st); [| auto].
      cbn [cached]. destruct result as [entry | e]; [| auto].
      intros c Heq. injection Heq as ->. auto.
    + exists entry. auto.
    + exists entry. split; [right; left; reflexivity | exact H2].
    + exists entry. split; [right; right; exact H | exact H2].
Qed.

(** X19.  A call is answered with a token at once only with the token of
    a credential request that has been fulfilled, and only at a time more
    than two minutes before that token expires. *)
Theorem ready_token_is_fresh (events : list event) (now : Z) (tok : string) :
  In (now, Ready tok) (fst (run events initial)) ->
  exists entry,
    In (Settle (inl entry)) events
    /\ token entry = tok
    /\ now < expiresAt entry - CACHE_BUFFER_MS.
Proof.
  intros Hin.
  destruct (run_ready (fun _ => False) events initial now tok) as
    (entry & [[] | H] & H2); [discriminate | exact Hin |].
  exists entry. auto.
Qed.

(** A call, the token of an hour, and a call at 100 ms. *)
Lemma ready_token_is_fresh_witness :
  In (100, Ready "t0"%string)
     (fst (run [Call 0; Settle (inl {| token := "t0"; expiresAt := 3600000 |});
                Call 100] initial))
  /\ exists entry,
       In (Settle (inl entry))
          [Call 0; Settle (inl {| token := "t0"; expiresAt := 3600000 |});
           Call 100]
       /\ token entry = "t0"%string
       /\ 100 < expiresAt entry - CACHE_BUFFER_MS.
Proof.
  assert (H : In (100, Ready "t0"%string)
     (fst (run [Call 0; Settle (inl {| token := "t0"; expiresAt := 3600000 |});
                Call 100] initial))).
  { right. left. reflexivity. }
  split; [exact H |]. exact (ready_token_is_fresh _ _ _ H).
Defined.

(** X20.  When the credential request in flight fails, the callers that
    wait for it get the error, the cached entry stays as it was, and no
    refresh is in flight; the next call that finds no fresh token issues
    a new credential request, the one after the failed one: a failure is
    not remembered. *)
Theorem failed_refresh_is_retried (events : list event) (p : nat)
    (e : string) :
  let st := snd (run events initial) in
  refreshPromise st = Some p ->
  let st' := settle (inr e) st in
  outcome st' (Awaits p) = Some (Rejected e)
  /\ cached st' = cached st
  /\ refreshPromise st' = None
  /\ (forall now : Z,
        fresh now st' = None ->
        getToken now st'
        = (Awaits (S p),
           {| cached := cached st; refreshPromise := Some (S p);
              fetchCalls := S (S p); settled := settled st' |})).
Proof.
  cbv zeta. intros Hp.
  destruct (run_in_order events initial initial_in_order) as [_ Hlast].
  specialize (Hlast p Hp).
  unfold settle. rewrite Hp. cbn [outcome cached refreshPromise settled].
  split; [apply lookup_insert_eq |]. split; [reflexivity |].
  split; [reflexivity |].
  unfold getToken. intros now ->. cbn [refreshPromise fetchCalls cached settled].
  rewrite Hlast. reflexivity.
Qed.

(** The first request of a callback fails; the next call asks again. *)
Lemma failed_refresh_is_retried_witness :
  refreshPromise (snd (run [Call 0] initial)) = Some 0%nat
  /\ outcome (settle (inr "timeout"%string) (snd (run [Call 0] initial)))
             (Awaits 0)
     = Some (Rejected "timeout"%string)
  /\ fst (getToken 5 (settle (inr "timeout"%string)
                             (snd (run [Call 0] initial))))
     = Awaits 1.
Proof.
  split; [reflexivity |].
  destruct (failed_refresh_is_retried [Call 0] 0 "timeout"%string eq_refl)
    as (H1 & _ & _ & H4).
  split; [exact H1 |]. rewrite (H4 5 eq_refl). reflexivity.
Defined.

(** X21.  When the credential request in flight is fulfilled, the callers
    that wait for it get its token; from then on a call earlier than two
    minutes before the expiry of the token is answered with it and issues
    no request, and a call at that time or later issues a new credential
    request and waits for it. *)
Theorem refreshed_token_until_buffer (events : list event) (p : nat)
    (entry : TokenCache) :
  let st := snd (run events initial) in
  refreshPromise st = Some p ->
  let st' := settle (inl entry) st in
  outcome st' (Awaits p) = Some (Fulfilled (token entry))
  /\ (forall now : Z,
        now < expiresAt entry - 120000 ->
        getToken now st' = (Ready (token entry), st'))
  /\ (forall now : Z,
        expiresAt entry - 120000 <= now ->
        getToken now st'
        = (Awaits (S p),
           {| cached := Some entry; refreshPromise := Some (S p);
              fetchCalls := S (S p); settled := settled st' |})).
Proof.
  cbv zeta. intros Hp.
  destruct (run_in_order events initial initial_in_order) as [_ Hlast].
  specialize (Hlast p Hp).
  unfold settle. rewrite Hp. cbn [outcome settled].
  split; [apply lookup_insert_eq |].
  unfold getToken, fresh. cbn [cached refreshPromise fetchCalls settled].
  change CACHE_BUFFER_MS with 120000. split; intros now Hnow.
  - destruct (Z.ltb_spec now (expiresAt entry - 120000)); [reflexivity | lia].
  - destruct (Z.ltb_spec now (expiresAt entry - 120000)); [lia |].
    rewrite Hlast. reflexivity.
Qed.

(** A token of an hour: served at 100 ms, refreshed at 58 minutes. *)
Lemma refreshed_token_until_buffer_witness :
  refreshPromise (snd (run [Call 0] initial)) = Some 0%nat
  /\ fst (getToken 100
            (settle (inl {| token := "t0"; expiresAt := 3600000 |})
                    (snd (run [Call 0] initial))))
     = Ready "t0"%string
  /\ fst (getToken 3480000
            (settle (inl {| token := "t0"; expiresAt := 3600000 |})
                    (snd (run [Call 0] initial))))
     = Awaits 1.
Proof.
  split; [reflexivity |].
  destruct (refreshed_token_until_buffer [Call 0] 0
              {| token := "t0"; expiresAt := 3600000 |} eq_refl)
    as (_ & H2 & H3).
  split.
  - rewrite (H2 100 ltac:(cbn; lia)). reflexivity.
  - rewrite (H3 3480000 ltac:(cbn; lia)). reflexivity.
Defined.

(** X25.  While a refresh is in flight no call issues a credential
    request or changes the state: a call that finds a fresh token cached
    is answered with it, and every other call gets the promise of the
    refresh in flight, also when a stale token is cached. *)
Theorem refresh_in_flight_is_shared (st : state) (p : nat) (nows : list Z) :
  refreshPromise st = Some p ->
  getToken_all nows st
  = (map (fun now => match fresh now st with
                     | Some tok => Ready tok
                     | None => Awaits p
                     end) nows,
     st).
Proof.
  intros Hp. induction nows as [| now rest IH]; [reflexivity |].
  cbn [getToken_all map]. unfold getToken at 1.
  destruct (fresh now st) as [tok |]; rewrite ?Hp, IH; reflexivity.
Qed.

(** Calls during a refresh, around the time the cached token goes stale. *)
Lemma refresh_in_flight_is_shared_witness :
  let st := {| cached := Some {| token := "old"; expiresAt := 200000 |};
               refreshPromise := Some 3%nat;
               fetchCalls := 4;
               settled := ∅ |} in
  refreshPromise st = Some 3%nat
  /\ getToken_all [100; 90000; 150] st
     = ([Ready "old"%string; Awaits 3; Ready "old"%string], st).
Proof.
  intros st. split; [reflexivity |].
  rewrite (refresh_in_flight_is_shared st 3 [100; 90000; 150] eq_refl).
  reflexivity.
Defined.

End TokenCacheRunFacts.

(** ** The console *)

Module ClientFacts.
Import Client.

(** X22.  The console has a label of its own for every next action the
    server derives, so that the label for an unknown action is never
    used for one; two next actions with one label are the same action,
    and two statuses with one label are the same status. *)
Theorem labels_tell_states_apart :
  (forall p : ActionParams, is_Some (mapping !! deriveNextAction p))
  /\ (forall p q : ActionParams,
        nextActionLabel (Some (deriveNextAction p))
        = nextActionLabel (Some (deriveNextAction q)) ->
        deriveNextAction p = deriveNextAction q)
  /\ (forall s t : CaseStatus,
        statusLabel (Some (CaseStatus_string s))
        = statusLabel (Some (CaseStatus_string t)) ->
        s = t).
Proof.
  split; [| split].
  - intros [[] [] [] []]; vm_compute; eauto.
  - intros [[] [] [] []] [[] [] [] []]; vm_compute; intros H;
      try reflexivity; discriminate H.
  - intros [] []; vm_compute; intros H; try reflexivity; discriminate H.
Qed.

Lemma Qceiling_div (n d : Z) :
  0 < d -> Qceiling (inject_Z n / inject_Z d) = - ((- n) / d).
Proof.
  intros Hd. unfold Qceiling, Qfloor, Qdiv, Qinv, Qmult, Qopp, inject_Z.
  destruct d as [| d | d]; try lia. cbn. f_equal. f_equal. lia.
Qed.

(** X23.  For a count of requests that is not negative there is at least
    one page, the pages of fifty hold every request, and the offset of
    the last page is below the count when there is a request, so that no
    page but the first of an empty list is empty; on a page between the
    first and the last the offset is not negative, and the handlers of
    Previous and Next give a page between the first and the last. *)
Theorem pages_cover_the_requests (totalRequests : Z) :
  0 <= totalRequests ->
  1 <= totalPages totalRequests
  /\ totalRequests <= totalPages totalRequests * PAGE_SIZE
  /\ (0 < totalRequests -> offset (totalPages totalRequests) < totalRequests)
  /\ (forall p : Z,
        1 <= p <= totalPages totalRequests ->
        0 <= offset p
        /\ 1 <= previousPage p <= totalPages totalRequests
        /\ 1 <= nextPage totalRequests p <= totalPages totalRequests).
Proof.
  intros Hn. unfold totalPages, offset, previousPage, nextPage, totalPages,
    PAGE_SIZE.
  rewrite Qceiling_div by lia.
  pose proof (Z.div_mod (- totalRequests) 50 ltac:(lia)) as Hdm.
  pose proof (Z.mod_pos_bound (- totalRequests) 50 ltac:(lia)) as Hmod.
  set (q := (- totalRequests) / 50) in *.
  repeat split; try lia.
Qed.

(** 120 requests make three pages. *)
Lemma pages_cover_the_requests_witness :
  0 <= 120
  /\ totalPages 120 = 3
  /\ offset (totalPages 120) < 120.
Proof.
  assert (H : 0 <= 120) by lia.
  split; [exact H |]. split; [reflexivity |].
  destruct (pages_cover_the_requests 120 H) as (_ & _ & H3 & _).
  apply H3. lia.
Defined.

End ClientFacts.
